(** * Interactive Metablob: the surface-extraction core of [src/index.tsx]

    A shallow embedding of the field model ([sdf_sphere], [smin],
    [fieldValue]), the normal estimator ([estimateNormal]), the edge
    interpolation ([interpolateVertex]), the marching-cubes pass
    ([updateMesh]) and the emitter kinematics ([reseedSpheres],
    [updateSpheres]).

    JavaScript numbers are modelled as real numbers: every arithmetic
    operation is the exact one, [Math.sqrt] is [sqrt], and the [Float32Array]
    store of the corner values keeps the value unchanged.  Loop counters and
    the case index are integers. *)

From Stdlib Require Import Reals Lra Lia ZArith List Bool.
Import ListNotations.

Local Open Scope R_scope.

(** ** three.js vectors *)

Record Vec3 : Type := vec3 { vx : R; vy : R; vz : R }.

Module Vector3.

(** [a.subVectors(b, c)] stores [b - c]. *)
Definition subVectors (a b : Vec3) : Vec3 :=
  vec3 (vx a - vx b) (vy a - vy b) (vz a - vz b).

Definition add (a b : Vec3) : Vec3 :=
  vec3 (vx a + vx b) (vy a + vy b) (vz a + vz b).

Definition multiplyScalar (a : Vec3) (s : R) : Vec3 :=
  vec3 (vx a * s) (vy a * s) (vz a * s).

(** [divideScalar(s)] is [multiplyScalar(1 / s)]. *)
Definition divideScalar (a : Vec3) (s : R) : Vec3 :=
  multiplyScalar a (1 / s).

Definition length (a : Vec3) : R :=
  sqrt (vx a * vx a + vy a * vy a + vz a * vz a).

(** [normalize()] is [divideScalar(length() || 1)]: a zero vector is left
    as it is. *)
Definition normalize (a : Vec3) : Vec3 :=
  let l := length a in
  divideScalar a (if Req_dec_T l 0 then 1 else l).

Definition distanceTo (a b : Vec3) : R :=
  let dx := vx a - vx b in
  let dy := vy a - vy b in
  let dz := vz a - vz b in
  sqrt (dx * dx + dy * dy + dz * dz).

(** [lerpVectors(v1, v2, alpha)] stores [v1 + (v2 - v1) * alpha]. *)
Definition lerpVectors (v1 v2 : Vec3) (alpha : R) : Vec3 :=
  vec3 (vx v1 + (vx v2 - vx v1) * alpha)
       (vy v1 + (vy v2 - vy v1) * alpha)
       (vz v1 + (vz v2 - vz v1) * alpha).

End Vector3.

(** ** Parameters and emitters *)

Record Params : Type := mkParams {
  sphereCount : Z;
  smoothK : R;
  speed : R;
  targetRadius : R;
  radiusVariance : R;
  cellsPerAxis : Z;
  volumeRadius : R;
  isoLevel : R
}.

Record Sphere : Type := mkSphere {
  position : Vec3;
  target : Vec3;
  radius : R;
  sphere_speed : R
}.

(** ** Field model *)

Definition sdf_sphere (p center : Vec3) (radius : R) : R :=
  Vector3.distanceTo p center - radius.

(** The polynomial smooth minimum, over the reals.  The embedding covers
    [k <> 0]: at [k = 0] the source divides by zero and computes with
    [Infinity], or with [NaN] when [a = b], neither of which is a real
    number ([x / 0] is [0] in [R]). *)
Definition smin (a b k : R) : R :=
  let h := Rmax 0 (Rmin 1 (0.5 + 0.5 * (b - a) / k)) in
  a * h + b * (1 - h) - k * h * (1 - h).

(** The fold of [fieldValue], from the sentinel [1e9]. *)
Definition fieldValue (params : Params) (spheres : list Sphere)
    (worldPos : Vec3) : R :=
  fold_left
    (fun d sphere =>
       let di := sdf_sphere worldPos (position sphere) (radius sphere) in
       smin d di (smoothK params))
    spheres 1e9.


(** ** Shared vector objects of the mesh pass

    The pass keeps its vectors in module-level scratch objects and hands
    references around: [interpolateVertex] returns one of its two arguments
    (an element of [cornerPositions]) or a vector it allocates, and
    [estimateNormal] returns the one vector [normal_h].  A reference is
    therefore the name of an object, read through the current scratch state.
    (The scratch vector [p] is written immediately before each of its reads
    and no reference to it is kept, so its value is passed directly.) *)

Inductive vref : Type :=
| corner_ref (c : nat)      (* the object cornerPositions[c] *)
| fresh_ref (v : Vec3)      (* a vector allocated by new THREE.Vector3 *)
| normal_h_ref.             (* the object normal_h *)

Record Scratch : Type := mkScratch {
  cornerPositions : list Vec3;      (* eight vectors, rewritten per cell *)
  cornerValues : list R;            (* eight numbers, rewritten per cell *)
  edgeIntersection : nat -> vref;   (* twelve slots, indices 0..11 *)
  normal_h : Vec3
}.

Definition zero3 : Vec3 := vec3 0 0 0.

Definition deref (s : Scratch) (r : vref) : Vec3 :=
  match r with
  | corner_ref c => nth c (cornerPositions s) zero3
  | fresh_ref v => v
  | normal_h_ref => normal_h s
  end.

Definition set_corners (s : Scratch) (ps : list Vec3) (vs : list R) : Scratch :=
  mkScratch ps vs (edgeIntersection s) (normal_h s).

Definition set_edge (s : Scratch) (e : nat) (r : vref) : Scratch :=
  mkScratch (cornerPositions s) (cornerValues s)
            (fun e' => if Nat.eqb e' e then r else edgeIntersection s e')
            (normal_h s).

Definition set_normal_h (s : Scratch) (n : Vec3) : Scratch :=
  mkScratch (cornerPositions s) (cornerValues s) (edgeIntersection s) n.

(** The scratch objects as the module creates them. *)
Definition initScratch : Scratch :=
  mkScratch (repeat zero3 8) (repeat 0 8) (fun _ => fresh_ref zero3) zero3.

(** ** Normal estimator *)

(** [estimateNormal] writes the normalized central difference into
    [normal_h] and returns that object. *)
Definition gradient (params : Params) (spheres : list Sphere) (q : Vec3) : Vec3 :=
  let h := 0.001 in
  let f := fieldValue params spheres in
  let nx := f (vec3 (vx q + h) (vy q) (vz q)) - f (vec3 (vx q - h) (vy q) (vz q)) in
  let ny := f (vec3 (vx q) (vy q + h) (vz q)) - f (vec3 (vx q) (vy q - h) (vz q)) in
  let nz := f (vec3 (vx q) (vy q) (vz q + h)) - f (vec3 (vx q) (vy q) (vz q - h)) in
  vec3 nx ny nz.

Definition estimateNormal (params : Params) (spheres : list Sphere)
    (s : Scratch) (pos : vref) : vref * Scratch :=
  let q := deref s pos in
  (normal_h_ref, set_normal_h s (Vector3.normalize (gradient params spheres q))).

(** ** Edge interpolation *)

Definition interpolateVertex (params : Params) (s : Scratch)
    (p1 p2 : vref) (v1 v2 : R) : vref :=
  if Rlt_dec (Rabs (isoLevel params - v1)) 0.00001 then p1
  else if Rlt_dec (Rabs (isoLevel params - v2)) 0.00001 then p2
  else if Rlt_dec (Rabs (v1 - v2)) 0.00001 then p1
  else
    let t := (isoLevel params - v1) / (v2 - v1) in
    fresh_ref (Vector3.lerpVectors (deref s p1) (deref s p2) t).

(** ** Grid walk *)

(** The indices [0, 1, ..., n-1] of [for (let i = 0; i < n; i++)]. *)
Definition range (n : Z) : list Z := map Z.of_nat (seq 0 (Z.to_nat n)).

(** A loop whose body may throw. *)
Fixpoint forEach {S : Type} (l : list Z) (body : Z -> S -> option S) (s : S)
  : option S :=
  match l with
  | [] => Some s
  | i :: l' =>
      match body i s with
      | Some s' => forEach l' body s'
      | None => None
      end
  end.

Definition cellSize (params : Params) : R :=
  (volumeRadius params * 2) / IZR (cellsPerAxis params).

Definition cellOrigin (params : Params) (i : Z) : R :=
  - volumeRadius params + IZR i * cellSize params.

(** The eight [cornerPositions[c].set(...)] of one cell. *)
Definition cellCorners (params : Params) (i j k : Z) : list Vec3 :=
  let cellSize := cellSize params in
  let cellOriginX := cellOrigin params i in
  let cellOriginY := cellOrigin params j in
  let cellOriginZ := cellOrigin params k in
  [ vec3 cellOriginX cellOriginY cellOriginZ;
    vec3 (cellOriginX + cellSize) cellOriginY cellOriginZ;
    vec3 (cellOriginX + cellSize) (cellOriginY + cellSize) cellOriginZ;
    vec3 cellOriginX (cellOriginY + cellSize) cellOriginZ;
    vec3 cellOriginX cellOriginY (cellOriginZ + cellSize);
    vec3 (cellOriginX + cellSize) cellOriginY (cellOriginZ + cellSize);
    vec3 (cellOriginX + cellSize) (cellOriginY + cellSize) (cellOriginZ + cellSize);
    vec3 cellOriginX (cellOriginY + cellSize) (cellOriginZ + cellSize) ].

(** [cubeIndex |= (1 << c)] for every corner whose value is below the
    iso level, corners taken in the order 0..7. *)
Definition cubeIndexOf (params : Params) (values : list R) : Z :=
  fold_left
    (fun cubeIndex c =>
       if Rlt_dec (nth c values 0) (isoLevel params)
       then Z.lor cubeIndex (Z.shiftl 1 (Z.of_nat c))
       else cubeIndex)
    (seq 0 8) 0%Z.

(** The twelve guarded assignments, in source order: edge [e] joins the
    corners [fst] and [snd] and is guarded by bit [e] of the mask. *)
Definition edgeCorners : list (nat * nat) :=
  [ (0, 1); (1, 2); (2, 3); (3, 0);
    (4, 5); (5, 6); (6, 7); (7, 4);
    (0, 4); (1, 5); (2, 6); (3, 7) ]%nat.

Definition edgeActive (mask : Z) (e : nat) : bool :=
  negb (Z.eqb (Z.land mask (Z.shiftl 1 (Z.of_nat e))) 0).

Definition interpolateEdge (params : Params) (mask : Z) (s : Scratch)
    (e : nat) (ab : nat * nat) : Scratch :=
  if edgeActive mask e then
    set_edge s e
      (interpolateVertex params s
         (corner_ref (fst ab)) (corner_ref (snd ab))
         (nth (fst ab) (cornerValues s) 0) (nth (snd ab) (cornerValues s) 0))
  else s.

Definition interpolateEdges (params : Params) (mask : Z) (s : Scratch) : Scratch :=
  fold_left (fun s ea => interpolateEdge params mask s (fst ea) (snd ea))
            (combine (seq 0 12) edgeCorners) s.

(** [edgeIntersection[n]] for a table entry [n]: [undefined] outside 0..11. *)
Definition edgeAt (s : Scratch) (n : Z) : option vref :=
  if (0 <=? n)%Z && (n <? 12)%Z then Some (edgeIntersection s (Z.to_nat n))
  else None.

Record Buffers : Type := mkBuffers { vertices : list R; normals : list R }.

Definition push3 (buf : list R) (v : Vec3) : list R :=
  buf ++ [vx v; vy v; vz v].

(** The body of the triangle loop for the triple [a, b, c] found at
    [t, t+1, t+2]; reading a component of [undefined] throws. *)
Definition emitTriangle (params : Params) (spheres : list Sphere)
    (a b c : Z) (st : Scratch * Buffers) : option (Scratch * Buffers) :=
  let '(s, buf) := st in
  match edgeAt s c, edgeAt s b, edgeAt s a with
  | Some v1, Some v2, Some v3 =>
      let vs := push3 (push3 (push3 (vertices buf) (deref s v1)) (deref s v2))
                      (deref s v3) in
      let '(n1, s1) := estimateNormal params spheres s v1 in
      let '(n2, s2) := estimateNormal params spheres s1 v2 in
      let '(n3, s3) := estimateNormal params spheres s2 v3 in
      let ns := push3 (push3 (push3 (normals buf) (deref s3 n1)) (deref s3 n2))
                      (deref s3 n3) in
      Some (s3, mkBuffers vs ns)
  | _, _, _ => None
  end.

(** [for (let t = 0; triTable[cubeIndex][t] !== -1; t += 3)] over the part
    of the row that starts at [t].  Past the end of the row the entry is
    [undefined], which differs from [-1], and the body throws. *)
Fixpoint emitTriangles (params : Params) (spheres : list Sphere)
    (row : list Z) (st : Scratch * Buffers) : option (Scratch * Buffers) :=
  match row with
  | [] => None
  | a :: rest =>
      if Z.eqb a (-1) then Some st
      else
        match rest with
        | b :: c :: rest' =>
            match emitTriangle params spheres a b c st with
            | Some st' => emitTriangles params spheres rest' st'
            | None => None
            end
        | _ => None
        end
  end.

Section MarchingCubes.

(** The case tables of [MarchingCubesTables.js], indexed by the case
    index: the edge mask and the row of edge indices. *)
Variable edgeTable : Z -> Z.
Variable triTable : Z -> list Z.

Definition marchCell (params : Params) (spheres : list Sphere)
    (i j k : Z) (st : Scratch * Buffers) : option (Scratch * Buffers) :=
  let '(s, buf) := st in
  let corners := cellCorners params i j k in
  let values := map (fieldValue params spheres) corners in
  let s := set_corners s corners values in
  let cubeIndex := cubeIndexOf params values in
  if Z.eqb (edgeTable cubeIndex) 0 then Some (s, buf)
  else
    let s := interpolateEdges params (edgeTable cubeIndex) s in
    emitTriangles params spheres (triTable cubeIndex) (s, buf).

(** [updateMesh]: the result is the pair of arrays handed to the geometry,
    with the scratch state the pass leaves behind. *)
Definition updateMesh (params : Params) (spheres : list Sphere)
    (s : Scratch) : option (Scratch * Buffers) :=
  let cells := cellsPerAxis params in
  forEach (range cells)
    (fun i => forEach (range cells)
       (fun j => forEach (range cells)
          (fun k => marchCell params spheres i j k)))
    (s, mkBuffers [] []).

End MarchingCubes.

(** ** Emitter kinematics *)

(** [Math.random()]: the values it is going to return, in order. *)
Definition Rng : Type := nat -> R.

Definition random (g : Rng) : R * Rng := (g 0%nat, fun n => g (S n)).

Definition rng_ok (g : Rng) : Prop := forall n, 0 <= g n < 1.

Definition padding (params : Params) : R :=
  volumeRadius params * (0.3 + smoothK params * 3).

Definition bounds (params : Params) : R :=
  volumeRadius params - padding params.

(** [(Math.random() - 0.5) * bounds * 2], three times, x first. *)
Definition randomPoint (bounds : R) (g : Rng) : Vec3 * Rng :=
  let '(u1, g) := random g in
  let '(u2, g) := random g in
  let '(u3, g) := random g in
  (vec3 ((u1 - 0.5) * bounds * 2) ((u2 - 0.5) * bounds * 2)
        ((u3 - 0.5) * bounds * 2), g).

(** One iteration of the loop of [reseedSpheres]. *)
Definition newSphere (params : Params) (g : Rng) : Sphere * Rng :=
  let '(u, g) := random g in
  let radius := targetRadius params
                + (u - 0.5) * 2 * radiusVariance params * targetRadius params in
  let padding := volumeRadius params * (0.3 + smoothK params * 3) in
  let '(pos, g) := randomPoint (volumeRadius params - padding) g in
  let '(tgt, g) := randomPoint (volumeRadius params - padding) g in
  let '(u', g) := random g in
  (mkSphere pos tgt radius ((0.5 + u' * 1.0) * speed params), g).

Fixpoint reseedLoop (params : Params) (n : nat) (spheres : list Sphere)
    (g : Rng) : list Sphere * Rng :=
  match n with
  | O => (spheres, g)
  | S n' =>
      let '(sphere, g) := newSphere params g in
      reseedLoop params n' (spheres ++ [sphere]) g
  end.

(** The values the variable [spheres] holds while [reseedSpheres] runs,
    in order: the one before the loop, and the one after each [push]. *)
Fixpoint reseedStates (params : Params) (n : nat) (spheres : list Sphere)
    (g : Rng) : list (list Sphere) :=
  match n with
  | O => [spheres]
  | S n' =>
      let '(sphere, g) := newSphere params g in
      spheres :: reseedStates params n' (spheres ++ [sphere]) g
  end.

(** One iteration of the loop of [updateSpheres]. *)
Definition updateSphere (params : Params) (deltaTime : R)
    (sphere : Sphere) (g : Rng) : Sphere * Rng :=
  let bounds := bounds params in
  let direction := Vector3.subVectors (target sphere) (position sphere) in
  let distance := Vector3.length direction in
  if Rlt_dec distance 0.001 then
    let '(tgt, g) := randomPoint bounds g in
    (mkSphere (position sphere) tgt (radius sphere) (sphere_speed sphere), g)
  else
    let moveStep := sphere_speed sphere * deltaTime in
    if Rge_dec moveStep distance then
      let '(tgt, g) := randomPoint bounds g in
      (mkSphere (target sphere) tgt (radius sphere) (sphere_speed sphere), g)
    else
      (mkSphere
         (Vector3.add (position sphere)
            (Vector3.multiplyScalar (Vector3.normalize direction) moveStep))
         (target sphere) (radius sphere) (sphere_speed sphere), g).

Fixpoint updateLoop (params : Params) (deltaTime : R)
    (spheres : list Sphere) (g : Rng) : list Sphere * Rng :=
  match spheres with
  | [] => ([], g)
  | sphere :: rest =>
      let '(sphere', g) := updateSphere params deltaTime sphere g in
      let '(rest', g) := updateLoop params deltaTime rest g in
      (sphere' :: rest', g)
  end.

(** ** The program state and a frame *)

Record World : Type := mkWorld {
  spheres : list Sphere;
  rng : Rng;
  scratch : Scratch;
  geometry : Buffers      (* the position and normal attributes of the mesh *)
}.

Definition reseedSpheres (params : Params) (count : Z) (w : World) : World :=
  let '(ss, g) := reseedLoop params (Z.to_nat count) [] (rng w) in
  mkWorld ss g (scratch w) (geometry w).

Definition updateSpheres (params : Params) (deltaTime : R) (w : World) : World :=
  let '(ss, g) := updateLoop params deltaTime (spheres w) (rng w) in
  mkWorld ss g (scratch w) (geometry w).

Section Frame.

Variable edgeTable : Z -> Z.
Variable triTable : Z -> list Z.

(** [updateMesh()] on the world: the new arrays replace the attributes. *)
Definition updateMeshW (params : Params) (w : World) : option World :=
  match updateMesh edgeTable triTable params (spheres w) (scratch w) with
  | Some (s, buf) => Some (mkWorld (spheres w) (rng w) s buf)
  | None => None
  end.

(** The simulation part of [animate]: [updateSpheres(deltaTime)] and then
    [updateMesh()]. *)
Definition tick (params : Params) (deltaTime : R) (w : World) : option World :=
  updateMeshW params (updateSpheres params deltaTime w).

End Frame.

(** ** The field described in the specification

    The specification starts the fold from the signed distance of the first
    emitter instead of a sentinel. *)
Definition sdf_of (worldPos : Vec3) (sphere : Sphere) : R :=
  sdf_sphere worldPos (position sphere) (radius sphere).

Definition fieldValue_spec (params : Params) (emitter_0 : Sphere)
    (rest : list Sphere) (worldPos : Vec3) : R :=
  fold_left (fun d sphere => smin d (sdf_of worldPos sphere) (smoothK params))
            rest (sdf_of worldPos emitter_0).

(** The least signed distance over a non-empty emitter list. *)
Definition min_sdf (worldPos : Vec3) (emitter_0 : Sphere) (rest : list Sphere) : R :=
  fold_left Rmin (map (sdf_of worldPos) rest) (sdf_of worldPos emitter_0).

(** ** Corner numbering

    A corner of the cell [(i, j, k)] displaced from the cell origin by
    [cellSize] times an offset vector of zeros and ones. *)
Definition cornerAt (params : Params) (i j k : Z) (offset : Vec3) : Vec3 :=
  vec3 (cellOrigin params i + cellSize params * vx offset)
       (cellOrigin params j + cellSize params * vy offset)
       (cellOrigin params k + cellSize params * vz offset).

Definition bitR (b : bool) : R := if b then 1 else 0.

Definition cbit (c n : nat) : bool := Z.testbit (Z.of_nat c) (Z.of_nat n).

(** The offset read bit by bit: x from bit 0, y from bit 1, z from bit 2. *)
Definition bitOffset (c : nat) : Vec3 :=
  vec3 (bitR (cbit c 0)) (bitR (cbit c 1)) (bitR (cbit c 2)).

(** The offset of the corner numbering the cell code uses: corners 0..3
    go round the face z = 0 and 4..7 round the face z = 1, so x is set when
    exactly one of bit 0 and bit 1 is. *)
Definition woundOffset (c : nat) : Vec3 :=
  vec3 (bitR (xorb (cbit c 0) (cbit c 1))) (bitR (cbit c 1)) (bitR (cbit c 2)).

(** The [params] object as the source initialises it. *)
Definition defaultParams : Params :=
  mkParams 10 0.075 0.15 0.0125 0.125 40 0.175 0.0.

(** ** The kinematics described in the specification *)

(** A closed interval [[lo, hi]] and the cube [[-b, b]^3]. *)
Definition between (lo hi x : R) : Prop := lo <= x <= hi.

Definition in_cube (b : R) (v : Vec3) : Prop :=
  between (- b) b (vx v) /\ between (- b) b (vy v) /\ between (- b) b (vz v).

(** A point resampled from three draws [u1, u2, u3] of the uniform
    generator on [[0, 1)]: each coordinate is the draw mapped affinely onto
    the interval between [-bounds] and [bounds]. *)
Definition resampleOf (b u1 u2 u3 : R) : Vec3 :=
  vec3 ((u1 - 0.5) * b * 2) ((u2 - 0.5) * b * 2) ((u3 - 0.5) * b * 2).

Definition unit_draw (u : R) : Prop := 0 <= u < 1.

(** The generator once [n] more numbers have been drawn from it. *)
Definition after_draws (n : nat) (g : Rng) : Rng := fun i => g (n + i)%nat.

(** [t] is resampled from the generator [g]: it is the image of the next
    three numbers [g] returns, x first, each of them a draw from [[0, 1)];
    so no coordinate exceeds [bounds] in absolute value, and [t] lies in
    the cube when [bounds] is not negative. *)
Definition resampled (params : Params) (g : Rng) (t : Vec3) : Prop :=
  t = resampleOf (bounds params) (g 0%nat) (g 1%nat) (g 2%nat) /\
  unit_draw (g 0%nat) /\ unit_draw (g 1%nat) /\ unit_draw (g 2%nat) /\
  Rabs (vx t) <= Rabs (bounds params) /\
  Rabs (vy t) <= Rabs (bounds params) /\
  Rabs (vz t) <= Rabs (bounds params) /\
  (0 <= bounds params -> in_cube (bounds params) t).

(** [v] divided by its length. *)
Definition unit_vector (v : Vec3) : Vec3 :=
  Vector3.multiplyScalar v (1 / Vector3.length v).

(** One advance tick of one emitter, in the words of the specification:
    [e] with the generator [g] becomes [e'] and leaves the generator [g'].
    A resampled target uses up the next three numbers of the generator; a
    plain move uses none. *)
Definition advanced (params : Params) (dt : R)
    (e : Sphere) (g : Rng) (e' : Sphere) (g' : Rng) : Prop :=
  let toTarget := Vector3.subVectors (target e) (position e) in
  let dist := Vector3.length toTarget in
  let step := sphere_speed e * dt in
  radius e' = radius e /\ sphere_speed e' = sphere_speed e /\
  ( (dist < 0.001 /\
     position e' = position e /\ resampled params g (target e') /\
     g' = after_draws 3 g)
    \/
    (~ dist < 0.001 /\ step >= dist /\
     position e' = target e /\ resampled params g (target e') /\
     g' = after_draws 3 g)
    \/
    (~ dist < 0.001 /\ ~ step >= dist /\
     position e' = Vector3.add (position e)
                     (Vector3.multiplyScalar (unit_vector toTarget) step) /\
     target e' = target e /\ g' = g) )
  /\ (sphere_speed e = 0 \/ dt = 0 -> position e' = position e).

(** One advance tick of every emitter, in the order of the list: each
    emitter starts from the generator the one before it has left. *)
Inductive advancedAll (params : Params) (dt : R) :
    list Sphere -> Rng -> list Sphere -> Rng -> Prop :=
| advancedAll_nil (g : Rng) : advancedAll params dt [] g [] g
| advancedAll_cons (e e' : Sphere) (es es' : list Sphere) (g g1 g2 : Rng) :
    advanced params dt e g e' g1 ->
    advancedAll params dt es g1 es' g2 ->
    advancedAll params dt (e :: es) g (e' :: es') g2.

(** The interval between the end points [a] and [b]. *)
Definition spanned (a b x : R) : Prop := Rmin a b <= x <= Rmax a b.

(** What a freshly seeded emitter satisfies. *)
Definition seeded (params : Params) (e : Sphere) : Prop :=
  in_cube (bounds params) (position e) /\
  in_cube (bounds params) (target e) /\
  spanned (targetRadius params * (1 - radiusVariance params))
          (targetRadius params * (1 + radiusVariance params)) (radius e) /\
  spanned (0.5 * speed params) (1.5 * speed params) (sphere_speed e).

(** An emitter set in which no emitter of an earlier set is mixed with
    the emitters of [fresh]: the first so many of [fresh], in order. *)
Definition unmixed (fresh : list Sphere) (st : list Sphere) : Prop :=
  exists k : nat, st = firstn k fresh.

(** A generator that keeps returning [u]. *)
Definition constRng (u : R) : Rng := fun _ => u.

Definition initWorld (g : Rng) : World :=
  mkWorld [] g initScratch (mkBuffers [] []).

(** ** The case tables

    Modelled from the spec: [MarchingCubesTables.js] is not among the
    sources, so [updateMesh] takes the two tables as parameters.  What the
    proofs need of them is stated here: the rows are well formed for their
    masks, and the cases with all corners on one side have an empty mask. *)

(** A table entry names an edge whose bit is set in the mask. *)
Definition activeEntry (mask n : Z) : bool :=
  (0 <=? n)%Z && (n <? 12)%Z && edgeActive mask (Z.to_nat n).

(** A row is a sequence of triples of active edges closed by [-1]. *)
Fixpoint row_wf (mask : Z) (row : list Z) : bool :=
  match row with
  | [] => false
  | a :: rest =>
      if Z.eqb a (-1) then true
      else
        match rest with
        | b :: c :: rest' =>
            activeEntry mask a && activeEntry mask b && activeEntry mask c
            && row_wf mask rest'
        | _ => false
        end
  end.

Definition tables_wf (edgeTable : Z -> Z) (triTable : Z -> list Z) : Prop :=
  forall c, (0 <= c < 256)%Z -> row_wf (edgeTable c) (triTable c) = true.

(** Cases 0 and 255, all corners outside or all inside, cut no edge. *)
Definition uniform_cases_empty (edgeTable : Z -> Z) : Prop :=
  edgeTable 0%Z = 0%Z /\ edgeTable 255%Z = 0%Z.

(** Modelled from the spec: [edgeTable] of [MarchingCubesTables.js] is
    missing; this is the edge mask of the canonical marching-cubes tables,
    where bit [e] is set exactly when the two corners of edge [e] are on
    different sides of the surface (case 1, corner 0 inside, gives [0x109]). *)
Definition canonicalEdgeTable (cubeIndex : Z) : Z :=
  fold_left
    (fun mask ea =>
       let '(e, (a, b)) := ea in
       if xorb (Z.testbit cubeIndex (Z.of_nat a)) (Z.testbit cubeIndex (Z.of_nat b))
       then Z.lor mask (Z.shiftl 1 (Z.of_nat e))
       else mask)
    (combine (seq 0 12) edgeCorners) 0%Z.

(** A sixteen-entry row holding one triangle. *)
Definition oneTriangleRow (a b c : Z) : list Z := [a; b; c] ++ repeat (-1)%Z 13.

(** Modelled from the spec: [triTable] of [MarchingCubesTables.js] is
    missing; these are the rows of the canonical triangle table for the eight
    cases with exactly one corner inside.  Every other case is given the
    empty row, so this table stands for the canonical one only on grids whose
    cells have at most one corner inside. *)
Definition singleCornerTriTable (cubeIndex : Z) : list Z :=
  match cubeIndex with
  | 1 => oneTriangleRow 0 8 3
  | 2 => oneTriangleRow 0 1 9
  | 4 => oneTriangleRow 1 2 10
  | 8 => oneTriangleRow 3 11 2
  | 16 => oneTriangleRow 4 7 8
  | 32 => oneTriangleRow 9 5 4
  | 64 => oneTriangleRow 10 6 5
  | 128 => oneTriangleRow 7 6 11
  | _ => repeat (-1) 16
  end%Z.

(** The default parameters on a grid with no cells. *)
Definition noCellParams : Params :=
  mkParams 10 0.075 0.15 0.0125 0.125 0 0.175 0.0.

(** An emitter resting at the centre of the volume. *)
Definition centreSphere (radius : R) : Sphere :=
  mkSphere zero3 zero3 radius 0.15.

(** ** Auxiliary notions for the pass *)

(** The point the guarded assignment of edge [e] stores, read from the
    corners the scratch state holds. *)
Definition edgePoint (params : Params) (s : Scratch) (ab : nat * nat) : vref :=
  interpolateVertex params s
    (corner_ref (fst ab)) (corner_ref (snd ab))
    (nth (fst ab) (cornerValues s) 0) (nth (snd ab) (cornerValues s) 0).

(** Two scratch states that hold the same corners and the same objects, none
    of them [normal_h], in the edge slots a mask activates. *)
Definition edges_agree (mask : Z) (s1 s2 : Scratch) : Prop :=
  cornerPositions s1 = cornerPositions s2 /\
  forall e, (e < 12)%nat -> edgeActive mask e = true ->
            edgeIntersection s1 e = edgeIntersection s2 e /\
            edgeIntersection s1 e <> normal_h_ref.

(** Two emitters with the same sphere. *)
Definition same_body (a b : Sphere) : Prop :=
  position a = position b /\ radius a = radius b.

(** ** Normals of a triangle *)

(** One normal written for each of the three vertices of a triangle. *)
Definition tripled (n : Vec3) : list R :=
  [vx n; vy n; vz n; vx n; vy n; vz n; vx n; vy n; vz n].

(** A normal array in which every triangle carries one normal thrice. *)
Definition normals_tripled (ns : list R) : Prop :=
  exists l : list Vec3, ns = flat_map tripled l.

(** The normal the estimator computes at a point. *)
Definition normalAt (params : Params) (ss : list Sphere) (q : Vec3) : Vec3 :=
  Vector3.normalize (gradient params ss q).

(** A triangle of the mesh, by its three vertices in array order. *)
Record Triangle : Type := mkTriangle { tv1 : Vec3; tv2 : Vec3; tv3 : Vec3 }.

Definition triangleCoords (t : Triangle) : list R :=
  [ vx (tv1 t); vy (tv1 t); vz (tv1 t);
    vx (tv2 t); vy (tv2 t); vz (tv2 t);
    vx (tv3 t); vy (tv3 t); vz (tv3 t) ].

(** The nine numbers the pass writes into the normal array for a triangle:
    the normal at the third vertex, three times. *)
Definition thirdVertexNormals (params : Params) (ss : list Sphere)
    (t : Triangle) : list R :=
  tripled (normalAt params ss (tv3 t)).

(** The arrays of a list of triangles, as the pass writes them. *)
Definition meshOf (params : Params) (ss : list Sphere) (tris : list Triangle)
  : Buffers :=
  mkBuffers (flat_map triangleCoords tris)
            (flat_map (thirdVertexNormals params ss) tris).

Definition norm3 (x y z : R) : R := sqrt (x * x + y * y + z * z).

(** The default parameters changed to one emitter of target radius 0.5 on
    a grid of 2 x 2 x 2 cells over [[-1, 1]^3]. *)
Definition coarseParams : Params :=
  mkParams 1 0.075 0.15 0.5 0.125 2 1 0.0.

(** The triangle the cell at the centre of the coarse grid emits. *)
Definition centreTriangle : Triangle :=
  mkTriangle (vec3 0 0.5 0) (vec3 0 0 0.5) (vec3 0.5 0 0).

(** The corners of the cell [(1, 1, 1)] of the coarse grid, whose origin
    is the centre, and the field of a sphere of radius 0.5 there. *)
Definition centreCorners : list Vec3 :=
  [ vec3 0 0 0; vec3 1 0 0; vec3 1 1 0; vec3 0 1 0;
    vec3 0 0 1; vec3 1 0 1; vec3 1 1 1; vec3 0 1 1 ].

Definition centreValues : list R :=
  [ -0.5; 0.5; norm3 1 1 0 - 0.5; 0.5; 0.5;
    norm3 1 0 1 - 0.5; norm3 1 1 1 - 0.5; norm3 0 1 1 - 0.5 ].

(** ** Example inputs *)

(** A call that throws is rejected. *)
Definition rejected {A : Type} (result : option A) : Prop := result = None.

(** One emitter resting on its target at the centre, and a generator that
    keeps returning 0.5. *)
Definition exampleWorld : World :=
  mkWorld [centreSphere 0.0125] (constRng 0.5) initScratch (mkBuffers [] []).

(** A generator whose numbers all differ: 1/2, 1/3, 1/4, ... *)
Definition harmonicRng : Rng := fun n => / (INR n + 2).

(** Three emitters: one resting on its target, one on its way, and one
    that reaches its target within a frame of 0.016 s. *)
Definition travellers : World :=
  mkWorld [ mkSphere zero3 zero3 0.0125 0.15;
            mkSphere zero3 (vec3 0.05 0 0) 0.0125 0.15;
            mkSphere zero3 (vec3 0.001 0 0) 0.0125 0.15 ]
          harmonicRng initScratch (mkBuffers [] []).

(** ** Number of triangles of a row

    The triples a row holds before the first [-1] found at a triple
    boundary; none when the row ends before such a [-1]. *)
Fixpoint triangleCount (row : list Z) : option nat :=
  match row with
  | [] => None
  | a :: rest =>
      if Z.eqb a (-1) then Some 0%nat
      else
        match rest with
        | _ :: _ :: rest' => option_map S (triangleCount rest')
        | _ => None
        end
  end.

(** An edge mask that activates an edge only when its two corners are
    classified differently by the case index. *)
Definition edges_cut (edgeTable : Z -> Z) : Prop :=
  forall c e, (0 <= c < 256)%Z -> (e < 12)%nat ->
    edgeActive (edgeTable c) e = true ->
    xorb (Z.testbit c (Z.of_nat (fst (nth e edgeCorners (0, 0)%nat))))
         (Z.testbit c (Z.of_nat (snd (nth e edgeCorners (0, 0)%nat)))) = true.

(** ** The slider panel ([setupUI]) and the frame loop

    The seven sliders of the [controls] array with the value the [input]
    listener hands to [onchange]: [parseInt] of the slider value for the
    integer sliders, [parseFloat] of it for the others. *)

Record Material : Type := mkMaterial {
  roughness : R;
  ior : R;
  specularIntensity : R
}.

Record App : Type := mkApp {
  app_params : Params;
  app_world : World;
  app_material : Material;
  app_fov : R                 (* camera.fov *)
}.

Inductive Slider : Type :=
| Spheres (val : Z)
| SmoothK (val : R)
| Speed (val : R)
| MaterialRoughness (val : R)
| IndexOfRefraction (val : R)
| Specular (val : R)
| Zoom (val : Z).

Definition set_sphereCount (p : Params) (val : Z) : Params :=
  mkParams val (smoothK p) (speed p) (targetRadius p) (radiusVariance p)
           (cellsPerAxis p) (volumeRadius p) (isoLevel p).

Definition set_smoothK (p : Params) (val : R) : Params :=
  mkParams (sphereCount p) val (speed p) (targetRadius p) (radiusVariance p)
           (cellsPerAxis p) (volumeRadius p) (isoLevel p).

Definition set_speed (p : Params) (val : R) : Params :=
  mkParams (sphereCount p) (smoothK p) val (targetRadius p) (radiusVariance p)
           (cellsPerAxis p) (volumeRadius p) (isoLevel p).

(** The [onchange] handlers, in the order of the [controls] array. *)
Definition onchange (c : Slider) (a : App) : App :=
  match c with
  | Spheres val =>
      let p := set_sphereCount (app_params a) val in
      mkApp p (reseedSpheres p val (app_world a)) (app_material a) (app_fov a)
  | SmoothK val =>
      mkApp (set_smoothK (app_params a) val) (app_world a)
            (app_material a) (app_fov a)
  | Speed val =>
      let p := set_speed (app_params a) val in
      mkApp p (reseedSpheres p (sphereCount p) (app_world a))
            (app_material a) (app_fov a)
  | MaterialRoughness val =>
      mkApp (app_params a) (app_world a)
            (mkMaterial val (ior (app_material a))
                        (specularIntensity (app_material a)))
            (app_fov a)
  | IndexOfRefraction val =>
      mkApp (app_params a) (app_world a)
            (mkMaterial (roughness (app_material a)) val
                        (specularIntensity (app_material a)))
            (app_fov a)
  | Specular val =>
      mkApp (app_params a) (app_world a)
            (mkMaterial (roughness (app_material a)) (ior (app_material a)) val)
            (app_fov a)
  | Zoom val =>
      mkApp (app_params a) (app_world a) (app_material a) (IZR val)
  end.

(** What happens to the program between two renderings: a slider is moved,
    or a frame passes. *)
Inductive AppEvent : Type :=
| slide (c : Slider)
| frame (deltaTime : R).

Section AppRun.

Variable edgeTable : Z -> Z.
Variable triTable : Z -> list Z.

Definition appStep (ev : AppEvent) (a : App) : option App :=
  match ev with
  | slide c => Some (onchange c a)
  | frame deltaTime =>
      match tick edgeTable triTable (app_params a) deltaTime (app_world a) with
      | Some w => Some (mkApp (app_params a) w (app_material a) (app_fov a))
      | None => None
      end
  end.

Fixpoint appRun (evs : list AppEvent) (a : App) : option App :=
  match evs with
  | [] => Some a
  | ev :: evs' =>
      match appStep ev a with
      | Some a' => appRun evs' a'
      | None => None
      end
  end.

End AppRun.

(** The state [init] leaves behind: the default parameters, the emitters
    of [reseedSpheres(params.sphereCount)], the material built from the
    default roughness, index of refraction and specular intensity, and a
    field of view of 75 degrees. *)
Definition initApp (g : Rng) : App :=
  mkApp defaultParams
        (reseedSpheres defaultParams (sphereCount defaultParams) (initWorld g))
        (mkMaterial 0.400 1.700 0.530) 75.

(** The emitter set matches the parameters it was seeded with. *)
Definition speed_in_range (p : Params) (e : Sphere) : Prop :=
  between (0.5 * speed p) (1.5 * speed p) (sphere_speed e).

Definition radius_in_range (p : Params) (e : Sphere) : Prop :=
  between (targetRadius p * (1 - radiusVariance p))
          (targetRadius p * (1 + radiusVariance p)) (radius e).

Definition app_inv (a : App) : Prop :=
  let p := app_params a in
  let w := app_world a in
  Z.of_nat (length (spheres w)) = sphereCount p /\
  Forall (speed_in_range p) (spheres w) /\
  Forall (radius_in_range p) (spheres w) /\
  rng_ok (rng w) /\
  0 <= speed p /\
  0 <= targetRadius p * radiusVariance p.

(** Slider values the panel can produce: a count and a speed of 0 or more. *)
Definition valid_event (ev : AppEvent) : Prop :=
  match ev with
  | slide (Spheres val) => (0 <= val)%Z
  | slide (Speed val) => 0 <= val
  | _ => True
  end.

(** An emitter inside the padded cube, heading for a point inside it. *)
Definition wandering (b : R) (e : Sphere) : Prop :=
  0 <= sphere_speed e /\ in_cube b (position e) /\ in_cube b (target e).

(** ** The virtual joysticks ([setupJoystick]) *)

Record Vec2 : Type := vec2 { v2x : R; v2y : R }.

(** [Vector2.lengthSq]. *)
Definition lengthSq2 (a : Vec2) : R := v2x a * v2x a + v2y a * v2y a.

(** A pointer event, with the bounding rectangle of the joystick container
    that [getBoundingClientRect] reports while the event is handled. *)
Record PointerEvent : Type := mkPointerEvent {
  pointerId : Z;
  clientX : R;
  clientY : R;
  rectLeft : R;
  rectTop : R
}.

(** The state one call of [setupJoystick] closes over: half the width of the
    container, the two local variables, the translation of the handle and the
    vector the joystick writes to. *)
Record Joystick : Type := mkJoystick {
  joy_radius : R;
  isDragging : bool;
  joy_pointerId : option Z;
  handleTranslate : R * R;
  outputVector : Vec2
}.

Definition updateJoystick (j : Joystick) (event : PointerEvent) : Joystick :=
  let radius := joy_radius j in
  let centerX := rectLeft event + radius in
  let centerY := rectTop event + radius in
  let dx := clientX event - centerX in
  let dy := clientY event - centerY in
  let distance := sqrt (dx * dx + dy * dy) in
  let '(dx, dy) :=
    if Rgt_dec distance radius
    then ((dx / distance) * radius, (dy / distance) * radius)
    else (dx, dy) in
  mkJoystick radius (isDragging j) (joy_pointerId j) (dx, dy)
             (vec2 (dx / radius) (dy / radius)).

(** [event.pointerId === pointerId]. *)
Definition samePointer (captured : option Z) (id : Z) : bool :=
  match captured with
  | Some p => Z.eqb id p
  | None => false
  end.

Definition onPointerDown (j : Joystick) (event : PointerEvent) : Joystick :=
  if isDragging j then j
  else
    updateJoystick
      (mkJoystick (joy_radius j) true (Some (pointerId event))
                  (handleTranslate j) (outputVector j))
      event.

Definition onPointerMove (j : Joystick) (event : PointerEvent) : Joystick :=
  if isDragging j && samePointer (joy_pointerId j) (pointerId event)
  then updateJoystick j event
  else j.

Definition onPointerUp (j : Joystick) (event : PointerEvent) : Joystick :=
  if isDragging j && samePointer (joy_pointerId j) (pointerId event)
  then mkJoystick (joy_radius j) false None (0, 0) (vec2 0 0)
  else j.

(** The four listeners the container gets; [pointercancel] shares the
    handler of [pointerup]. *)
Inductive JoystickEvent : Type :=
| pointerdown (event : PointerEvent)
| pointermove (event : PointerEvent)
| pointerup (event : PointerEvent)
| pointercancel (event : PointerEvent).

Definition eventOf (ev : JoystickEvent) : PointerEvent :=
  match ev with
  | pointerdown e | pointermove e | pointerup e | pointercancel e => e
  end.

Definition joystickStep (j : Joystick) (ev : JoystickEvent) : Joystick :=
  match ev with
  | pointerdown e => onPointerDown j e
  | pointermove e => onPointerMove j e
  | pointerup e => onPointerUp j e
  | pointercancel e => onPointerUp j e
  end.

Definition joystickRun (evs : list JoystickEvent) (j : Joystick) : Joystick :=
  fold_left joystickStep evs j.

(** A joystick as [setupJoystick] leaves it: at rest, its vector (0, 0). *)
Definition initJoystick (radius : R) : Joystick :=
  mkJoystick radius false None (0, 0) (vec2 0 0).

Definition joystick_inv (radius : R) (j : Joystick) : Prop :=
  joy_radius j = radius /\
  (isDragging j = false <-> joy_pointerId j = None) /\
  (isDragging j = false ->
   outputVector j = vec2 0 0 /\ handleTranslate j = (0, 0)) /\
  lengthSq2 (outputVector j) <= 1.

(** ** Camera translation by the left joystick ([animate]) *)

(** [a.crossVectors(b, c)] stores the cross product of [b] and [c]. *)
Definition crossVectors (a b : Vec3) : Vec3 :=
  vec3 (vy a * vz b - vz a * vy b)
       (vz a * vx b - vx a * vz b)
       (vx a * vy b - vy a * vx b).

(** The camera position and up vector, the direction
    [camera.getWorldDirection] reports, and the target of the orbit
    controls. *)
Record Rig : Type := mkRig {
  cameraPosition : Vec3;
  cameraUp : Vec3;
  cameraDirection : Vec3;
  controlsTarget : Vec3
}.

(** Step 2 of [animate]: move camera and target together. *)
Definition moveCamera (moveVector : Vec2) (deltaTime : R) (r : Rig) : Rig :=
  if Rgt_dec (lengthSq2 moveVector) 0.0001 then
    let moveSpeed := 0.3 in
    let cameraForward := cameraDirection r in
    let forwardOnPlane :=
      Vector3.normalize (vec3 (vx cameraForward) 0 (vz cameraForward)) in
    let cameraRight :=
      Vector3.normalize (crossVectors (cameraUp r) cameraForward) in
    let moveY := Vector3.multiplyScalar forwardOnPlane (- v2y moveVector) in
    let moveX := Vector3.multiplyScalar cameraRight (v2x moveVector) in
    let moveDirection := Vector3.normalize (Vector3.add moveX moveY) in
    let moveDelta := Vector3.multiplyScalar moveDirection (moveSpeed * deltaTime) in
    mkRig (Vector3.add (cameraPosition r) moveDelta) (cameraUp r)
          (cameraDirection r) (Vector3.add (controlsTarget r) moveDelta)
  else r.

(** * Proof steps shared by the sections below *)

(** Case analysis on every comparison of reals the goal branches on. *)
Ltac case_guards :=
  repeat match goal with
         | |- context [Rlt_dec ?a ?b] => destruct (Rlt_dec a b)
         end.

(** * Properties of the field model *)

Section FieldModel.

Lemma smin_blend_factor (a b k : R) :
  0 < k ->
  let h := Rmax 0 (Rmin 1 (0.5 + 0.5 * (b - a) / k)) in
  (b - a <= - k /\ h = 0) \/
  (k <= b - a /\ h = 1) \/
  (- k < b - a < k /\ b - a = k * (2 * h - 1) /\ 0 < h < 1).
Proof.
  intros Hk h. subst h.
  set (d := (b - a) / k).
  assert (Hd : d * k = b - a) by (unfold d; field; lra).
  replace (0.5 * (b - a) / k) with (0.5 * d) by (unfold d, Rdiv; ring).
  destruct (Rle_dec d (-1)) as [Hlo | Hlo].
  - left. split; [nra |].
    rewrite Rmin_right by lra. rewrite Rmax_left by lra. reflexivity.
  - destruct (Rle_dec 1 d) as [Hhi | Hhi].
    + right; left. split; [nra |].
      rewrite Rmin_left by lra. rewrite Rmax_right by lra. reflexivity.
    + right; right. split; [nra |].
      rewrite Rmin_right by lra. rewrite Rmax_right by lra.
      split; [| lra].
      replace (2 * (0.5 + 0.5 * d) - 1) with d by lra. lra.
Qed.

(** The smooth minimum never exceeds either argument. *)
Lemma smin_le_both (a b k : R) :
  0 < k -> smin a b k <= a /\ smin a b k <= b.
Proof.
  intros Hk. unfold smin.
  destruct (smin_blend_factor a b k Hk) as [[Hd Hh] | [[Hd Hh] | [Hd [Hh Hr]]]];
    cbv zeta in Hh.
  - rewrite Hh. lra.
  - rewrite Hh. lra.
  - set (h := Rmax 0 (Rmin 1 (0.5 + 0.5 * (b - a) / k))) in *.
    assert (Hb : b - a = k * (2 * h - 1)) by exact Hh.
    replace (a * h + b * (1 - h) - k * h * (1 - h))
      with (a - k * (1 - h) * (1 - h)) by (replace b with (a + k * (2 * h - 1)) by lra; ring).
    assert (0 <= k * (1 - h) * (1 - h)) by nra.
    assert (0 <= k * h * h) by nra.
    split; [lra |].
    replace b with (a + k * (2 * h - 1)) by lra. nra.
Qed.

Lemma smin_le_min (a b k : R) : 0 < k -> smin a b k <= Rmin a b.
Proof.
  intros Hk. destruct (smin_le_both a b k Hk).
  apply Rmin_glb; assumption.
Qed.

(** Folding from the sentinel: the first emitter replaces it. *)
Lemma smin_sentinel (d k : R) : 0 < k -> d <= 1e9 - k -> smin 1e9 d k = d.
Proof.
  intros Hk Hd. unfold smin.
  destruct (smin_blend_factor 1e9 d k Hk) as [[_ Hh] | [[Hc _] | [Hc _]]];
    cbv zeta in *; [rewrite Hh; lra | lra | lra].
Qed.

Lemma fieldValue_cons (params : Params) (e : Sphere) (rest : list Sphere)
    (pos : Vec3) :
  fieldValue params (e :: rest) pos =
  fold_left (fun d sphere => smin d (sdf_of pos sphere) (smoothK params))
            rest (smin 1e9 (sdf_of pos e) (smoothK params)).
Proof. reflexivity. Qed.

(** A fold of [smin] stays below its seed and below every folded value. *)
Lemma smin_fold_le (k : R) (ds : list R) :
  0 < k ->
  forall d0,
    fold_left (fun d di => smin d di k) ds d0 <= fold_left Rmin ds d0.
Proof.
  intros Hk. induction ds as [| di ds IH]; intros d0; simpl.
  - lra.
  - eapply Rle_trans; [apply IH |].
    assert (Hmono : forall u v, u <= v -> fold_left Rmin ds u <= fold_left Rmin ds v).
    { clear. induction ds as [| x ds IH]; intros u v Huv; simpl; [assumption |].
      apply IH. apply Rle_min_compat_r. assumption. }
    apply Hmono. apply smin_le_min. assumption.
Qed.

Lemma fold_smin_map (k : R) (pos : Vec3) (ss : list Sphere) (d0 : R) :
  fold_left (fun d sphere => smin d (sdf_of pos sphere) k) ss d0 =
  fold_left (fun d di => smin d di k) (map (sdf_of pos) ss) d0.
Proof.
  revert d0. induction ss as [| s ss IH]; intros d0; simpl; [reflexivity | apply IH].
Qed.

Lemma fold_Rmin_le_seed (ds : list R) (d0 : R) : fold_left Rmin ds d0 <= d0.
Proof.
  revert d0. induction ds as [| x ds IH]; intros d0; simpl; [lra |].
  eapply Rle_trans; [apply IH | apply Rmin_l].
Qed.

Lemma fold_Rmin_mono (ds : list R) (u v : R) :
  u <= v -> fold_left Rmin ds u <= fold_left Rmin ds v.
Proof.
  revert u v. induction ds as [| x ds IH]; intros u v Huv; simpl; [assumption |].
  apply IH. apply Rle_min_compat_r. assumption.
Qed.

(** C4: with [k > 0] and every signed distance at most [1e9 - k], the
    fold of [fieldValue], seeded with the sentinel [1e9], computes the fold
    of the specification, seeded with the first emitter's signed
    distance. *)
Theorem fieldValue_refines_spec (params : Params) (emitter_0 : Sphere)
    (rest : list Sphere) (pos : Vec3) :
  0 < smoothK params ->
  Forall (fun sphere => sdf_of pos sphere <= 1e9 - smoothK params)
         (emitter_0 :: rest) ->
  fieldValue params (emitter_0 :: rest) pos
  = fieldValue_spec params emitter_0 rest pos.
Proof.
  intros Hk Hall. rewrite fieldValue_cons. unfold fieldValue_spec.
  rewrite smin_sentinel; [reflexivity | assumption |].
  inversion Hall; assumption.
Qed.

(** C5: for [k > 0] the field never exceeds the least signed distance of
    a non-empty emitter list (so it is below the signed distance of every
    emitter), and [smin a b k <= min a b] for all [a], [b] and [k > 0].
    The bound [1e9 - k] on the signed distances is not needed for this. *)
Theorem fieldValue_le_min_sdf (params : Params) (emitter_0 : Sphere)
    (rest : list Sphere) (pos : Vec3) :
  0 < smoothK params ->
  fieldValue params (emitter_0 :: rest) pos <= min_sdf pos emitter_0 rest
  /\ Forall (fun sphere =>
               fieldValue params (emitter_0 :: rest) pos <= sdf_of pos sphere)
            (emitter_0 :: rest)
  /\ (forall a b k : R, 0 < k -> smin a b k <= Rmin a b).
Proof.
  intros Hk.
  assert (Hmin : fieldValue params (emitter_0 :: rest) pos
                 <= min_sdf pos emitter_0 rest).
  { rewrite fieldValue_cons, fold_smin_map. unfold min_sdf.
    eapply Rle_trans; [apply smin_fold_le; assumption |].
    apply fold_Rmin_mono.
    destruct (smin_le_both 1e9 (sdf_of pos emitter_0) (smoothK params) Hk).
    assumption. }
  split; [exact Hmin |]. split; [| intros a b k; apply smin_le_min].
  assert (Hbelow : forall ds d0 x, In x (d0 :: ds) -> fold_left Rmin ds d0 <= x).
  { clear. induction ds as [| y ds IH]; intros d0 x Hin; simpl.
    - destruct Hin as [-> | []]. lra.
    - destruct Hin as [-> | [-> | Hin]].
      + eapply Rle_trans; [apply fold_Rmin_le_seed | apply Rmin_l].
      + eapply Rle_trans; [apply fold_Rmin_le_seed | apply Rmin_r].
      + apply IH. right. assumption. }
  apply Forall_forall. intros sphere Hin.
  eapply Rle_trans; [exact Hmin |]. unfold min_sdf.
  apply Hbelow. change (In (sdf_of pos sphere) (map (sdf_of pos) (emitter_0 :: rest))).
  apply in_map. assumption.
Qed.

End FieldModel.

(** * Edge interpolation and corner numbering *)

Section Triangulator.

(** C6: on an edge whose two corner values are equal, [interpolateVertex]
    returns its first point [p1] itself (the same object, not [p2] and not
    a newly interpolated vector): through the first guard when the value is
    within [1e-5] of the iso level, and through the degenerate-edge guard
    otherwise. *)
Theorem interpolateVertex_degenerate (params : Params) (s : Scratch)
    (p1 p2 : vref) (v : R) :
  interpolateVertex params s p1 p2 v v = p1.
Proof.
  unfold interpolateVertex.
  destruct (Rlt_dec (Rabs (isoLevel params - v)) 0.00001) as [Hnear | Hfar];
    [reflexivity |].
  destruct (Rlt_dec (Rabs (v - v)) 0.00001) as [Hdeg | Hdeg]; [reflexivity |].
  exfalso. apply Hdeg.
  replace (v - v) with 0 by ring. rewrite Rabs_R0. lra.
Qed.

Lemma cellCorners_length (params : Params) (i j k : Z) :
  length (cellCorners params i j k) = 8%nat.
Proof. reflexivity. Qed.

(** C3, as the code has it: for every cell and every corner index
    [c < 8], the corner position is the cell origin plus [cellSize] times
    the offset whose x component is bit 0 of [c] exclusive-or bit 1 of [c],
    whose y component is bit 1 and whose z component is bit 2. *)
Theorem cellCorners_wound (params : Params) (i j k : Z) (c : nat) :
  (c < 8)%nat ->
  nth c (cellCorners params i j k) zero3 = cornerAt params i j k (woundOffset c).
Proof.
  intros Hc.
  do 8 (destruct c as [| c]; [unfold cornerAt; cbn; f_equal; ring |]).
  lia.
Qed.

Lemma cellCorners_wound_witness :
  nth 2 (cellCorners defaultParams 3 4 5) zero3
  = cornerAt defaultParams 3 4 5 (woundOffset 2).
Proof. apply cellCorners_wound. lia. Defined.

(** C3 as stated fails: corner 2 of the first cell of the default grid is
    displaced along x, although bit 0 of 2 is clear. *)
Lemma cellCorners_not_bitwise :
  nth 2 (cellCorners defaultParams 0 0 0) zero3
  <> cornerAt defaultParams 0 0 0 (bitOffset 2).
Proof.
  intros H. apply (f_equal vx) in H.
  cbn in H. unfold cellOrigin, cellSize in H. cbn in H. lra.
Qed.

End Triangulator.

(** * Emitter kinematics *)

Section Kinematics.

Lemma rng_ok_tail (g : Rng) : rng_ok g -> rng_ok (snd (random g)).
Proof. intros Hg n. apply (Hg (S n)). Qed.

Lemma scaled_draw_abs (b u : R) :
  unit_draw u -> Rabs ((u - 0.5) * b * 2) <= Rabs b.
Proof.
  intros [Hlo Hhi].
  replace ((u - 0.5) * b * 2) with ((2 * u - 1) * b) by lra.
  rewrite Rabs_mult.
  assert (Hu : Rabs (2 * u - 1) <= 1) by (apply Rabs_le; lra).
  pose proof (Rabs_pos b). nra.
Qed.

Lemma scaled_draw_between (b u : R) :
  0 <= b -> unit_draw u -> between (- b) b ((u - 0.5) * b * 2).
Proof. intros Hb [Hlo Hhi]. unfold between. nra. Qed.

Lemma randomPoint_eq (b : R) (g : Rng) :
  randomPoint b g
  = (resampleOf b (g 0%nat) (g 1%nat) (g 2%nat), fun n => g (S (S (S n)))).
Proof. reflexivity. Qed.

Lemma randomPoint_resampled (params : Params) (g : Rng) :
  rng_ok g -> resampled params g (fst (randomPoint (bounds params) g)).
Proof.
  intros Hg. rewrite randomPoint_eq. cbn [fst].
  split; [reflexivity |].
  split; [apply Hg |]. split; [apply Hg |]. split; [apply Hg |].
  cbn [vx vy vz resampleOf].
  split; [apply scaled_draw_abs; apply Hg |].
  split; [apply scaled_draw_abs; apply Hg |].
  split; [apply scaled_draw_abs; apply Hg |].
  intros Hb. repeat split; cbn [vx vy vz];
    apply scaled_draw_between; solve [assumption | apply Hg].
Qed.

Lemma randomPoint_after (b : R) (g : Rng) :
  snd (randomPoint b g) = after_draws 3 g.
Proof. reflexivity. Qed.

Lemma randomPoint_in_cube (b : R) (g : Rng) :
  0 <= b -> rng_ok g -> in_cube b (fst (randomPoint b g)).
Proof.
  intros Hb Hg. rewrite randomPoint_eq. cbn [fst].
  repeat split; cbn [vx vy vz resampleOf];
    apply scaled_draw_between; try assumption; apply Hg.
Qed.

Lemma randomPoint_rng_ok (b : R) (g : Rng) :
  rng_ok g -> rng_ok (snd (randomPoint b g)).
Proof. intros Hg n. rewrite randomPoint_eq. apply Hg. Qed.

(** Away from the zero vector [normalize] divides by the length. *)
Lemma normalize_unit (v : Vec3) :
  Vector3.length v <> 0 -> Vector3.normalize v = unit_vector v.
Proof.
  intros Hv. unfold Vector3.normalize, unit_vector, Vector3.divideScalar.
  destruct (Req_dec_T (Vector3.length v) 0); [contradiction | reflexivity].
Qed.

Lemma length_nonneg (v : Vec3) : 0 <= Vector3.length v.
Proof. apply sqrt_pos. Qed.

Lemma add_zero_step (a d : Vec3) :
  Vector3.add a (Vector3.multiplyScalar d 0) = a.
Proof.
  destruct a as [ax ay az]. unfold Vector3.add, Vector3.multiplyScalar.
  cbn. f_equal; ring.
Qed.

(** One loop iteration of [updateSpheres] is an advance tick. *)
Lemma updateSphere_advanced (params : Params) (dt : R) (e : Sphere) (g : Rng) :
  rng_ok g ->
  advanced params dt e g (fst (updateSphere params dt e g))
                         (snd (updateSphere params dt e g))
  /\ rng_ok (snd (updateSphere params dt e g)).
Proof.
  intros Hg. unfold advanced, updateSphere. cbv zeta.
  set (toTarget := Vector3.subVectors (target e) (position e)).
  set (dist := Vector3.length toTarget).
  pose proof (randomPoint_resampled params g Hg) as Htgt.
  pose proof (randomPoint_rng_ok (bounds params) g Hg) as Hg'.
  pose proof (randomPoint_after (bounds params) g) as Hafter.
  destruct (Rlt_dec dist 0.001) as [Hnear | Hfar].
  - destruct (randomPoint (bounds params) g) as [tgt g'].
    cbn [fst snd position target radius sphere_speed] in *.
    split; [| assumption].
    split; [reflexivity |]. split; [reflexivity |]. split.
    + left. split; [assumption |]. split; [reflexivity |].
      split; assumption.
    + intros _. reflexivity.
  - destruct (Rge_dec (sphere_speed e * dt) dist) as [Hreach | Hshort].
    + destruct (randomPoint (bounds params) g) as [tgt g'].
      cbn [fst snd position target radius sphere_speed] in *.
      split; [| assumption].
      split; [reflexivity |]. split; [reflexivity |]. split.
      * right; left. split; [assumption |]. split; [assumption |].
        split; [reflexivity |]. split; assumption.
      * intros Hzero. exfalso.
        assert (sphere_speed e * dt = 0) by (destruct Hzero as [-> | ->]; ring).
        lra.
    + cbn [fst snd position target radius sphere_speed].
      assert (Hlen : Vector3.length toTarget <> 0) by (fold dist; lra).
      split; [| assumption].
      split; [reflexivity |]. split; [reflexivity |]. split.
      * right; right. split; [assumption |]. split; [assumption |].
        split; [| split; reflexivity].
        rewrite normalize_unit by assumption. reflexivity.
      * intros Hzero.
        assert (Hstep : sphere_speed e * dt = 0)
          by (destruct Hzero as [-> | ->]; ring).
        rewrite Hstep. apply add_zero_step.
Qed.

Lemma updateLoop_advanced (params : Params) (dt : R) (ss : list Sphere) :
  forall g,
    rng_ok g ->
    advancedAll params dt ss g (fst (updateLoop params dt ss g))
                               (snd (updateLoop params dt ss g))
    /\ rng_ok (snd (updateLoop params dt ss g)).
Proof.
  induction ss as [| e ss IH]; intros g Hg; cbn [updateLoop].
  - split; [constructor | assumption].
  - destruct (updateSphere_advanced params dt e g Hg) as [Hadv Hg1].
    destruct (updateSphere params dt e g) as [e' g1]. cbn [fst snd] in *.
    destruct (IH g1 Hg1) as [Hrest Hg2].
    destruct (updateLoop params dt ss g1) as [ss' g2]. cbn [fst snd] in *.
    split; [econstructor; eassumption | assumption].
Qed.

(** An advance tick of the list keeps its length, and the radius and the
    speed of every emitter. *)
Lemma advancedAll_keeps (params : Params) (dt : R) (ss ss' : list Sphere)
    (g g' : Rng) :
  advancedAll params dt ss g ss' g' ->
  Forall2 (fun e e' => radius e' = radius e /\ sphere_speed e' = sphere_speed e)
          ss ss'.
Proof.
  induction 1 as [| e e' es es' g g1 g2 [Hr [Hs _]] _ IH]; constructor;
    [split |]; assumption.
Qed.

(** C7: [updateSpheres(dt)] advances every emitter by one tick as the
    specification describes it, the emitters taking their random numbers
    from [Math.random()] one after the other.  Within [1e-3] of the target
    the target is resampled and the position is kept; otherwise, when
    [speed * dt] reaches the distance, the position becomes the target and
    the target is resampled; otherwise the position moves by the unit
    vector towards the target times [speed * dt] and no number is drawn.
    A resampled target is the image of the next three numbers of the
    generator, each mapped from [[0, 1)] onto the interval between
    [-bounds] and [bounds], and these three numbers are used up.  With
    speed or [dt] equal to 0 the position is unchanged.  Radius and speed
    are never touched.  This holds for every [dt], negative ones
    included. *)
Theorem updateSpheres_advanced (params : Params) (dt : R) (w : World) :
  rng_ok (rng w) ->
  advancedAll params dt (spheres w) (rng w)
              (spheres (updateSpheres params dt w))
              (rng (updateSpheres params dt w))
  /\ rng_ok (rng (updateSpheres params dt w)).
Proof.
  intros Hg. unfold updateSpheres.
  destruct (updateLoop_advanced params dt (spheres w) (rng w) Hg) as [H1 H2].
  destruct (updateLoop params dt (spheres w) (rng w)) as [ss g].
  cbn [fst snd spheres rng] in *. split; assumption.
Qed.

Lemma spanned_draw (c d t : R) :
  -1 <= t <= 1 -> spanned (c - d) (c + d) (c + t * d).
Proof.
  intros Ht. unfold spanned, Rmin, Rmax.
  destruct (Rle_dec (c - d) (c + d)); nra.
Qed.

Lemma spanned_between (a b x : R) : a <= b -> spanned a b x -> between a b x.
Proof.
  intros Hab [Hlo Hhi]. unfold between.
  rewrite Rmin_left in Hlo by assumption.
  rewrite Rmax_right in Hhi by assumption. split; assumption.
Qed.

Lemma newSphere_seeded (params : Params) (g : Rng) :
  0 < bounds params ->
  rng_ok g ->
  seeded params (fst (newSphere params g)) /\ rng_ok (snd (newSphere params g)).
Proof.
  intros Hb Hg. unfold newSphere.
  change (volumeRadius params * (0.3 + smoothK params * 3)) with (padding params).
  change (volumeRadius params - padding params) with (bounds params).
  cbv zeta. unfold random.
  rewrite !randomPoint_eq. cbn [fst snd].
  split; [| intros n; apply Hg].
  unfold seeded. cbn [position target radius sphere_speed].
  assert (Hcube : forall u1 u2 u3,
             unit_draw u1 -> unit_draw u2 -> unit_draw u3 ->
             in_cube (bounds params) (resampleOf (bounds params) u1 u2 u3)).
  { intros u1 u2 u3 H1 H2 H3.
    repeat split; cbn [vx vy vz resampleOf];
      apply scaled_draw_between; solve [lra | assumption]. }
  split; [apply Hcube; apply Hg |]. split; [apply Hcube; apply Hg |].
  pose proof (Hg 0%nat) as [Hu0 Hu1]. pose proof (Hg 7%nat) as [Hv0 Hv1].
  split.
  - replace (targetRadius params * (1 - radiusVariance params))
      with (targetRadius params - radiusVariance params * targetRadius params)
      by ring.
    replace (targetRadius params * (1 + radiusVariance params))
      with (targetRadius params + radiusVariance params * targetRadius params)
      by ring.
    replace (targetRadius params
             + (g 0%nat - 0.5) * 2 * radiusVariance params * targetRadius params)
      with (targetRadius params
            + (2 * g 0%nat - 1) * (radiusVariance params * targetRadius params))
      by lra.
    apply spanned_draw. lra.
  - replace (0.5 * speed params) with (speed params - 0.5 * speed params) by lra.
    replace (1.5 * speed params) with (speed params + 0.5 * speed params) by lra.
    replace ((0.5 + g 7%nat * 1.0) * speed params)
      with (speed params + (2 * g 7%nat - 1) * (0.5 * speed params)) by lra.
    apply spanned_draw. lra.
Qed.

(** The loop of [reseedSpheres] appends [n] seeded emitters, and every
    value the variable takes on the way is the accumulator followed by the
    first so many of them. *)
Lemma reseedLoop_seeded (params : Params) (n : nat) :
  0 < bounds params ->
  forall acc g,
    rng_ok g ->
    exists fresh,
      fst (reseedLoop params n acc g) = acc ++ fresh /\
      length fresh = n /\ Forall (seeded params) fresh /\
      rng_ok (snd (reseedLoop params n acc g)) /\
      Forall (fun st => exists k, st = acc ++ firstn k fresh)
             (reseedStates params n acc g) /\
      last (reseedStates params n acc g) [] = acc ++ fresh.
Proof.
  intros Hb. induction n as [| n IH]; intros acc g Hg;
    cbn [reseedLoop reseedStates].
  - exists []. rewrite app_nil_r.
    split; [reflexivity |]. split; [reflexivity |].
    split; [constructor |]. split; [assumption |].
    split; [| reflexivity].
    constructor; [| constructor]. exists 0%nat. cbn. rewrite app_nil_r.
    reflexivity.
  - destruct (newSphere_seeded params g Hb Hg) as [Hseed Hg1].
    destruct (newSphere params g) as [e g1]. cbn [fst snd] in *.
    destruct (IH (acc ++ [e]) g1 Hg1)
      as [fresh [Heq [Hlen [Hall [Hg2 [Hstates Hlast]]]]]].
    exists (e :: fresh). rewrite Heq, <- app_assoc.
    split; [reflexivity |]. split; [cbn; congruence |].
    split; [constructor; assumption |]. split; [assumption |]. split.
    + constructor.
      * exists 0%nat. cbn. rewrite app_nil_r. reflexivity.
      * apply Forall_impl with (2 := Hstates).
        intros st [k Hk]. exists (S k). rewrite Hk, <- app_assoc. reflexivity.
    + destruct (reseedStates params n (acc ++ [e]) g1) as [| st sts] eqn:Hst.
      * destruct n; cbn in Hst;
          [discriminate | destruct (newSphere params g1); discriminate].
      * cbn [last]. cbn [last] in Hlast. rewrite Hlast, <- app_assoc.
        reflexivity.
Qed.

Lemma radius_ends_ordered (params : Params) :
  0 <= targetRadius params * radiusVariance params ->
  targetRadius params * (1 - radiusVariance params)
  <= targetRadius params * (1 + radiusVariance params).
Proof. intros H. nra. Qed.

(** C8: after [reseedSpheres(n)] with [n >= 0] and [bounds = R - padding > 0],
    exactly [n] emitters exist; every position and target lies in the cube
    [[-bounds, bounds]^3]; every radius lies between
    [targetRadius (1 - variance)] and [targetRadius (1 + variance)], and
    every speed between [0.5 baseSpeed] and [1.5 baseSpeed], which are the
    intervals from the first to the second when
    [targetRadius * variance >= 0] and [baseSpeed >= 0].  The prior set is
    discarded: the new set, and so every later [fieldValue], is determined
    by the parameters and the random draws alone, whatever the emitter set
    was before.  No mixed set is observable: every value the variable
    [spheres] takes from the first statement of the call on holds the
    first so many of the new emitters and nothing else, and the last one is
    the new set. *)
Theorem reseedSpheres_seeded (params : Params) (n : Z) (w : World) :
  (0 <= n)%Z ->
  0 < bounds params ->
  rng_ok (rng w) ->
  Z.of_nat (length (spheres (reseedSpheres params n w))) = n
  /\ Forall (seeded params) (spheres (reseedSpheres params n w))
  /\ (0 <= targetRadius params * radiusVariance params ->
      Forall (radius_in_range params) (spheres (reseedSpheres params n w)))
  /\ (0 <= speed params ->
      Forall (speed_in_range params) (spheres (reseedSpheres params n w)))
  /\ (forall w0 : World,
        rng w0 = rng w ->
        spheres (reseedSpheres params n w0)
        = spheres (reseedSpheres params n w)
        /\ forall pos,
             fieldValue params (spheres (reseedSpheres params n w0)) pos
             = fieldValue params (spheres (reseedSpheres params n w)) pos)
  /\ Forall (unmixed (spheres (reseedSpheres params n w)))
            (reseedStates params (Z.to_nat n) [] (rng w))
  /\ last (reseedStates params (Z.to_nat n) [] (rng w)) []
     = spheres (reseedSpheres params n w)
  /\ rng_ok (rng (reseedSpheres params n w)).
Proof.
  intros Hn Hb Hg.
  assert (Hsame : forall w0 : World,
             rng w0 = rng w ->
             spheres (reseedSpheres params n w0)
             = spheres (reseedSpheres params n w)).
  { intros w0 Hw0. unfold reseedSpheres. rewrite Hw0.
    destruct (reseedLoop params (Z.to_nat n) [] (rng w)) as [ss g].
    reflexivity. }
  unfold reseedSpheres in *.
  destruct (reseedLoop_seeded params (Z.to_nat n) Hb [] (rng w) Hg)
    as [fresh [Heq [Hlen [Hall [Hg' [Hstates Hlast]]]]]].
  destruct (reseedLoop params (Z.to_nat n) [] (rng w)) as [ss g].
  cbn [fst snd spheres rng app] in *. subst ss.
  split; [rewrite Hlen; lia |].
  split; [exact Hall |].
  split.
  { intros Hrv. apply Forall_impl with (2 := Hall).
    intros e [_ [_ [Hrad _]]]. unfold radius_in_range.
    apply spanned_between; [apply radius_ends_ordered |]; assumption. }
  split.
  { intros Hsp. apply Forall_impl with (2 := Hall).
    intros e [_ [_ [_ Hspd]]]. unfold speed_in_range.
    apply spanned_between; [lra | assumption]. }
  split.
  { intros w0 Hw0. split; [apply Hsame; exact Hw0 |].
    intros pos. rewrite (Hsame w0 Hw0). reflexivity. }
  split; [| split; assumption].
  apply Forall_impl with (2 := Hstates). intros st Hst. exact Hst.
Qed.

Lemma harmonicRng_ok : rng_ok harmonicRng.
Proof.
  intros n. unfold harmonicRng.
  pose proof (pos_INR n) as Hn.
  assert (Hpos : 0 < INR n + 2) by lra.
  split.
  - left. apply Rinv_0_lt_compat. exact Hpos.
  - rewrite <- Rinv_1. apply Rinv_lt_contravar; lra.
Qed.

Lemma constRng_ok (u : R) : unit_draw u -> rng_ok (constRng u).
Proof. intros Hu n. exact Hu. Qed.

Lemma bounds_default : bounds defaultParams = 0.175 * 0.475.
Proof. unfold bounds, padding. cbn. lra. Qed.

Lemma reseedSpheres_seeded_witness :
  Z.of_nat (length (spheres (reseedSpheres defaultParams 10
                               (initWorld harmonicRng)))) = 10%Z
  /\ Forall (seeded defaultParams)
            (spheres (reseedSpheres defaultParams 10 (initWorld harmonicRng)))
  /\ (0 <= targetRadius defaultParams * radiusVariance defaultParams ->
      Forall (radius_in_range defaultParams)
             (spheres (reseedSpheres defaultParams 10 (initWorld harmonicRng))))
  /\ (0 <= speed defaultParams ->
      Forall (speed_in_range defaultParams)
             (spheres (reseedSpheres defaultParams 10 (initWorld harmonicRng))))
  /\ (forall w0 : World,
        rng w0 = rng (initWorld harmonicRng) ->
        spheres (reseedSpheres defaultParams 10 w0)
        = spheres (reseedSpheres defaultParams 10 (initWorld harmonicRng))
        /\ forall pos,
             fieldValue defaultParams
               (spheres (reseedSpheres defaultParams 10 w0)) pos
             = fieldValue defaultParams
                 (spheres (reseedSpheres defaultParams 10
                             (initWorld harmonicRng))) pos)
  /\ Forall (unmixed (spheres (reseedSpheres defaultParams 10
                                 (initWorld harmonicRng))))
            (reseedStates defaultParams (Z.to_nat 10) []
               (rng (initWorld harmonicRng)))
  /\ last (reseedStates defaultParams (Z.to_nat 10) []
             (rng (initWorld harmonicRng))) []
     = spheres (reseedSpheres defaultParams 10 (initWorld harmonicRng))
  /\ rng_ok (rng (reseedSpheres defaultParams 10 (initWorld harmonicRng))).
Proof.
  apply reseedSpheres_seeded.
  - lia.
  - rewrite bounds_default. lra.
  - exact harmonicRng_ok.
Defined.

End Kinematics.

(** * The marching-cubes pass *)

Section Loops.

Context {S : Type}.

(** A loop whose body keeps an invariant and never throws runs to the
    end and keeps the invariant. *)
Lemma forEach_invariant (P : S -> Prop) (body : Z -> S -> option S) (l : list Z) :
  (forall i s, In i l -> P s -> exists s', body i s = Some s' /\ P s') ->
  forall s, P s -> exists s', forEach l body s = Some s' /\ P s'.
Proof.
  induction l as [| i l IH]; intros Hbody s Hs; cbn [forEach].
  - exists s. split; [reflexivity | assumption].
  - destruct (Hbody i s (or_introl eq_refl) Hs) as [s1 [Hrun Hs1]].
    rewrite Hrun. apply IH; [| assumption].
    intros i' s' Hin. apply Hbody. right. assumption.
Qed.

End Loops.

Section EmptyField.

Variable edgeTable : Z -> Z.
Variable triTable : Z -> list Z.

Lemma fieldValue_nil (params : Params) (pos : Vec3) :
  fieldValue params [] pos = 1e9.
Proof. reflexivity. Qed.

Lemma cubeIndexOf_none (params : Params) (values : list R) :
  (forall c, (c < 8)%nat -> ~ nth c values 0 < isoLevel params) ->
  cubeIndexOf params values = 0%Z.
Proof.
  intros Hout. unfold cubeIndexOf. cbn [fold_left seq].
  repeat match goal with
         | |- context [Rlt_dec (nth ?c values 0) ?iso] =>
             destruct (Rlt_dec (nth c values 0) iso) as [Hin | _];
             [exfalso; apply (Hout c); [lia | exact Hin] |]
         end.
  reflexivity.
Qed.

Lemma cubeIndexOf_all (params : Params) (values : list R) :
  (forall c, (c < 8)%nat -> nth c values 0 < isoLevel params) ->
  cubeIndexOf params values = 255%Z.
Proof.
  intros Hin. unfold cubeIndexOf. cbn [fold_left seq].
  repeat match goal with
         | |- context [Rlt_dec (nth ?c values 0) ?iso] =>
             destruct (Rlt_dec (nth c values 0) iso) as [_ | Hout];
             [| exfalso; apply Hout; apply Hin; lia]
         end.
  reflexivity.
Qed.

Lemma cornerValues_nil (params : Params) (i j k : Z) (c : nat) :
  (c < 8)%nat ->
  nth c (map (fieldValue params []) (cellCorners params i j k)) 0 = 1e9.
Proof.
  intros Hc. do 8 (destruct c as [| c]; [reflexivity |]). lia.
Qed.

(** With no emitter every cell is case 0 or case 255. *)
Lemma cubeIndexOf_nil (params : Params) (i j k : Z) :
  let cubeIndex :=
    cubeIndexOf params (map (fieldValue params []) (cellCorners params i j k)) in
  (isoLevel params <= 1e9 -> cubeIndex = 0%Z) /\
  (1e9 < isoLevel params -> cubeIndex = 255%Z).
Proof.
  split; intros Hiso.
  - apply cubeIndexOf_none. intros c Hc. rewrite cornerValues_nil by assumption. lra.
  - apply cubeIndexOf_all. intros c Hc. rewrite cornerValues_nil by assumption. lra.
Qed.

(** A cell whose mask is empty leaves the arrays as they are. *)
Lemma marchCell_empty_mask (params : Params) (ss : list Sphere)
    (i j k : Z) (s : Scratch) (buf : Buffers) :
  edgeTable (cubeIndexOf params (map (fieldValue params ss) (cellCorners params i j k)))
  = 0%Z ->
  exists s', marchCell edgeTable triTable params ss i j k (s, buf) = Some (s', buf).
Proof.
  intros Hmask. unfold marchCell. rewrite Hmask. cbn [Z.eqb].
  eexists. reflexivity.
Qed.

(** A pass all of whose cells have an empty mask ends with empty arrays. *)
Lemma updateMesh_no_surface (params : Params) (ss : list Sphere) (s : Scratch) :
  (forall i j k,
      edgeTable (cubeIndexOf params
                   (map (fieldValue params ss) (cellCorners params i j k))) = 0%Z) ->
  exists s', updateMesh edgeTable triTable params ss s = Some (s', mkBuffers [] []).
Proof.
  intros Hmask. unfold updateMesh.
  set (P := fun st : Scratch * Buffers => snd st = mkBuffers [] []).
  assert (Hcell : forall i j k st, P st ->
            exists st', marchCell edgeTable triTable params ss i j k st = Some st'
                        /\ P st').
  { intros i j k [s0 buf] Hst. unfold P in Hst. cbn [snd] in Hst. subst buf.
    destruct (marchCell_empty_mask params ss i j k s0 (mkBuffers [] []) (Hmask i j k))
      as [s1 Hrun].
    exists (s1, mkBuffers [] []). split; [exact Hrun | reflexivity]. }
  destruct (forEach_invariant P
              (fun i => forEach (range (cellsPerAxis params))
                 (fun j => forEach (range (cellsPerAxis params))
                    (fun k => marchCell edgeTable triTable params ss i j k)))
              (range (cellsPerAxis params))) with (s := (s, mkBuffers [] []))
    as [[s' buf] [Hrun Hbuf]].
  - intros i st _ Hst. apply forEach_invariant; [| assumption].
    intros j st1 _ Hst1. apply forEach_invariant; [| assumption].
    intros k st2 _ Hst2. apply Hcell. assumption.
  - reflexivity.
  - unfold P in Hbuf. cbn [snd] in Hbuf. subst buf. exists s'. exact Hrun.
Qed.

Lemma updateMesh_nil (params : Params) (s : Scratch) :
  uniform_cases_empty edgeTable ->
  exists s', updateMesh edgeTable triTable params [] s = Some (s', mkBuffers [] []).
Proof.
  intros [H0 H255]. apply updateMesh_no_surface. intros i j k.
  destruct (cubeIndexOf_nil params i j k) as [Hlow Hhigh].
  destruct (Rle_dec (isoLevel params) 1e9) as [Hiso | Hiso].
  - rewrite Hlow by assumption. exact H0.
  - rewrite Hhigh by lra. exact H255.
Qed.

Lemma range_nonpos (n : Z) : (n <= 0)%Z -> range n = [].
Proof.
  intros Hn. unfold range. replace (Z.to_nat n) with 0%nat by lia. reflexivity.
Qed.

(** C10: with no emitter the field is the sentinel [1e9] at every point;
    hence, for an iso level below [1e9] and any grid, every cell has case
    index 0 and the pass (the canonical mask of case 0 being empty) runs
    to the end, without an error, with empty position and normal arrays,
    which hold no number at all and so no NaN. *)
Theorem updateMesh_no_emitters (params : Params) (s : Scratch) :
  isoLevel params < 1e9 ->
  edgeTable 0%Z = 0%Z ->
  (forall pos, fieldValue params [] pos = 1e9)
  /\ (forall i j k,
        cubeIndexOf params
          (map (fieldValue params []) (cellCorners params i j k)) = 0%Z)
  /\ exists s',
      updateMesh edgeTable triTable params [] s = Some (s', mkBuffers [] []).
Proof.
  intros Hiso H0.
  assert (Hcase : forall i j k,
             cubeIndexOf params
               (map (fieldValue params []) (cellCorners params i j k)) = 0%Z).
  { intros i j k. apply (cubeIndexOf_nil params i j k). lra. }
  split; [intros pos; apply fieldValue_nil |]. split; [exact Hcase |].
  apply updateMesh_no_surface. intros i j k. rewrite Hcase. exact H0.
Qed.

(** C2, as the code has it: [updateMesh] has no precondition check.  With
    zero emitters (the canonical masks of cases 0 and 255 being empty), or
    with [cellsPerAxis <= 0], it runs to the end and returns empty position
    and normal arrays. *)
Theorem updateMesh_degenerate_input (params : Params) (ss : list Sphere)
    (s : Scratch) :
  uniform_cases_empty edgeTable ->
  ss = [] \/ (cellsPerAxis params <= 0)%Z ->
  exists s', updateMesh edgeTable triTable params ss s = Some (s', mkBuffers [] []).
Proof.
  intros Huni [-> | Hcells].
  - apply updateMesh_nil. assumption.
  - unfold updateMesh. rewrite range_nonpos by assumption.
    exists s. reflexivity.
Qed.

End EmptyField.

Section Loops2.

Context {S1 S2 : Type}.

(** Two loops over the same indices whose bodies keep a relation between
    their states and never throw. *)
Lemma forEach_related (Rel : S1 -> S2 -> Prop)
    (body1 : Z -> S1 -> option S1) (body2 : Z -> S2 -> option S2) (l : list Z) :
  (forall i s1 s2, Rel s1 s2 ->
     exists s1' s2', body1 i s1 = Some s1' /\ body2 i s2 = Some s2' /\ Rel s1' s2') ->
  forall s1 s2, Rel s1 s2 ->
    exists s1' s2',
      forEach l body1 s1 = Some s1' /\ forEach l body2 s2 = Some s2' /\ Rel s1' s2'.
Proof.
  intros Hbody. induction l as [| i l IH]; intros s1 s2 Hrel; cbn [forEach].
  - exists s1, s2. repeat split; assumption.
  - destruct (Hbody i s1 s2 Hrel) as [s1' [s2' [H1 [H2 Hrel']]]].
    rewrite H1, H2. apply IH. assumption.
Qed.

End Loops2.

Section EdgePoints.

Variable params : Params.

Lemma fold_smin_same_body (pos : Vec3) (ss1 ss2 : list Sphere) :
  Forall2 same_body ss1 ss2 ->
  forall d0,
    fold_left (fun d sphere =>
                 smin d (sdf_sphere pos (position sphere) (radius sphere))
                      (smoothK params)) ss1 d0
    = fold_left (fun d sphere =>
                   smin d (sdf_sphere pos (position sphere) (radius sphere))
                        (smoothK params)) ss2 d0.
Proof.
  induction 1 as [| a b ss1 ss2 [Hp Hr] _ IH]; intros d0; cbn [fold_left].
  - reflexivity.
  - rewrite Hp, Hr. apply IH.
Qed.

(** The field reads the position and the radius of the emitters only. *)
Lemma fieldValue_same_body (ss1 ss2 : list Sphere) (pos : Vec3) :
  Forall2 same_body ss1 ss2 ->
  fieldValue params ss1 pos = fieldValue params ss2 pos.
Proof. intros H. unfold fieldValue. apply fold_smin_same_body. assumption. Qed.

Lemma cubeIndexOf_range (values : list R) :
  (0 <= cubeIndexOf params values < 256)%Z.
Proof.
  unfold cubeIndexOf. cbn [fold_left seq].
  case_guards; cbn; lia.
Qed.

Lemma interpolateVertex_corners (s1 s2 : Scratch) (a b : nat) (v1 v2 : R) :
  cornerPositions s1 = cornerPositions s2 ->
  interpolateVertex params s1 (corner_ref a) (corner_ref b) v1 v2
  = interpolateVertex params s2 (corner_ref a) (corner_ref b) v1 v2.
Proof.
  intros H. unfold interpolateVertex. cbn [deref]. rewrite H. reflexivity.
Qed.

Lemma edgePoint_corners (s1 s2 : Scratch) (ab : nat * nat) :
  cornerPositions s1 = cornerPositions s2 ->
  cornerValues s1 = cornerValues s2 ->
  edgePoint params s1 ab = edgePoint params s2 ab.
Proof.
  intros Hp Hv. unfold edgePoint. rewrite Hv.
  apply interpolateVertex_corners. assumption.
Qed.

Lemma edgePoint_not_normal_h (s : Scratch) (ab : nat * nat) :
  edgePoint params s ab <> normal_h_ref.
Proof.
  unfold edgePoint, interpolateVertex.
  case_guards; discriminate.
Qed.

Lemma interpolateEdge_fields (mask : Z) (s : Scratch) (e : nat) (ab : nat * nat) :
  let s' := interpolateEdge params mask s e ab in
  cornerPositions s' = cornerPositions s /\
  cornerValues s' = cornerValues s /\
  normal_h s' = normal_h s /\
  forall e', edgeIntersection s' e' =
             if Nat.eqb e' e && edgeActive mask e
             then edgePoint params s ab else edgeIntersection s e'.
Proof.
  unfold interpolateEdge. destruct (edgeActive mask e); cbn.
  - repeat split. intros e'. rewrite andb_true_r. reflexivity.
  - repeat split. intros e'. rewrite andb_false_r. reflexivity.
Qed.

(** The guarded assignments keep the corners and the normal, store the
    interpolated point in every active slot of the list and leave the
    other slots alone. *)
Lemma interpolate_fold (mask : Z) (l : list (nat * (nat * nat))) :
  NoDup (map fst l) ->
  forall s,
    let s' := fold_left
                (fun s ea => interpolateEdge params mask s (fst ea) (snd ea)) l s in
    cornerPositions s' = cornerPositions s /\
    cornerValues s' = cornerValues s /\
    normal_h s' = normal_h s /\
    (forall e, ~ In e (map fst l) -> edgeIntersection s' e = edgeIntersection s e) /\
    (forall e ab, In (e, ab) l ->
        edgeIntersection s' e =
        if edgeActive mask e then edgePoint params s ab else edgeIntersection s e).
Proof.
  induction l as [| [e0 ab0] l IH]; intros Hnd s; cbn [fold_left fst snd].
  - repeat split. intros e ab [].
  - cbn [map fst] in Hnd. inversion Hnd as [| x xs Hnotin Hnd']; subst.
    destruct (interpolateEdge_fields mask s e0 ab0) as [Hp [Hv [Hn He]]].
    set (s1 := interpolateEdge params mask s e0 ab0) in *.
    destruct (IH Hnd' s1) as [Hp' [Hv' [Hn' [Hout Hin]]]].
    split; [congruence |]. split; [congruence |]. split; [congruence |]. split.
    + intros e Hne. cbn [map fst In] in Hne.
      rewrite Hout by tauto. rewrite He.
      destruct (Nat.eqb_spec e e0) as [-> | _]; [tauto | reflexivity].
    + intros e ab [Heq | Hmem].
      * inversion Heq; subst. rewrite Hout by assumption. rewrite He.
        rewrite Nat.eqb_refl. reflexivity.
      * assert (Hne : e <> e0).
        { intros ->. apply Hnotin. apply (in_map fst) in Hmem. exact Hmem. }
        rewrite (Hin e ab Hmem). rewrite He.
        destruct (Nat.eqb_spec e e0) as [-> | _]; [contradiction |].
        cbn [andb]. rewrite (edgePoint_corners s1 s ab Hp Hv). reflexivity.
Qed.

Lemma edgeCorners_indexed (e : nat) :
  (e < 12)%nat ->
  In (e, nth e edgeCorners (0, 0)%nat) (combine (seq 0 12) edgeCorners).
Proof.
  intros He. do 12 (destruct e as [| e]; [cbn; tauto |]). lia.
Qed.

Lemma interpolateEdges_spec (mask : Z) (s : Scratch) :
  let s' := interpolateEdges params mask s in
  cornerPositions s' = cornerPositions s /\
  cornerValues s' = cornerValues s /\
  normal_h s' = normal_h s /\
  forall e, (e < 12)%nat ->
    edgeIntersection s' e =
    if edgeActive mask e
    then edgePoint params s (nth e edgeCorners (0, 0)%nat)
    else edgeIntersection s e.
Proof.
  unfold interpolateEdges.
  assert (Hnd : NoDup (map fst (combine (seq 0 12) edgeCorners)))
    by (change (NoDup (seq 0 12)); apply seq_NoDup).
  destruct (interpolate_fold mask _ Hnd s) as [Hp [Hv [Hn [_ Hin]]]].
  repeat split; try assumption.
  intros e He. apply Hin. apply edgeCorners_indexed. assumption.
Qed.

(** After the guarded assignments, two scratch states with the same
    corners agree on the active slots. *)
Lemma interpolateEdges_agree (mask : Z) (s1 s2 : Scratch) :
  cornerPositions s1 = cornerPositions s2 ->
  cornerValues s1 = cornerValues s2 ->
  edges_agree mask (interpolateEdges params mask s1)
                   (interpolateEdges params mask s2).
Proof.
  intros Hp Hv.
  destruct (interpolateEdges_spec mask s1) as [Hp1 [_ [_ He1]]].
  destruct (interpolateEdges_spec mask s2) as [Hp2 [_ [_ He2]]].
  split; [congruence |].
  intros e He Hact. rewrite (He1 e He), (He2 e He), Hact.
  split; [apply edgePoint_corners; assumption | apply edgePoint_not_normal_h].
Qed.

Lemma gradient_ext (ss1 ss2 : list Sphere) (q : Vec3) :
  (forall pos, fieldValue params ss1 pos = fieldValue params ss2 pos) ->
  gradient params ss1 q = gradient params ss2 q.
Proof. intros H. unfold gradient. cbv zeta. rewrite !H. reflexivity. Qed.

Lemma deref_agree (s1 s2 : Scratch) (r : vref) :
  cornerPositions s1 = cornerPositions s2 ->
  r <> normal_h_ref ->
  deref s1 r = deref s2 r.
Proof.
  intros Hp Hr. destruct r as [c | v |]; cbn [deref];
    [rewrite Hp; reflexivity | reflexivity | contradiction].
Qed.

Lemma activeEntry_edgeAt (mask : Z) (s : Scratch) (n : Z) :
  activeEntry mask n = true ->
  edgeAt s n = Some (edgeIntersection s (Z.to_nat n))
  /\ (Z.to_nat n < 12)%nat /\ edgeActive mask (Z.to_nat n) = true.
Proof.
  unfold activeEntry, edgeAt. intros H.
  apply andb_true_iff in H. destruct H as [Hrange Hact].
  rewrite Hrange. split; [reflexivity |]. split; [| assumption].
  apply andb_true_iff in Hrange. destruct Hrange as [H0 H12]. lia.
Qed.

(** What one triangle appends, given the three objects it reads: the
    three normals are read from [normal_h] after the third estimate. *)
Lemma emitTriangle_some (ss : list Sphere) (a b c : Z) (s : Scratch)
    (buf : Buffers) (v1 v2 v3 : vref) :
  edgeAt s c = Some v1 -> edgeAt s b = Some v2 -> edgeAt s a = Some v3 ->
  let s1 := snd (estimateNormal params ss s v1) in
  let s2 := snd (estimateNormal params ss s1 v2) in
  let s3 := snd (estimateNormal params ss s2 v3) in
  emitTriangle params ss a b c (s, buf)
  = Some (s3,
          mkBuffers
            (push3 (push3 (push3 (vertices buf) (deref s v1)) (deref s v2))
                   (deref s v3))
            (push3 (push3 (push3 (normals buf) (normal_h s3)) (normal_h s3))
                   (normal_h s3))).
Proof.
  intros H1 H2 H3. unfold emitTriangle. rewrite H1, H2, H3. reflexivity.
Qed.

Lemma deref_set_normal_h (s : Scratch) (n : Vec3) (r : vref) :
  r <> normal_h_ref -> deref (set_normal_h s n) r = deref s r.
Proof. intros Hr. destruct r; [reflexivity | reflexivity | contradiction]. Qed.

(** The same, when the objects read are not [normal_h] itself: all three
    normals are the normalized gradient at the third vertex. *)
Lemma emitTriangle_closed (ss : list Sphere) (a b c : Z) (s : Scratch)
    (buf : Buffers) (v1 v2 v3 : vref) :
  edgeAt s c = Some v1 -> edgeAt s b = Some v2 -> edgeAt s a = Some v3 ->
  v3 <> normal_h_ref ->
  let n3 := Vector3.normalize (gradient params ss (deref s v3)) in
  emitTriangle params ss a b c (s, buf)
  = Some (set_normal_h s n3,
          mkBuffers
            (push3 (push3 (push3 (vertices buf) (deref s v1)) (deref s v2))
                   (deref s v3))
            (push3 (push3 (push3 (normals buf) n3) n3) n3)).
Proof.
  intros H1 H2 H3 Hn3 n3.
  rewrite (emitTriangle_some ss a b c s buf v1 v2 v3 H1 H2 H3).
  unfold n3. destruct v3; [reflexivity | reflexivity | contradiction].
Qed.

Lemma emitTriangle_agree (mask : Z) (ss1 ss2 : list Sphere) (a b c : Z)
    (s1 s2 : Scratch) (buf : Buffers) :
  (forall pos, fieldValue params ss1 pos = fieldValue params ss2 pos) ->
  edges_agree mask s1 s2 ->
  activeEntry mask a = true -> activeEntry mask b = true ->
  activeEntry mask c = true ->
  exists s1' s2' buf',
    emitTriangle params ss1 a b c (s1, buf) = Some (s1', buf') /\
    emitTriangle params ss2 a b c (s2, buf) = Some (s2', buf') /\
    edges_agree mask s1' s2'.
Proof.
  intros Hf [Hp Hedges] Ha Hb Hc.
  destruct (activeEntry_edgeAt mask s1 a Ha) as [Ha1 [Hla Haa]].
  destruct (activeEntry_edgeAt mask s1 b Hb) as [Hb1 [Hlb Hab]].
  destruct (activeEntry_edgeAt mask s1 c Hc) as [Hc1 [Hlc Hac]].
  destruct (activeEntry_edgeAt mask s2 a Ha) as [Ha2 _].
  destruct (activeEntry_edgeAt mask s2 b Hb) as [Hb2 _].
  destruct (activeEntry_edgeAt mask s2 c Hc) as [Hc2 _].
  destruct (Hedges _ Hla Haa) as [Hea Hna].
  destruct (Hedges _ Hlb Hab) as [Heb Hnb].
  destruct (Hedges _ Hlc Hac) as [Hec Hnc].
  rewrite <- Hea in Ha2. rewrite <- Heb in Hb2. rewrite <- Hec in Hc2.
  rewrite (emitTriangle_closed ss1 a b c s1 buf _ _ _ Hc1 Hb1 Ha1 Hna).
  rewrite (emitTriangle_closed ss2 a b c s2 buf _ _ _ Hc2 Hb2 Ha2 Hna).
  rewrite <- (deref_agree s1 s2 _ Hp Hna).
  rewrite <- (deref_agree s1 s2 _ Hp Hnb).
  rewrite <- (deref_agree s1 s2 _ Hp Hnc).
  rewrite <- (gradient_ext ss1 ss2 _ Hf).
  do 3 eexists. split; [reflexivity |]. split; [reflexivity |].
  split; [exact Hp |]. intros e He Hact. apply Hedges; assumption.
Qed.

(** On a well-formed row the triangle loop never throws and appends the
    same numbers whatever the stale scratch contents are. *)
Lemma emitTriangles_agree (mask : Z) (ss1 ss2 : list Sphere) :
  (forall pos, fieldValue params ss1 pos = fieldValue params ss2 pos) ->
  forall (n : nat) (row : list Z) (s1 s2 : Scratch) (buf : Buffers),
    (length row <= n)%nat ->
    row_wf mask row = true ->
    edges_agree mask s1 s2 ->
    exists s1' s2' buf',
      emitTriangles params ss1 row (s1, buf) = Some (s1', buf') /\
      emitTriangles params ss2 row (s2, buf) = Some (s2', buf').
Proof.
  intros Hf. induction n as [| n IH]; intros row s1 s2 buf Hlen Hwf Hagree.
  - destruct row; [discriminate Hwf | cbn in Hlen; lia].
  - destruct row as [| a rest]; [discriminate Hwf |].
    cbn [emitTriangles row_wf] in *.
    destruct (Z.eqb a (-1)).
    + exists s1, s2, buf. split; reflexivity.
    + destruct rest as [| b [| c rest']]; try discriminate Hwf.
      apply andb_true_iff in Hwf. destruct Hwf as [Hwf Hrest].
      apply andb_true_iff in Hwf. destruct Hwf as [Hwf Hc].
      apply andb_true_iff in Hwf. destruct Hwf as [Ha Hb].
      destruct (emitTriangle_agree mask ss1 ss2 a b c s1 s2 buf Hf Hagree Ha Hb Hc)
        as [s1' [s2' [buf' [H1 [H2 Hagree']]]]].
      rewrite H1, H2. apply IH; [cbn in Hlen; lia | assumption | assumption].
Qed.

End EdgePoints.

Section ScratchIndependence.

Variable edgeTable : Z -> Z.
Variable triTable : Z -> list Z.
Variable params : Params.

(** Under well-formed tables a cell never throws, and what it appends
    depends on the field alone. *)
Lemma marchCell_agree (ss1 ss2 : list Sphere) (i j k : Z)
    (s1 s2 : Scratch) (buf : Buffers) :
  tables_wf edgeTable triTable ->
  (forall pos, fieldValue params ss1 pos = fieldValue params ss2 pos) ->
  exists s1' s2' buf',
    marchCell edgeTable triTable params ss1 i j k (s1, buf) = Some (s1', buf') /\
    marchCell edgeTable triTable params ss2 i j k (s2, buf) = Some (s2', buf').
Proof.
  intros Hwf Hf. unfold marchCell.
  assert (Hvals : map (fieldValue params ss1) (cellCorners params i j k)
                  = map (fieldValue params ss2) (cellCorners params i j k))
    by (apply map_ext; exact Hf).
  rewrite <- Hvals.
  set (corners := cellCorners params i j k).
  set (values := map (fieldValue params ss1) corners).
  set (cubeIndex := cubeIndexOf params values).
  destruct (Z.eqb (edgeTable cubeIndex) 0).
  - do 3 eexists. split; reflexivity.
  - apply (emitTriangles_agree params (edgeTable cubeIndex) ss1 ss2 Hf
             (length (triTable cubeIndex))).
    + lia.
    + apply Hwf. apply cubeIndexOf_range.
    + apply interpolateEdges_agree; reflexivity.
Qed.

Lemma updateMesh_agree (ss1 ss2 : list Sphere) (s1 s2 : Scratch) :
  tables_wf edgeTable triTable ->
  (forall pos, fieldValue params ss1 pos = fieldValue params ss2 pos) ->
  exists s1' s2' buf,
    updateMesh edgeTable triTable params ss1 s1 = Some (s1', buf) /\
    updateMesh edgeTable triTable params ss2 s2 = Some (s2', buf).
Proof.
  intros Hwf Hf. unfold updateMesh.
  set (Rel := fun st1 st2 : Scratch * Buffers => snd st1 = snd st2).
  assert (Hcell : forall i j k st1 st2, Rel st1 st2 ->
            exists st1' st2',
              marchCell edgeTable triTable params ss1 i j k st1 = Some st1' /\
              marchCell edgeTable triTable params ss2 i j k st2 = Some st2' /\
              Rel st1' st2').
  { intros i j k [t1 b1] [t2 b2] Hrel. unfold Rel in Hrel. cbn [snd] in Hrel.
    subst b2.
    destruct (marchCell_agree ss1 ss2 i j k t1 t2 b1 Hwf Hf)
      as [t1' [t2' [b' [H1 H2]]]].
    exists (t1', b'), (t2', b'). repeat split; assumption. }
  destruct (forEach_related Rel
              (fun i => forEach (range (cellsPerAxis params))
                 (fun j => forEach (range (cellsPerAxis params))
                    (fun k => marchCell edgeTable triTable params ss1 i j k)))
              (fun i => forEach (range (cellsPerAxis params))
                 (fun j => forEach (range (cellsPerAxis params))
                    (fun k => marchCell edgeTable triTable params ss2 i j k)))
              (range (cellsPerAxis params)))
    with (s1 := (s1, mkBuffers [] [])) (s2 := (s2, mkBuffers [] []))
    as [[t1 b1] [[t2 b2] [H1 [H2 Hrel]]]].
  - intros i st1 st2 Hrel. apply forEach_related; [| assumption].
    intros j st1' st2' Hrel'. apply forEach_related; [| assumption].
    intros k st1'' st2'' Hrel''. apply Hcell. assumption.
  - reflexivity.
  - unfold Rel in Hrel. cbn [snd] in Hrel. subst b2.
    exists t1, t2, b1. split; assumption.
Qed.

End ScratchIndependence.

(** * A frame with no elapsed time *)

Section ZeroTimeFrame.

Variable edgeTable : Z -> Z.
Variable triTable : Z -> list Z.
Variable params : Params.

(** With [deltaTime = 0] an emitter keeps its position and its radius. *)
Lemma updateSphere_zero (e : Sphere) (g : Rng) :
  same_body e (fst (updateSphere params 0 e g)).
Proof.
  unfold updateSphere, same_body. cbv zeta.
  set (direction := Vector3.subVectors (target e) (position e)).
  destruct (Rlt_dec (Vector3.length direction) 0.001) as [Hnear | Hfar].
  - destruct (randomPoint (bounds params) g) as [tgt g']. cbn. split; reflexivity.
  - destruct (Rge_dec (sphere_speed e * 0) (Vector3.length direction))
      as [Hreach | Hshort].
    + exfalso. lra.
    + cbn [fst position radius]. replace (sphere_speed e * 0) with 0 by ring.
      rewrite add_zero_step. split; reflexivity.
Qed.

Lemma updateLoop_zero (ss : list Sphere) :
  forall g, Forall2 same_body ss (fst (updateLoop params 0 ss g)).
Proof.
  induction ss as [| e ss IH]; intros g; cbn [updateLoop].
  - constructor.
  - pose proof (updateSphere_zero e g) as He.
    destruct (updateSphere params 0 e g) as [e' g1]. cbn [fst] in He.
    specialize (IH g1).
    destruct (updateLoop params 0 ss g1) as [ss' g2]. cbn [fst] in *.
    constructor; assumption.
Qed.

Lemma same_body_positions (ss1 ss2 : list Sphere) :
  Forall2 same_body ss1 ss2 -> map position ss2 = map position ss1.
Proof.
  induction 1 as [| a b ss1 ss2 [Hp _] _ IH]; cbn [map];
    [reflexivity | rewrite Hp, IH; reflexivity].
Qed.

(** C9: a frame with [deltaTime = 0] and unchanged parameters (the case
    tables being well formed, as the canonical ones are) leaves the position
    of every emitter as the preceding frame left it and produces the same
    position and normal arrays as the preceding frame: the same number of
    vertex coordinates and the same coordinates.  Emitters at their target
    may have taken a new target meanwhile; neither array depends on it. *)
Theorem tick_zero_same_mesh (dt : R) (w : World) :
  tables_wf edgeTable triTable ->
  exists w1 w2,
    tick edgeTable triTable params dt w = Some w1 /\
    tick edgeTable triTable params 0 w1 = Some w2 /\
    map position (spheres w2) = map position (spheres w1) /\
    length (vertices (geometry w2)) = length (vertices (geometry w1)) /\
    vertices (geometry w2) = vertices (geometry w1) /\
    normals (geometry w2) = normals (geometry w1).
Proof.
  intros Hwf. unfold tick, updateMeshW.
  set (wa := updateSpheres params dt w).
  destruct (updateMesh_agree edgeTable triTable params
              (spheres wa) (spheres wa) (scratch wa) (scratch wa) Hwf
              (fun pos => eq_refl))
    as [s1 [_ [buf1 [Hrun1 _]]]].
  rewrite Hrun1.
  set (w1 := mkWorld (spheres wa) (rng wa) s1 buf1).
  set (wb := updateSpheres params 0 w1).
  assert (Hbody : Forall2 same_body (spheres w1) (spheres wb)).
  { unfold wb, updateSpheres.
    pose proof (updateLoop_zero (spheres w1) (rng w1)) as Hz.
    destruct (updateLoop params 0 (spheres w1) (rng w1)) as [ss g].
    exact Hz. }
  assert (Hscratch : scratch wb = s1).
  { unfold wb, updateSpheres.
    destruct (updateLoop params 0 (spheres w1) (rng w1)) as [ss g].
    reflexivity. }
  destruct (updateMesh_agree edgeTable triTable params
              (spheres wa) (spheres wb) (scratch wa) (scratch wb) Hwf
              (fun pos => fieldValue_same_body params _ _ pos Hbody))
    as [s1' [s2 [buf2 [Hrun1' Hrun2]]]].
  rewrite Hrun1 in Hrun1'. inversion Hrun1'; subst s1' buf2.
  exists w1, (mkWorld (spheres wb) (rng wb) s2 buf1).
  split; [reflexivity |].
  split; [fold wb; rewrite Hrun2; reflexivity |].
  cbn [spheres geometry].
  split; [apply same_body_positions; exact Hbody |].
  repeat split; reflexivity.
Qed.

End ZeroTimeFrame.

(** * The normals of a triangle *)

Section SharedNormal.

Lemma norm3_x (a : R) : 0 <= a -> norm3 a 0 0 = a.
Proof.
  intros Ha. unfold norm3. replace (a * a + 0 * 0 + 0 * 0) with (a * a) by ring.
  apply sqrt_square. assumption.
Qed.

Lemma norm3_y (a : R) : 0 <= a -> norm3 0 a 0 = a.
Proof.
  intros Ha. unfold norm3. replace (0 * 0 + a * a + 0 * 0) with (a * a) by ring.
  apply sqrt_square. assumption.
Qed.

Lemma norm3_z (a : R) : 0 <= a -> norm3 0 0 a = a.
Proof.
  intros Ha. unfold norm3. replace (0 * 0 + 0 * 0 + a * a) with (a * a) by ring.
  apply sqrt_square. assumption.
Qed.

Lemma norm3_ge_1 (x y z : R) : 1 <= x * x + y * y + z * z -> 1 <= norm3 x y z.
Proof.
  intros H. unfold norm3. apply Rle_trans with (sqrt 1).
  - rewrite sqrt_1. lra.
  - apply sqrt_le_1_alt. assumption.
Qed.

Lemma norm3_le_2 (x y z : R) : x * x + y * y + z * z <= 4 -> norm3 x y z <= 2.
Proof.
  intros H. unfold norm3.
  apply Rle_trans with (sqrt (2 * 2)).
  - apply sqrt_le_1_alt. lra.
  - rewrite sqrt_square; lra.
Qed.

Lemma norm3_flip_y (x h z : R) : norm3 x (0 + h) z = norm3 x (0 - h) z.
Proof. unfold norm3. f_equal. ring. Qed.

Lemma norm3_flip_x (h y z : R) : norm3 (0 + h) y z = norm3 (0 - h) y z.
Proof. unfold norm3. f_equal. ring. Qed.

Lemma norm3_flip_z (x y h : R) : norm3 x y (0 + h) = norm3 x y (0 - h).
Proof. unfold norm3. f_equal. ring. Qed.

(** The field of one sphere at the centre, within the cube [[-1, 1]^3]
    enlarged by the probing step. *)
Lemma fieldValue_centre (r x y z : R) :
  0 <= r ->
  x * x + y * y + z * z <= 4 ->
  fieldValue coarseParams [centreSphere r] (vec3 x y z) = norm3 x y z - r.
Proof.
  intros Hr Hin. unfold fieldValue. cbn [fold_left centreSphere position radius].
  unfold sdf_sphere, Vector3.distanceTo, zero3. cbn [vx vy vz smoothK coarseParams].
  replace (x - 0) with x by ring. replace (y - 0) with y by ring.
  replace (z - 0) with z by ring. fold (norm3 x y z).
  pose proof (norm3_le_2 x y z Hin).
  apply smin_sentinel; lra.
Qed.

Lemma normalize_x (a : R) : 0 < a -> Vector3.normalize (vec3 a 0 0) = vec3 1 0 0.
Proof.
  intros Ha. unfold Vector3.normalize, Vector3.length. cbn [vx vy vz].
  fold (norm3 a 0 0). rewrite norm3_x by lra.
  destruct (Req_dec_T a 0) as [Habs | _]; [lra |].
  unfold Vector3.divideScalar, Vector3.multiplyScalar. cbn [vx vy vz].
  f_equal; field; lra.
Qed.

Lemma normalize_y (a : R) : 0 < a -> Vector3.normalize (vec3 0 a 0) = vec3 0 1 0.
Proof.
  intros Ha. unfold Vector3.normalize, Vector3.length. cbn [vx vy vz].
  fold (norm3 0 a 0). rewrite norm3_y by lra.
  destruct (Req_dec_T a 0) as [Habs | _]; [lra |].
  unfold Vector3.divideScalar, Vector3.multiplyScalar. cbn [vx vy vz].
  f_equal; field; lra.
Qed.

Lemma normalize_z (a : R) : 0 < a -> Vector3.normalize (vec3 0 0 a) = vec3 0 0 1.
Proof.
  intros Ha. unfold Vector3.normalize, Vector3.length. cbn [vx vy vz].
  fold (norm3 0 0 a). rewrite norm3_z by lra.
  destruct (Req_dec_T a 0) as [Habs | _]; [lra |].
  unfold Vector3.divideScalar, Vector3.multiplyScalar. cbn [vx vy vz].
  f_equal; field; lra.
Qed.

(** The normals the estimator computes on the three axes, half way out. *)
Lemma centre_normal_x :
  normalAt coarseParams [centreSphere 0.5] (vec3 0.5 0 0) = vec3 1 0 0.
Proof.
  unfold normalAt, gradient. cbv zeta. cbn [vx vy vz].
  rewrite !fieldValue_centre by lra.
  rewrite norm3_flip_y, norm3_flip_z. rewrite !norm3_x by lra.
  rewrite <- (normalize_x 0.002) by lra. f_equal. f_equal; lra.
Qed.

Lemma centre_normal_y :
  normalAt coarseParams [centreSphere 0.5] (vec3 0 0.5 0) = vec3 0 1 0.
Proof.
  unfold normalAt, gradient. cbv zeta. cbn [vx vy vz].
  rewrite !fieldValue_centre by lra.
  rewrite norm3_flip_x, norm3_flip_z. rewrite !norm3_y by lra.
  rewrite <- (normalize_y 0.002) by lra. f_equal. f_equal; lra.
Qed.

Lemma centre_normal_z :
  normalAt coarseParams [centreSphere 0.5] (vec3 0 0 0.5) = vec3 0 0 1.
Proof.
  unfold normalAt, gradient. cbv zeta. cbn [vx vy vz].
  rewrite !fieldValue_centre by lra.
  rewrite norm3_flip_x, norm3_flip_y. rewrite !norm3_z by lra.
  rewrite <- (normalize_z 0.002) by lra. f_equal. f_equal; lra.
Qed.

(** Away from all three guards the edge point is a new vector. *)
Lemma interpolateVertex_crossing (params : Params) (s : Scratch)
    (p1 p2 : vref) (v1 v2 : R) :
  0.00001 <= Rabs (isoLevel params - v1) ->
  0.00001 <= Rabs (isoLevel params - v2) ->
  0.00001 <= Rabs (v1 - v2) ->
  interpolateVertex params s p1 p2 v1 v2
  = fresh_ref (Vector3.lerpVectors (deref s p1) (deref s p2)
                 ((isoLevel params - v1) / (v2 - v1))).
Proof.
  intros H1 H2 H3. unfold interpolateVertex.
  destruct (Rlt_dec (Rabs (isoLevel params - v1)) 0.00001); [lra |].
  destruct (Rlt_dec (Rabs (isoLevel params - v2)) 0.00001); [lra |].
  destruct (Rlt_dec (Rabs (v1 - v2)) 0.00001); [lra |].
  reflexivity.
Qed.

Lemma coarse_corners : cellCorners coarseParams 1 1 1 = centreCorners.
Proof.
  unfold cellCorners. cbv zeta.
  replace (cellOrigin coarseParams 1) with 0
    by (unfold cellOrigin, cellSize; cbn; lra).
  replace (cellSize coarseParams) with 1 by (unfold cellSize; cbn; lra).
  replace (0 + 1) with 1 by lra. reflexivity.
Qed.

Lemma coarse_values :
  map (fieldValue coarseParams [centreSphere 0.5]) centreCorners = centreValues.
Proof.
  unfold centreCorners, centreValues. cbn [map].
  rewrite !fieldValue_centre by lra.
  rewrite (norm3_x 0), (norm3_x 1), (norm3_y 1), (norm3_z 1) by lra.
  repeat f_equal; lra.
Qed.

Lemma coarse_cubeIndex : cubeIndexOf coarseParams centreValues = 1%Z.
Proof.
  pose proof (norm3_ge_1 1 1 0). pose proof (norm3_ge_1 1 0 1).
  pose proof (norm3_ge_1 1 1 1). pose proof (norm3_ge_1 0 1 1).
  unfold cubeIndexOf, centreValues.
  cbn [fold_left seq nth isoLevel coarseParams].
  repeat match goal with
         | |- context [Rlt_dec ?a ?b] =>
             destruct (Rlt_dec a b); [try (exfalso; lra) | try (exfalso; lra)]
         end.
  reflexivity.
Qed.

Lemma Rabs_half_l : 0.00001 <= Rabs (0.0 - -0.5).
Proof. rewrite Rabs_right; lra. Qed.

Lemma Rabs_half_r : 0.00001 <= Rabs (0.0 - 0.5).
Proof. rewrite Rabs_left; lra. Qed.

Lemma Rabs_one_l : 0.00001 <= Rabs (-0.5 - 0.5).
Proof. rewrite Rabs_left; lra. Qed.

Lemma Rabs_one_r : 0.00001 <= Rabs (0.5 - -0.5).
Proof. rewrite Rabs_right; lra. Qed.

(** The three edge points of the cell: the midpoints of the edges that
    leave the corner at the centre. *)
Lemma coarse_edges (s : Scratch) :
  let s1 := set_corners s centreCorners centreValues in
  let s2 := interpolateEdges coarseParams 265 s1 in
  edgeIntersection s2 0%nat = fresh_ref (vec3 0.5 0 0) /\
  edgeIntersection s2 3%nat = fresh_ref (vec3 0 0.5 0) /\
  edgeIntersection s2 8%nat = fresh_ref (vec3 0 0 0.5).
Proof.
  intros s1 s2.
  destruct (interpolateEdges_spec coarseParams 265 s1) as [_ [_ [_ He]]].
  fold s2 in He.
  rewrite (He 0%nat), (He 3%nat), (He 8%nat) by lia.
  change (edgeActive 265 0) with true. change (edgeActive 265 3) with true.
  change (edgeActive 265 8) with true. cbv iota.
  unfold edgePoint. cbn [nth edgeCorners fst snd s1 set_corners cornerValues centreValues].
  pose proof Rabs_half_l. pose proof Rabs_half_r.
  pose proof Rabs_one_l. pose proof Rabs_one_r.
  rewrite !interpolateVertex_crossing by assumption.
  cbn [deref s1 set_corners cornerPositions centreCorners nth isoLevel coarseParams].
  unfold Vector3.lerpVectors. cbn [vx vy vz].
  repeat split; f_equal; f_equal; lra.
Qed.

(** The cell at the centre appends one triangle, and writes the normal of
    its third vertex for all three vertices. *)
Lemma coarse_centre_cell (edgeTable : Z -> Z) (triTable : Z -> list Z)
    (s : Scratch) (buf : Buffers) :
  edgeTable 1%Z = 265%Z ->
  triTable 1%Z = oneTriangleRow 0 8 3 ->
  exists s',
    marchCell edgeTable triTable coarseParams [centreSphere 0.5] 1 1 1 (s, buf)
    = Some (s',
            mkBuffers (vertices buf ++ [0; 0.5; 0; 0; 0; 0.5; 0.5; 0; 0])
                      (normals buf ++ tripled (vec3 1 0 0))).
Proof.
  intros Hedge Htri. unfold marchCell.
  rewrite coarse_corners, coarse_values, coarse_cubeIndex, Hedge, Htri.
  change (Z.eqb 265 0) with false. cbv iota.
  destruct (coarse_edges s) as [E0 [E3 E8]].
  set (s2 := interpolateEdges coarseParams 265
               (set_corners s centreCorners centreValues)) in *.
  assert (A0 : edgeAt s2 0 = Some (fresh_ref (vec3 0.5 0 0)))
    by (change (edgeAt s2 0) with (Some (edgeIntersection s2 0%nat));
        rewrite E0; reflexivity).
  assert (A3 : edgeAt s2 3 = Some (fresh_ref (vec3 0 0.5 0)))
    by (change (edgeAt s2 3) with (Some (edgeIntersection s2 3%nat));
        rewrite E3; reflexivity).
  assert (A8 : edgeAt s2 8 = Some (fresh_ref (vec3 0 0 0.5)))
    by (change (edgeAt s2 8) with (Some (edgeIntersection s2 8%nat));
        rewrite E8; reflexivity).
  unfold oneTriangleRow. cbn [app repeat emitTriangles].
  change (Z.eqb 0 (-1)) with false. cbv iota.
  rewrite (emitTriangle_closed coarseParams [centreSphere 0.5] 0 8 3 s2 buf
             _ _ _ A3 A8 A0) by discriminate.
  change (Z.eqb (-1) (-1)) with true. cbv iota.
  cbn [deref].
  fold (normalAt coarseParams [centreSphere 0.5] (vec3 0.5 0 0)).
  rewrite centre_normal_x.
  eexists. f_equal. f_equal. f_equal.
  - unfold push3. cbn [vx vy vz]. rewrite <- !app_assoc. reflexivity.
  - unfold push3, tripled. cbn [vx vy vz]. rewrite <- !app_assoc. reflexivity.
Qed.

(** The emitter set [reseedSpheres(1)] creates under the coarse parameters
    when [Math.random()] keeps returning 0.5. *)
Lemma coarse_seed :
  spheres (reseedSpheres coarseParams 1 (initWorld (constRng 0.5)))
  = [centreSphere 0.5].
Proof.
  unfold reseedSpheres. change (Z.to_nat 1) with 1%nat.
  cbn [reseedLoop initWorld rng].
  unfold newSphere, random. cbv beta iota.
  rewrite randomPoint_eq. cbv beta iota.
  rewrite randomPoint_eq. cbv beta iota.
  unfold constRng. cbn [app spheres]. unfold centreSphere, resampleOf, zero3.
  cbn [volumeRadius smoothK targetRadius radiusVariance speed coarseParams].
  repeat f_equal; lra.
Qed.

End SharedNormal.

Section SharedNormalPass.

Variable edgeTable : Z -> Z.
Variable triTable : Z -> list Z.

Lemma marchCell_total (params : Params) (ss : list Sphere) (i j k : Z)
    (st : Scratch * Buffers) :
  tables_wf edgeTable triTable ->
  exists st', marchCell edgeTable triTable params ss i j k st = Some st'.
Proof.
  intros Hwf. destruct st as [s buf].
  destruct (marchCell_agree edgeTable triTable params ss ss i j k s s buf Hwf
              (fun pos => eq_refl)) as [s' [_ [buf' [Hrun _]]]].
  exists (s', buf'). exact Hrun.
Qed.

Lemma forEach_total {S : Type} (body : Z -> S -> option S) (l : list Z) :
  (forall i s, exists s', body i s = Some s') ->
  forall s, exists s', forEach l body s = Some s'.
Proof.
  intros Hbody s.
  destruct (forEach_invariant (fun _ => True) body l) with (s := s)
    as [s' [Hrun _]].
  - intros i s0 _ _. destruct (Hbody i s0) as [s1 H1]. exists s1. split; trivial.
  - trivial.
  - exists s'. exact Hrun.
Qed.

Lemma forEach_last {S : Type} (body : Z -> S -> option S) (x y : Z) (s s1 : S) :
  body x s = Some s1 -> forEach [x; y] body s = body y s1.
Proof.
  intros H. cbn [forEach]. rewrite H. destruct (body y s1); reflexivity.
Qed.

Lemma meshOf_snoc (params : Params) (ss : list Sphere) (tris : list Triangle)
    (a b c : Vec3) :
  mkBuffers
    (push3 (push3 (push3 (vertices (meshOf params ss tris)) a) b) c)
    (push3 (push3 (push3 (normals (meshOf params ss tris))
                         (normalAt params ss c))
                  (normalAt params ss c))
           (normalAt params ss c))
  = meshOf params ss (tris ++ [mkTriangle a b c]).
Proof.
  unfold meshOf, push3. cbn [vertices normals]. rewrite !flat_map_app.
  cbn [flat_map triangleCoords thirdVertexNormals tripled tv1 tv2 tv3].
  rewrite !app_nil_r, <- !app_assoc. reflexivity.
Qed.

(** On a well-formed row every triangle gets the normal of its third
    vertex for all three vertices. *)
Lemma emitTriangles_third_vertex (params : Params) (ss : list Sphere) (mask : Z) :
  forall (n : nat) (row : list Z) (s : Scratch) (tris : list Triangle),
    (length row <= n)%nat ->
    row_wf mask row = true ->
    (forall e, (e < 12)%nat -> edgeActive mask e = true ->
               edgeIntersection s e <> normal_h_ref) ->
    exists s' tris',
      emitTriangles params ss row (s, meshOf params ss tris)
      = Some (s', meshOf params ss tris').
Proof.
  induction n as [| n IH]; intros row s tris Hlen Hwf Hedges.
  - destruct row; [discriminate Hwf | cbn in Hlen; lia].
  - destruct row as [| a rest]; [discriminate Hwf |].
    cbn [emitTriangles row_wf] in *.
    destruct (Z.eqb a (-1)).
    + exists s, tris. reflexivity.
    + destruct rest as [| b [| c rest']]; try discriminate Hwf.
      apply andb_true_iff in Hwf. destruct Hwf as [Hwf Hrest].
      apply andb_true_iff in Hwf. destruct Hwf as [Hwf Hc].
      apply andb_true_iff in Hwf. destruct Hwf as [Ha Hb].
      destruct (activeEntry_edgeAt mask s a Ha) as [Ha1 [Hla Haa]].
      destruct (activeEntry_edgeAt mask s b Hb) as [Hb1 _].
      destruct (activeEntry_edgeAt mask s c Hc) as [Hc1 _].
      rewrite (emitTriangle_closed params ss a b c s _ _ _ _ Hc1 Hb1 Ha1
                 (Hedges _ Hla Haa)).
      fold (normalAt params ss (deref s (edgeIntersection s (Z.to_nat a)))).
      rewrite meshOf_snoc.
      apply IH; [cbn in Hlen; lia | assumption | exact Hedges].
Qed.

Lemma marchCell_third_vertex (params : Params) (ss : list Sphere) (i j k : Z)
    (s : Scratch) (tris : list Triangle) :
  tables_wf edgeTable triTable ->
  exists s' tris',
    marchCell edgeTable triTable params ss i j k (s, meshOf params ss tris)
    = Some (s', meshOf params ss tris').
Proof.
  intros Hwf. unfold marchCell.
  set (corners := cellCorners params i j k).
  set (values := map (fieldValue params ss) corners).
  set (cubeIndex := cubeIndexOf params values).
  destruct (Z.eqb (edgeTable cubeIndex) 0).
  - do 2 eexists. reflexivity.
  - apply (emitTriangles_third_vertex params ss (edgeTable cubeIndex)
             (length (triTable cubeIndex))).
    + lia.
    + apply Hwf. apply cubeIndexOf_range.
    + intros e He Hact.
      destruct (interpolateEdges_spec params (edgeTable cubeIndex)
                  (set_corners s corners values)) as [_ [_ [_ Hedge]]].
      rewrite (Hedge e He), Hact. apply edgePoint_not_normal_h.
Qed.

(** For every input, under well-formed tables, the pass runs to the end
    and the normal array holds, for every triangle of the position array,
    the normal at the third vertex of the triangle three times. *)
Lemma updateMesh_third_vertex_normals (params : Params) (ss : list Sphere)
    (s : Scratch) :
  tables_wf edgeTable triTable ->
  exists s' tris,
    updateMesh edgeTable triTable params ss s = Some (s', meshOf params ss tris).
Proof.
  intros Hwf. unfold updateMesh.
  set (P := fun st : Scratch * Buffers =>
              exists tris, snd st = meshOf params ss tris).
  assert (Hcell : forall i j k st, P st ->
            exists st', marchCell edgeTable triTable params ss i j k st = Some st'
                        /\ P st').
  { intros i j k [s0 buf] [tris Hbuf]. cbn [snd] in Hbuf. subst buf.
    destruct (marchCell_third_vertex params ss i j k s0 tris Hwf)
      as [s1 [tris' Hrun]].
    exists (s1, meshOf params ss tris'). split; [exact Hrun |].
    exists tris'. reflexivity. }
  destruct (forEach_invariant P
              (fun i => forEach (range (cellsPerAxis params))
                 (fun j => forEach (range (cellsPerAxis params))
                    (fun k => marchCell edgeTable triTable params ss i j k)))
              (range (cellsPerAxis params))) with (s := (s, mkBuffers [] []))
    as [[s' buf] [Hrun [tris Hbuf]]].
  - intros i st _ Hst. apply forEach_invariant; [| assumption].
    intros j st1 _ Hst1. apply forEach_invariant; [| assumption].
    intros k st2 _ Hst2. apply Hcell. assumption.
  - exists []. reflexivity.
  - cbn [snd] in Hbuf. subst buf. exists s', tris. exact Hrun.
Qed.

(** C1 fails on the code: on the 2 x 2 x 2 grid over [[-1, 1]^3] around
    one sphere of radius 0.5 at the centre, the last triangle of the pass
    has the vertices (0, 0.5, 0), (0, 0, 0.5) and (0.5, 0, 0), and the normal
    array holds (1, 0, 0) for all three of them: the normal of the third
    vertex.  The normals of the first and the second vertex, which the
    estimator computes as (0, 1, 0) and (0, 0, 1), are overwritten in the
    shared vector [normal_h] before they are copied out.  The tables are any
    well-formed ones with the canonical entries of case 1; [tris] are the
    triangles of the cells visited before. *)
Theorem updateMesh_shares_one_normal (s : Scratch) :
  tables_wf edgeTable triTable ->
  edgeTable 1%Z = 265%Z ->
  triTable 1%Z = oneTriangleRow 0 8 3 ->
  let ss := spheres (reseedSpheres coarseParams 1 (initWorld (constRng 0.5))) in
  (exists s' tris,
      updateMesh edgeTable triTable coarseParams ss s
      = Some (s',
              mkBuffers
                (flat_map triangleCoords tris ++ triangleCoords centreTriangle)
                (flat_map (thirdVertexNormals coarseParams ss) tris
                 ++ [1; 0; 0; 1; 0; 0; 1; 0; 0])))
  /\ normalAt coarseParams ss (tv1 centreTriangle) = vec3 0 1 0
  /\ normalAt coarseParams ss (tv2 centreTriangle) = vec3 0 0 1
  /\ normalAt coarseParams ss (tv3 centreTriangle) = vec3 1 0 0.
Proof.
  intros Hwf Hedge Htri. rewrite coarse_seed. cbv zeta.
  split; [| split; [apply centre_normal_y |
                    split; [apply centre_normal_z | apply centre_normal_x]]].
  unfold updateMesh.
  change (range (cellsPerAxis coarseParams)) with [0; 1]%Z.
  set (ss := [centreSphere 0.5]).
  set (cell := marchCell edgeTable triTable coarseParams ss).
  set (P := fun st : Scratch * Buffers =>
              exists tris, snd st = meshOf coarseParams ss tris).
  assert (Hcell : forall i j k st, P st ->
            exists st', cell i j k st = Some st' /\ P st').
  { intros i j k [s0 buf] [tris Hbuf]. cbn [snd] in Hbuf. subst buf.
    destruct (marchCell_third_vertex coarseParams ss i j k s0 tris Hwf)
      as [s1 [tris' Hrun]].
    exists (s1, meshOf coarseParams ss tris'). split; [exact Hrun |].
    exists tris'. reflexivity. }
  assert (Hk : forall i j st, P st ->
             exists st', forEach [0; 1]%Z (fun k => cell i j k) st = Some st'
                         /\ P st').
  { intros i j st Hst. apply forEach_invariant; [| assumption].
    intros k st' _ Hst'. apply Hcell. assumption. }
  assert (Hj : forall i st, P st ->
             exists st',
               forEach [0; 1]%Z
                 (fun j => forEach [0; 1]%Z (fun k => cell i j k)) st = Some st'
               /\ P st').
  { intros i st Hst. apply forEach_invariant; [| assumption].
    intros j st' _ Hst'. apply Hk. assumption. }
  assert (P0 : P (s, mkBuffers [] [])) by (exists []; reflexivity).
  destruct (Hj 0%Z _ P0) as [sta [Ha Pa]].
  rewrite (forEach_last
             (fun i => forEach [0; 1]%Z
                (fun j => forEach [0; 1]%Z (fun k => cell i j k)))
             0%Z 1%Z _ _ Ha).
  destruct (Hk 1%Z 0%Z sta Pa) as [stb [Hb Pb]].
  rewrite (forEach_last
             (fun j => forEach [0; 1]%Z (fun k => cell 1%Z j k))
             0%Z 1%Z _ _ Hb).
  destruct (Hcell 1%Z 1%Z 0%Z stb Pb) as [[sc bufc] [Hc [tris Pc]]].
  rewrite (forEach_last (fun k => cell 1%Z 1%Z k) 0%Z 1%Z _ _ Hc).
  cbn [snd] in Pc. subst bufc.
  destruct (coarse_centre_cell edgeTable triTable sc (meshOf coarseParams ss tris)
              Hedge Htri) as [s' Hrun].
  exists s', tris. exact Hrun.
Qed.

End SharedNormalPass.

(** * The tables used in the examples *)

Section ExampleTables.

Lemma canonical_tables_wf : tables_wf canonicalEdgeTable singleCornerTriTable.
Proof.
  intros c Hc.
  assert (H : forallb (fun c => row_wf (canonicalEdgeTable c)
                                       (singleCornerTriTable c))
                      (range 256) = true) by (vm_compute; reflexivity).
  rewrite forallb_forall in H. apply H. unfold range.
  replace c with (Z.of_nat (Z.to_nat c)) by lia.
  apply in_map. apply in_seq. lia.
Qed.

Lemma canonical_uniform_cases : uniform_cases_empty canonicalEdgeTable.
Proof. split; reflexivity. Qed.

Lemma sdf_centre (r : R) : sdf_of zero3 (centreSphere r) = - r.
Proof.
  unfold sdf_of, sdf_sphere, Vector3.distanceTo, centreSphere, zero3.
  cbn [position radius vx vy vz].
  replace ((0 - 0) * (0 - 0) + (0 - 0) * (0 - 0) + (0 - 0) * (0 - 0)) with 0
    by ring.
  rewrite sqrt_0. ring.
Qed.

Lemma fieldValue_refines_spec_witness :
  fieldValue coarseParams [centreSphere 0.5; centreSphere 0.25] zero3
  = fieldValue_spec coarseParams (centreSphere 0.5) [centreSphere 0.25] zero3.
Proof.
  apply fieldValue_refines_spec.
  - cbn. lra.
  - repeat constructor; rewrite sdf_centre; cbn; lra.
Defined.

Lemma fieldValue_le_min_sdf_witness :
  fieldValue coarseParams [centreSphere 0.5; centreSphere 0.25] zero3
  <= min_sdf zero3 (centreSphere 0.5) [centreSphere 0.25]
  /\ Forall (fun sphere =>
               fieldValue coarseParams [centreSphere 0.5; centreSphere 0.25] zero3
               <= sdf_of zero3 sphere)
            [centreSphere 0.5; centreSphere 0.25]
  /\ (forall a b k : R, 0 < k -> smin a b k <= Rmin a b).
Proof. apply fieldValue_le_min_sdf. cbn. lra. Defined.

Lemma updateSpheres_advanced_witness :
  advancedAll defaultParams 0.016 (spheres travellers) (rng travellers)
              (spheres (updateSpheres defaultParams 0.016 travellers))
              (rng (updateSpheres defaultParams 0.016 travellers))
  /\ rng_ok (rng (updateSpheres defaultParams 0.016 travellers)).
Proof. apply updateSpheres_advanced. exact harmonicRng_ok. Defined.

Lemma tick_zero_same_mesh_witness :
  exists w1 w2,
    tick canonicalEdgeTable singleCornerTriTable defaultParams 0.016 exampleWorld
    = Some w1 /\
    tick canonicalEdgeTable singleCornerTriTable defaultParams 0 w1 = Some w2 /\
    map position (spheres w2) = map position (spheres w1) /\
    length (vertices (geometry w2)) = length (vertices (geometry w1)) /\
    vertices (geometry w2) = vertices (geometry w1) /\
    normals (geometry w2) = normals (geometry w1).
Proof. apply tick_zero_same_mesh. apply canonical_tables_wf. Defined.

Lemma updateMesh_no_emitters_witness :
  (forall pos, fieldValue defaultParams [] pos = 1e9)
  /\ (forall i j k,
        cubeIndexOf defaultParams
          (map (fieldValue defaultParams []) (cellCorners defaultParams i j k))
        = 0%Z)
  /\ exists s',
      updateMesh canonicalEdgeTable singleCornerTriTable defaultParams []
                 initScratch
      = Some (s', mkBuffers [] []).
Proof.
  apply updateMesh_no_emitters.
  - cbn. lra.
  - reflexivity.
Defined.

Lemma updateMesh_degenerate_input_witness :
  exists s',
    updateMesh canonicalEdgeTable singleCornerTriTable noCellParams
               [centreSphere 0.0125] initScratch
    = Some (s', mkBuffers [] []).
Proof.
  apply updateMesh_degenerate_input.
  - apply canonical_uniform_cases.
  - right. cbn. lia.
Defined.

(** C2 as stated fails: with the default parameters and no emitter, and
    with one emitter on a grid of zero cells, [updateMesh] does not throw;
    it returns empty arrays. *)
Lemma updateMesh_accepts_degenerate_input :
  ~ rejected (updateMesh canonicalEdgeTable singleCornerTriTable
                         defaultParams [] initScratch)
  /\ (exists s',
        updateMesh canonicalEdgeTable singleCornerTriTable defaultParams []
                   initScratch
        = Some (s', mkBuffers [] []))
  /\ ~ rejected (updateMesh canonicalEdgeTable singleCornerTriTable
                            noCellParams [centreSphere 0.0125] initScratch)
  /\ updateMesh canonicalEdgeTable singleCornerTriTable noCellParams
                [centreSphere 0.0125] initScratch
     = Some (initScratch, mkBuffers [] []).
Proof.
  destruct (updateMesh_nil canonicalEdgeTable singleCornerTriTable
              defaultParams initScratch canonical_uniform_cases) as [s' Hrun].
  split; [unfold rejected; rewrite Hrun; discriminate |].
  split; [exists s'; exact Hrun |].
  split; [unfold rejected; discriminate | reflexivity].
Qed.

Lemma updateMesh_shares_one_normal_witness :
  let ss := spheres (reseedSpheres coarseParams 1 (initWorld (constRng 0.5))) in
  (exists s' tris,
      updateMesh canonicalEdgeTable singleCornerTriTable coarseParams ss
                 initScratch
      = Some (s',
              mkBuffers
                (flat_map triangleCoords tris ++ triangleCoords centreTriangle)
                (flat_map (thirdVertexNormals coarseParams ss) tris
                 ++ [1; 0; 0; 1; 0; 0; 1; 0; 0])))
  /\ normalAt coarseParams ss (tv1 centreTriangle) = vec3 0 1 0
  /\ normalAt coarseParams ss (tv2 centreTriangle) = vec3 0 0 1
  /\ normalAt coarseParams ss (tv3 centreTriangle) = vec3 1 0 0.
Proof.
  apply updateMesh_shares_one_normal.
  - apply canonical_tables_wf.
  - reflexivity.
  - reflexivity.
Defined.

End ExampleTables.


(** * A frame of three emitters *)

Section TravellersFrame.

Variable params : Params.
Variable dt : R.

Lemma updateSphere_near (e : Sphere) (g : Rng) :
  Vector3.length (Vector3.subVectors (target e) (position e)) < 0.001 ->
  updateSphere params dt e g
  = (mkSphere (position e)
       (resampleOf (bounds params) (g 0%nat) (g 1%nat) (g 2%nat))
       (radius e) (sphere_speed e),
     after_draws 3 g).
Proof.
  intros Hnear. unfold updateSphere. cbv zeta.
  destruct (Rlt_dec _ 0.001) as [_ | Hfar]; [| contradiction].
  rewrite randomPoint_eq. reflexivity.
Qed.

Lemma updateSphere_snap (e : Sphere) (g : Rng) :
  ~ Vector3.length (Vector3.subVectors (target e) (position e)) < 0.001 ->
  sphere_speed e * dt
  >= Vector3.length (Vector3.subVectors (target e) (position e)) ->
  updateSphere params dt e g
  = (mkSphere (target e)
       (resampleOf (bounds params) (g 0%nat) (g 1%nat) (g 2%nat))
       (radius e) (sphere_speed e),
     after_draws 3 g).
Proof.
  intros Hfar Hreach. unfold updateSphere. cbv zeta.
  destruct (Rlt_dec _ 0.001) as [Hnear | _]; [contradiction |].
  destruct (Rge_dec _ _) as [_ | Hshort]; [| contradiction].
  rewrite randomPoint_eq. reflexivity.
Qed.

Lemma updateSphere_move (e : Sphere) (g : Rng) :
  ~ Vector3.length (Vector3.subVectors (target e) (position e)) < 0.001 ->
  ~ sphere_speed e * dt
    >= Vector3.length (Vector3.subVectors (target e) (position e)) ->
  updateSphere params dt e g
  = (mkSphere
       (Vector3.add (position e)
          (Vector3.multiplyScalar
             (Vector3.normalize (Vector3.subVectors (target e) (position e)))
             (sphere_speed e * dt)))
       (target e) (radius e) (sphere_speed e),
     g).
Proof.
  intros Hfar Hshort. unfold updateSphere. cbv zeta.
  destruct (Rlt_dec _ 0.001) as [Hnear | _]; [contradiction |].
  destruct (Rge_dec _ _) as [Hreach | _]; [contradiction |].
  reflexivity.
Qed.

End TravellersFrame.

Lemma from_centre (a : R) :
  Vector3.subVectors (vec3 a 0 0) zero3 = vec3 a 0 0.
Proof. unfold Vector3.subVectors, zero3. cbn [vx vy vz]. f_equal; ring. Qed.

Lemma length_at_target (p : Vec3) :
  Vector3.length (Vector3.subVectors p p) = 0.
Proof.
  unfold Vector3.length, Vector3.subVectors. cbn [vx vy vz].
  replace ((vx p - vx p) * (vx p - vx p) + (vy p - vy p) * (vy p - vy p)
           + (vz p - vz p) * (vz p - vz p)) with 0 by ring.
  apply sqrt_0.
Qed.

Lemma length_along_x (a : R) : 0 <= a -> Vector3.length (vec3 a 0 0) = a.
Proof.
  intros Ha. unfold Vector3.length. cbn [vx vy vz].
  fold (norm3 a 0 0). apply norm3_x. exact Ha.
Qed.

(** One frame of 0.016 s on the three travellers: the resting emitter gets
    a target from the first three numbers of the generator, the second
    emitter moves by [0.15 * 0.016] towards its target and draws nothing,
    and the third reaches its target and gets a new one from the next
    three numbers. *)
Lemma travellers_frame :
  spheres (updateSpheres defaultParams 0.016 travellers)
  = [ mkSphere zero3
        (resampleOf (bounds defaultParams)
           (harmonicRng 0%nat) (harmonicRng 1%nat) (harmonicRng 2%nat))
        0.0125 0.15;
      mkSphere (vec3 0.0024 0 0) (vec3 0.05 0 0) 0.0125 0.15;
      mkSphere (vec3 0.001 0 0)
        (resampleOf (bounds defaultParams)
           (harmonicRng 3%nat) (harmonicRng 4%nat) (harmonicRng 5%nat))
        0.0125 0.15 ]
  /\ rng (updateSpheres defaultParams 0.016 travellers)
     = after_draws 6 harmonicRng.
Proof.
  unfold updateSpheres, travellers. cbn [spheres rng updateLoop].
  rewrite updateSphere_near.
  2:{ cbn [target position]. rewrite length_at_target. lra. }
  rewrite updateSphere_move.
  2:{ cbn [target position]. rewrite from_centre, length_along_x by lra. lra. }
  2:{ cbn [target position sphere_speed].
      rewrite from_centre, length_along_x by lra. lra. }
  rewrite updateSphere_snap.
  2:{ cbn [target position]. rewrite from_centre, length_along_x by lra. lra. }
  2:{ cbn [target position sphere_speed].
      rewrite from_centre, length_along_x by lra. lra. }
  cbn [spheres rng position target radius sphere_speed].
  split; [| reflexivity].
  rewrite from_centre, normalize_x by lra.
  unfold after_draws, Vector3.add, Vector3.multiplyScalar, zero3.
  cbn [vx vy vz Nat.add].
  replace (0 + 1 * (0.15 * 0.016)) with 0.0024 by lra.
  replace (0 + 0 * (0.15 * 0.016)) with 0 by lra.
  reflexivity.
Qed.

(** Every point of the half-open cube [[-b, b)^3] is the image of exactly
    one triple of draws: resampling maps the draws onto the cube by an
    affine bijection. *)
Lemma resampleOf_onto (b : R) (t : Vec3) :
  0 < b ->
  - b <= vx t < b -> - b <= vy t < b -> - b <= vz t < b ->
  exists u1 u2 u3,
    unit_draw u1 /\ unit_draw u2 /\ unit_draw u3 /\
    t = resampleOf b u1 u2 u3 /\
    forall v1 v2 v3,
      t = resampleOf b v1 v2 v3 -> v1 = u1 /\ v2 = u2 /\ v3 = u3.
Proof.
  intros Hb Hx Hy Hz. destruct t as [x y z]. cbn [vx vy vz] in *.
  assert (Hdraw : forall c, - b <= c < b ->
            unit_draw (c / (2 * b) + 0.5)
            /\ (c / (2 * b) + 0.5 - 0.5) * b * 2 = c).
  { intros c Hc. set (q := c / (2 * b)).
    assert (Hq : q * (2 * b) = c) by (unfold q; field; lra).
    unfold unit_draw. split; [split; nra | nra]. }
  destruct (Hdraw x Hx) as [Ux Ex].
  destruct (Hdraw y Hy) as [Uy Ey].
  destruct (Hdraw z Hz) as [Uz Ez].
  exists (x / (2 * b) + 0.5), (y / (2 * b) + 0.5), (z / (2 * b) + 0.5).
  split; [exact Ux |]. split; [exact Uy |]. split; [exact Uz |].
  split.
  - unfold resampleOf. rewrite Ex, Ey, Ez. reflexivity.
  - intros v1 v2 v3 Hv. unfold resampleOf in Hv.
    injection Hv as Hv1 Hv2 Hv3.
    rewrite <- Ex in Hv1 at 1. rewrite <- Ey in Hv2 at 1.
    rewrite <- Ez in Hv3 at 1.
    repeat split; nra.
Qed.


(** * Further properties of the field model *)

Section FieldModelMore.

Lemma clamp_complement (x : R) :
  Rmax 0 (Rmin 1 (1 - x)) = 1 - Rmax 0 (Rmin 1 x).
Proof.
  destruct (Rle_dec x 0) as [Hlo | Hlo].
  - rewrite (Rmin_left 1 (1 - x)), (Rmin_right 1 x) by lra.
    rewrite (Rmax_right 0 1), (Rmax_left 0 x) by lra. lra.
  - destruct (Rle_dec 1 x) as [Hhi | Hhi].
    + rewrite (Rmin_right 1 (1 - x)), (Rmin_left 1 x) by lra.
      rewrite (Rmax_left 0 (1 - x)), (Rmax_right 0 1) by lra. lra.
    + rewrite (Rmin_right 1 (1 - x)), (Rmin_right 1 x) by lra.
      rewrite (Rmax_right 0 (1 - x)), (Rmax_right 0 x) by lra. lra.
Qed.

(** X1: [smin] is symmetric in its two distances, for every [k]. *)
Theorem smin_comm (a b k : R) : smin a b k = smin b a k.
Proof.
  unfold smin.
  replace (0.5 + 0.5 * (a - b) / k) with (1 - (0.5 + 0.5 * (b - a) / k))
    by (unfold Rdiv; lra).
  rewrite clamp_complement.
  set (h := Rmax 0 (Rmin 1 (0.5 + 0.5 * (b - a) / k))).
  ring.
Qed.

Lemma smin_lower (a b k : R) : 0 < k -> Rmin a b - k / 4 <= smin a b k.
Proof.
  intros Hk. unfold smin.
  destruct (smin_blend_factor a b k Hk) as [[Hd Hh] | [[Hd Hh] | [Hd [Hh Hr]]]];
    cbv zeta in Hh.
  - rewrite Hh. rewrite Rmin_right by lra. lra.
  - rewrite Hh. rewrite Rmin_left by lra. lra.
  - set (h := Rmax 0 (Rmin 1 (0.5 + 0.5 * (b - a) / k))) in *.
    unfold Rmin. destruct (Rle_dec a b) as [Hab | Hab].
    + replace (a * h + b * (1 - h) - k * h * (1 - h))
        with (a - k * ((1 - h) * (1 - h)))
        by (replace b with (a + k * (2 * h - 1)) by lra; ring).
      assert (Hh2 : 0.5 <= h) by nra.
      assert ((1 - h) * (1 - h) <= 0.25) by nra.
      nra.
    + replace (a * h + b * (1 - h) - k * h * (1 - h))
        with (b - k * (h * h))
        by (replace a with (b - k * (2 * h - 1)) by lra; ring).
      assert (Hh2 : h <= 0.5) by nra.
      assert (h * h <= 0.25) by nra.
      nra.
Qed.

(** X2: for [k > 0] the smooth minimum undercuts the minimum by at most
    [k / 4], and it is the minimum itself once the two distances differ by
    [k] or more. *)
Theorem smin_near_min (a b k : R) :
  0 < k ->
  Rmin a b - k / 4 <= smin a b k
  /\ (k <= Rabs (a - b) -> smin a b k = Rmin a b).
Proof.
  intros Hk. split; [apply smin_lower; assumption |].
  intros Hfar. unfold smin.
  destruct (smin_blend_factor a b k Hk) as [[Hd Hh] | [[Hd Hh] | [Hd _]]].
  - cbv zeta in Hh. rewrite Hh. rewrite Rmin_right by lra. lra.
  - cbv zeta in Hh. rewrite Hh. rewrite Rmin_left by lra. lra.
  - exfalso. unfold Rabs in Hfar. destruct (Rcase_abs (a - b)); lra.
Qed.

Lemma smin_near_min_witness :
  Rmin 1 2 - 0.5 / 4 <= smin 1 2 0.5
  /\ (0.5 <= Rabs (1 - 2) -> smin 1 2 0.5 = Rmin 1 2).
Proof. apply smin_near_min. lra. Defined.

Lemma fieldValue_snoc (params : Params) (ss : list Sphere) (e : Sphere)
    (pos : Vec3) :
  fieldValue params (ss ++ [e]) pos
  = smin (fieldValue params ss pos) (sdf_of pos e) (smoothK params).
Proof. unfold fieldValue. rewrite fold_left_app. reflexivity. Qed.

Lemma fold_smin_le_seed (k : R) (pos : Vec3) (ss : list Sphere) :
  0 < k ->
  forall d0,
    fold_left (fun d sphere =>
                 smin d (sdf_sphere pos (position sphere) (radius sphere)) k)
              ss d0 <= d0.
Proof.
  intros Hk. induction ss as [| e ss IH]; intros d0; cbn [fold_left]; [lra |].
  eapply Rle_trans; [apply IH |]. apply smin_le_both. assumption.
Qed.

Lemma fold_smin_mono (k : R) (pos : Vec3) (ss : list Sphere) :
  0 < k ->
  forall d0 d1, d0 <= d1 ->
    fold_left (fun d sphere =>
                 smin d (sdf_sphere pos (position sphere) (radius sphere)) k)
              ss d0
    <= fold_left (fun d sphere =>
                    smin d (sdf_sphere pos (position sphere) (radius sphere)) k)
                 ss d1.
Proof.
  intros Hk. induction ss as [| e ss IH]; intros d0 d1 Hd; cbn [fold_left];
    [assumption |].
  apply IH.
  (* smin is monotone in its first argument *)
  set (c := sdf_sphere pos (position e) (radius e)).
  unfold smin.
  destruct (smin_blend_factor d0 c k Hk) as [[A0 H0] | [[A0 H0] | [A0 [H0 R0]]]];
    destruct (smin_blend_factor d1 c k Hk) as [[A1 H1] | [[A1 H1] | [A1 [H1 R1]]]];
    cbv zeta in *;
    set (h0 := Rmax 0 (Rmin 1 (0.5 + 0.5 * (c - d0) / k))) in *;
    set (h1 := Rmax 0 (Rmin 1 (0.5 + 0.5 * (c - d1) / k))) in *;
    try (rewrite H0); try (rewrite H1); try lra.
  - (* d0 is cut off at d0, d1 blends *)
    replace (d1 * h1 + c * (1 - h1) - k * h1 * (1 - h1))
      with (d1 - k * (1 - h1) * (1 - h1))
      by (replace c with (d1 + k * (2 * h1 - 1)) by lra; ring).
    assert (d1 - d0 >= k * (1 - h1) * (1 - h1)); [| lra].
    assert (Hgap : d1 - d0 >= 2 * k * (1 - h1)) by nra.
    nra.
  - (* d0 blends, d1 is cut off at c *)
    replace (d0 * h0 + c * (1 - h0) - k * h0 * (1 - h0))
      with (c - k * h0 * h0) by (replace c with (d0 + k * (2 * h0 - 1)) by lra; ring).
    nra.
  - (* both blend *)
    replace (d0 * h0 + c * (1 - h0) - k * h0 * (1 - h0))
      with (c - k * h0 * h0) by (replace c with (d0 + k * (2 * h0 - 1)) by lra; ring).
    replace (d1 * h1 + c * (1 - h1) - k * h1 * (1 - h1))
      with (c - k * h1 * h1) by (replace c with (d1 + k * (2 * h1 - 1)) by lra; ring).
    assert (h1 <= h0) by nra.
    nra.
Qed.

(** X3: for [k > 0], putting one more emitter anywhere into the list
    never raises the field at any point. *)
Theorem fieldValue_more_emitters (params : Params) (before after : list Sphere)
    (e : Sphere) (pos : Vec3) :
  0 < smoothK params ->
  fieldValue params (before ++ e :: after) pos
  <= fieldValue params (before ++ after) pos.
Proof.
  intros Hk. unfold fieldValue. rewrite !fold_left_app. cbn [fold_left].
  apply fold_smin_mono; [assumption |].
  apply smin_le_both. assumption.
Qed.

Lemma fieldValue_more_emitters_witness :
  fieldValue defaultParams ([centreSphere 0.5] ++ centreSphere 0.25 :: []) zero3
  <= fieldValue defaultParams ([centreSphere 0.5] ++ []) zero3.
Proof. apply fieldValue_more_emitters. cbn. lra. Defined.

Lemma fieldValue_le_member (params : Params) (ss : list Sphere) (e : Sphere)
    (pos : Vec3) :
  0 < smoothK params -> In e ss ->
  fieldValue params ss pos <= sdf_of pos e.
Proof.
  intros Hk Hin. apply in_split in Hin. destruct Hin as [l1 [l2 ->]].
  unfold fieldValue. rewrite fold_left_app. cbn [fold_left].
  eapply Rle_trans; [apply fold_smin_le_seed; assumption |].
  apply smin_le_both. assumption.
Qed.

(** X4: for [k > 0] the field is negative at every point strictly inside
    the sphere of some emitter, so with an iso level of 0 or more the blended
    surface encloses every emitter sphere. *)
Theorem fieldValue_inside_sphere (params : Params) (ss : list Sphere)
    (e : Sphere) (pos : Vec3) :
  0 < smoothK params ->
  In e ss ->
  Vector3.distanceTo pos (position e) < radius e ->
  fieldValue params ss pos < 0
  /\ (0 <= isoLevel params -> fieldValue params ss pos < isoLevel params).
Proof.
  intros Hk Hin Hinside.
  pose proof (fieldValue_le_member params ss e pos Hk Hin) as Hle.
  unfold sdf_of, sdf_sphere in Hle. split; [lra | intros; lra].
Qed.

Lemma fieldValue_inside_sphere_witness :
  fieldValue defaultParams [centreSphere 0.5] zero3 < 0
  /\ (0 <= isoLevel defaultParams ->
      fieldValue defaultParams [centreSphere 0.5] zero3 < isoLevel defaultParams).
Proof.
  apply (fieldValue_inside_sphere defaultParams [centreSphere 0.5]
           (centreSphere 0.5) zero3).
  - cbn. lra.
  - left. reflexivity.
  - unfold Vector3.distanceTo, centreSphere, zero3. cbn [position radius vx vy vz].
    replace ((0 - 0) * (0 - 0) + (0 - 0) * (0 - 0) + (0 - 0) * (0 - 0)) with 0
      by ring.
    rewrite sqrt_0. lra.
Defined.

Lemma fold_Rmin_shift (ds : list R) (c : R) :
  0 <= c -> forall u, fold_left Rmin ds u - c <= fold_left Rmin ds (u - c).
Proof.
  intros Hc. induction ds as [| x ds IH]; intros u; cbn [fold_left]; [lra |].
  eapply Rle_trans; [apply IH |].
  apply fold_Rmin_mono. unfold Rmin.
  destruct (Rle_dec u x); destruct (Rle_dec (u - c) x); lra.
Qed.

Lemma smin_fold_ge (k : R) (ds : list R) :
  0 < k ->
  forall d0,
    fold_left Rmin ds d0 - INR (length ds) * (k / 4)
    <= fold_left (fun d di => smin d di k) ds d0.
Proof.
  intros Hk. induction ds as [| x ds IH]; intros d0.
  - cbn. lra.
  - cbn [fold_left]. change (length (x :: ds)) with (S (length ds)).
    rewrite S_INR.
    eapply Rle_trans; [| apply IH].
    pose proof (smin_lower d0 x k Hk) as Hlow.
    assert (Hstep : fold_left Rmin ds (Rmin d0 x) - k / 4
                    <= fold_left Rmin ds (smin d0 x k)).
    { eapply Rle_trans; [apply fold_Rmin_shift; lra |].
      apply fold_Rmin_mono. exact Hlow. }
    lra.
Qed.

(** X5: for [k > 0] and a first emitter whose signed distance is at most
    [1e9 - k], the field of [n + 1] emitters lies at most [n * k / 4] below
    the least signed distance. *)
Theorem fieldValue_ge_min_sdf (params : Params) (emitter_0 : Sphere)
    (rest : list Sphere) (pos : Vec3) :
  0 < smoothK params ->
  sdf_of pos emitter_0 <= 1e9 - smoothK params ->
  min_sdf pos emitter_0 rest - INR (length rest) * (smoothK params / 4)
  <= fieldValue params (emitter_0 :: rest) pos.
Proof.
  intros Hk Hfirst. rewrite fieldValue_cons, fold_smin_map.
  rewrite smin_sentinel by assumption.
  unfold min_sdf. rewrite <- (length_map (sdf_of pos) rest).
  apply smin_fold_ge. assumption.
Qed.

Lemma fieldValue_ge_min_sdf_witness :
  min_sdf zero3 (centreSphere 0.5) [centreSphere 0.25]
  - INR (length [centreSphere 0.25]) * (smoothK defaultParams / 4)
  <= fieldValue defaultParams [centreSphere 0.5; centreSphere 0.25] zero3.
Proof.
  apply fieldValue_ge_min_sdf.
  - cbn. lra.
  - rewrite sdf_centre. cbn. lra.
Defined.

End FieldModelMore.


(** * Further properties of the normal estimator and the triangulator *)

Section TriangulatorMore.

Lemma sum_squares_nonneg (x y z : R) : 0 <= x * x + y * y + z * z.
Proof. nra. Qed.

Lemma length_scale (v : Vec3) (c : R) :
  Vector3.length (Vector3.multiplyScalar v c) = Rabs c * Vector3.length v.
Proof.
  unfold Vector3.length, Vector3.multiplyScalar. cbn [vx vy vz].
  replace (vx v * c * (vx v * c) + vy v * c * (vy v * c) + vz v * c * (vz v * c))
    with (Rsqr c * (vx v * vx v + vy v * vy v + vz v * vz v))
    by (unfold Rsqr; ring).
  rewrite sqrt_mult; [| apply Rle_0_sqr | apply sum_squares_nonneg].
  rewrite sqrt_Rsqr_abs. reflexivity.
Qed.

Lemma length_zero (v : Vec3) : Vector3.length v = 0 -> v = zero3.
Proof.
  unfold Vector3.length. intros H.
  apply sqrt_eq_0 in H; [| apply sum_squares_nonneg].
  destruct v as [x y z]. cbn [vx vy vz] in H. unfold zero3.
  assert (x = 0) by nra. assert (y = 0) by nra. assert (z = 0) by nra.
  subst. reflexivity.
Qed.

Lemma normalize_length (v : Vec3) :
  Vector3.length v <> 0 -> Vector3.length (Vector3.normalize v) = 1.
Proof.
  intros Hv. rewrite normalize_unit by assumption. unfold unit_vector.
  rewrite length_scale.
  pose proof (length_nonneg v) as Hpos.
  assert (Hl : 0 < Vector3.length v) by lra.
  rewrite Rabs_right.
  - field. lra.
  - apply Rle_ge. apply Rlt_le. apply Rdiv_lt_0_compat; lra.
Qed.

Lemma normalize_zero (v : Vec3) :
  Vector3.length v = 0 -> Vector3.normalize v = zero3.
Proof.
  intros Hv. pose proof (length_zero v Hv) as ->.
  unfold Vector3.normalize. rewrite Hv.
  destruct (Req_dec_T 0 0) as [_ | Hne]; [| contradiction].
  unfold Vector3.divideScalar, Vector3.multiplyScalar, zero3. cbn [vx vy vz].
  f_equal; lra.
Qed.

(** X6: [estimateNormal] returns the shared vector [normal_h] holding a
    vector of length 1, or the zero vector when the central differences all
    vanish (the division by the length is skipped then); the corner and edge
    slots of the scratch state are left as they were. *)
Theorem estimateNormal_unit_or_zero (params : Params) (ss : list Sphere)
    (s : Scratch) (pos : vref) :
  let g := gradient params ss (deref s pos) in
  let s' := snd (estimateNormal params ss s pos) in
  fst (estimateNormal params ss s pos) = normal_h_ref
  /\ (g <> zero3 -> Vector3.length (normal_h s') = 1)
  /\ (g = zero3 -> normal_h s' = zero3)
  /\ cornerPositions s' = cornerPositions s
  /\ cornerValues s' = cornerValues s
  /\ edgeIntersection s' = edgeIntersection s.
Proof.
  cbv zeta. cbn [estimateNormal fst snd set_normal_h normal_h cornerPositions
    cornerValues edgeIntersection].
  split; [reflexivity |]. split; [| split; [| repeat split]].
  - intros Hg. apply normalize_length. intros Hl. apply Hg.
    apply length_zero. assumption.
  - intros ->. apply normalize_zero. unfold Vector3.length, zero3.
    cbn [vx vy vz]. replace (0 * 0 + 0 * 0 + 0 * 0) with 0 by ring.
    apply sqrt_0.
Qed.

Lemma lerp_start (a b : Vec3) : Vector3.lerpVectors a b 0 = a.
Proof.
  destruct a, b. unfold Vector3.lerpVectors. cbn [vx vy vz]. f_equal; ring.
Qed.

Lemma lerp_end (a b : Vec3) : Vector3.lerpVectors a b 1 = b.
Proof.
  destruct a, b. unfold Vector3.lerpVectors. cbn [vx vy vz]. f_equal; ring.
Qed.

Lemma interpolateVertex_segment (params : Params) (s : Scratch)
    (p1 p2 : vref) (v1 v2 : R) :
  Rmin v1 v2 <= isoLevel params <= Rmax v1 v2 ->
  exists t,
    0 <= t <= 1 /\
    deref s (interpolateVertex params s p1 p2 v1 v2)
    = Vector3.lerpVectors (deref s p1) (deref s p2) t /\
    Rabs (v1 + (v2 - v1) * t - isoLevel params) < 0.00001.
Proof.
  intros Hiso. unfold interpolateVertex.
  destruct (Rlt_dec (Rabs (isoLevel params - v1)) 0.00001) as [H1 | H1].
  { exists 0. split; [lra |]. split; [symmetry; apply lerp_start |].
    replace (v1 + (v2 - v1) * 0 - isoLevel params) with (- (isoLevel params - v1))
      by ring.
    rewrite Rabs_Ropp. assumption. }
  destruct (Rlt_dec (Rabs (isoLevel params - v2)) 0.00001) as [H2 | H2].
  { exists 1. split; [lra |]. split; [symmetry; apply lerp_end |].
    replace (v1 + (v2 - v1) * 1 - isoLevel params) with (- (isoLevel params - v2))
      by ring.
    rewrite Rabs_Ropp. assumption. }
  assert (Hn1 : 0.00001 <= Rabs (isoLevel params - v1)) by lra.
  assert (Hn2 : 0.00001 <= Rabs (isoLevel params - v2)) by lra.
  unfold Rabs in Hn1, Hn2.
  destruct (Rcase_abs (isoLevel params - v1));
    destruct (Rcase_abs (isoLevel params - v2));
    unfold Rmin, Rmax in Hiso; destruct (Rle_dec v1 v2); try lra.
  - (* v2 < iso < v1 *)
    destruct (Rlt_dec (Rabs (v1 - v2)) 0.00001) as [H3 | _].
    { exfalso. rewrite Rabs_right in H3 by lra. lra. }
    cbn [deref].
    set (t := (isoLevel params - v1) / (v2 - v1)).
    assert (Ht : t * (v2 - v1) = isoLevel params - v1)
      by (unfold t; field; lra).
    exists t. split; [nra |]. split; [reflexivity |].
    replace (v1 + (v2 - v1) * t - isoLevel params) with 0 by lra.
    rewrite Rabs_R0. lra.
  - (* v1 < iso < v2 *)
    destruct (Rlt_dec (Rabs (v1 - v2)) 0.00001) as [H3 | _].
    { exfalso. rewrite Rabs_left in H3 by lra. lra. }
    cbn [deref].
    set (t := (isoLevel params - v1) / (v2 - v1)).
    assert (Ht : t * (v2 - v1) = isoLevel params - v1)
      by (unfold t; field; lra).
    exists t. split; [nra |]. split; [reflexivity |].
    replace (v1 + (v2 - v1) * t - isoLevel params) with 0 by lra.
    rewrite Rabs_R0. lra.
Qed.

(** X7: when the iso level lies between the two corner values of an edge,
    the point [interpolateVertex] returns lies on the segment from [p1] to
    [p2], at a parameter [t] in [[0, 1]] at which the linear interpolation of
    the two values is within [1e-5] of the iso level. *)
Theorem interpolateVertex_on_segment (params : Params) (s : Scratch)
    (p1 p2 : vref) (v1 v2 : R) :
  Rmin v1 v2 <= isoLevel params <= Rmax v1 v2 ->
  exists t,
    0 <= t <= 1 /\
    deref s (interpolateVertex params s p1 p2 v1 v2)
    = Vector3.lerpVectors (deref s p1) (deref s p2) t /\
    Rabs (v1 + (v2 - v1) * t - isoLevel params) < 0.00001.
Proof.
  intros Hiso.
  destruct (interpolateVertex_segment params s p1 p2 v1 v2 Hiso)
    as [t [Ht [Hp Hv]]].
  exists t. split; [exact Ht |]. split; [exact Hp | exact Hv].
Qed.

Lemma interpolateVertex_on_segment_witness :
  exists t,
    0 <= t <= 1 /\
    deref initScratch
      (interpolateVertex defaultParams initScratch
         (corner_ref 0) (corner_ref 1) (-0.5) 0.5)
    = Vector3.lerpVectors (deref initScratch (corner_ref 0))
                          (deref initScratch (corner_ref 1)) t /\
    Rabs (-0.5 + (0.5 - -0.5) * t - isoLevel defaultParams) < 0.00001.
Proof.
  apply interpolateVertex_on_segment.
  rewrite Rmin_left, Rmax_right by lra. cbn. lra.
Defined.

Lemma cubeIndexOf_testbit (params : Params) (values : list R) (c : nat) :
  (c < 8)%nat ->
  Z.testbit (cubeIndexOf params values) (Z.of_nat c) = true
  <-> nth c values 0 < isoLevel params.
Proof.
  intros Hc. unfold cubeIndexOf. cbn [fold_left seq].
  destruct (Rlt_dec (nth 0 values 0) (isoLevel params));
  destruct (Rlt_dec (nth 1 values 0) (isoLevel params));
  destruct (Rlt_dec (nth 2 values 0) (isoLevel params));
  destruct (Rlt_dec (nth 3 values 0) (isoLevel params));
  destruct (Rlt_dec (nth 4 values 0) (isoLevel params));
  destruct (Rlt_dec (nth 5 values 0) (isoLevel params));
  destruct (Rlt_dec (nth 6 values 0) (isoLevel params));
  destruct (Rlt_dec (nth 7 values 0) (isoLevel params));
  do 8 (destruct c as [| c];
        [cbn; split; intros Hbit;
         solve [assumption | reflexivity | discriminate | contradiction] |]);
  lia.
Qed.

(** X8: the case index of a cell is an 8-bit number whose bit [c] is set
    exactly when the value at corner [c] is below the iso level. *)
Theorem cubeIndexOf_bits (params : Params) (values : list R) (c : nat) :
  (c < 8)%nat ->
  (0 <= cubeIndexOf params values < 256)%Z
  /\ (Z.testbit (cubeIndexOf params values) (Z.of_nat c) = true
      <-> nth c values 0 < isoLevel params).
Proof.
  intros Hc. split.
  - apply cubeIndexOf_range.
  - apply cubeIndexOf_testbit. assumption.
Qed.

Lemma cubeIndexOf_bits_witness :
  (0 <= cubeIndexOf coarseParams centreValues < 256)%Z
  /\ (Z.testbit (cubeIndexOf coarseParams centreValues) (Z.of_nat 0) = true
      <-> nth 0 centreValues 0 < isoLevel coarseParams).
Proof. apply cubeIndexOf_bits. lia. Defined.

End TriangulatorMore.


(** * Where the vertices of the mesh lie *)

Section VerticesInVolume.

Variable edgeTable : Z -> Z.
Variable triTable : Z -> list Z.
Variable params : Params.
Variable ss : list Sphere.

Hypothesis tables_ok : tables_wf edgeTable triTable.
Hypothesis mask_ok : edges_cut edgeTable.
Hypothesis radius_ok : 0 <= volumeRadius params.

Lemma range_bounds (n i : Z) : In i (range n) -> (0 <= i < n)%Z.
Proof.
  unfold range. intros Hin. apply in_map_iff in Hin.
  destruct Hin as [m [<- Hm]]. apply in_seq in Hm. lia.
Qed.

Lemma axis_in_volume (i : Z) :
  (0 <= i < cellsPerAxis params)%Z ->
  between (- volumeRadius params) (volumeRadius params) (cellOrigin params i)
  /\ between (- volumeRadius params) (volumeRadius params)
             (cellOrigin params i + cellSize params).
Proof.
  intros [Hi0 Hi1]. unfold between, cellOrigin.
  set (n := IZR (cellsPerAxis params)).
  assert (Hn : 0 < n) by (apply IZR_lt; lia).
  assert (Hcs : cellSize params * n = volumeRadius params * 2)
    by (unfold cellSize; fold n; field; lra).
  assert (Hx0 : 0 <= IZR i) by (apply IZR_le; lia).
  assert (Hx1 : IZR i + 1 <= n)
    by (unfold n; rewrite <- (plus_IZR i 1); apply IZR_le; lia).
  assert (Hc : 0 <= cellSize params) by nra.
  repeat split; nra.
Qed.

Lemma corner_in_volume (i j k : Z) (c : nat) :
  (0 <= i < cellsPerAxis params)%Z ->
  (0 <= j < cellsPerAxis params)%Z ->
  (0 <= k < cellsPerAxis params)%Z ->
  (c < 8)%nat ->
  in_cube (volumeRadius params) (nth c (cellCorners params i j k) zero3).
Proof.
  intros Hi Hj Hk Hc.
  destruct (axis_in_volume i Hi) as [Hx0 Hx1].
  destruct (axis_in_volume j Hj) as [Hy0 Hy1].
  destruct (axis_in_volume k Hk) as [Hz0 Hz1].
  do 8 (destruct c as [| c];
        [unfold in_cube; cbn [nth cellCorners vx vy vz];
         split; [| split]; assumption |]).
  lia.
Qed.

Lemma lerp_in_cube (b : R) (p q : Vec3) (t : R) :
  0 <= t <= 1 -> in_cube b p -> in_cube b q ->
  in_cube b (Vector3.lerpVectors p q t).
Proof.
  unfold in_cube, between, Vector3.lerpVectors. cbn [vx vy vz].
  intros Ht [Hx [Hy Hz]] [Hx' [Hy' Hz']]. repeat split; nra.
Qed.

Lemma edgeCorners_lt_8 (e : nat) :
  (e < 12)%nat ->
  (fst (nth e edgeCorners (0, 0)%nat) < 8)%nat
  /\ (snd (nth e edgeCorners (0, 0)%nat) < 8)%nat.
Proof.
  intros He. do 12 (destruct e as [| e]; [cbn; lia |]). lia.
Qed.

(** An active edge is cut by the surface: its point lies on the edge. *)
Lemma active_edge_in_volume (i j k : Z) (s : Scratch) (e : nat) :
  (0 <= i < cellsPerAxis params)%Z ->
  (0 <= j < cellsPerAxis params)%Z ->
  (0 <= k < cellsPerAxis params)%Z ->
  (e < 12)%nat ->
  let corners := cellCorners params i j k in
  let values := map (fieldValue params ss) corners in
  let s1 := set_corners s corners values in
  edgeActive (edgeTable (cubeIndexOf params values)) e = true ->
  in_cube (volumeRadius params)
          (deref s1 (edgePoint params s1 (nth e edgeCorners (0, 0)%nat))).
Proof.
  intros Hi Hj Hk He corners values s1 Hact.
  destruct (edgeCorners_lt_8 e He) as [Ha Hb].
  set (ab := nth e edgeCorners (0, 0)%nat) in *.
  pose proof (mask_ok _ e (cubeIndexOf_range params values) He Hact) as Hcut.
  fold ab in Hcut.
  pose proof (cubeIndexOf_testbit params values (fst ab) Ha) as Hbit_a.
  pose proof (cubeIndexOf_testbit params values (snd ab) Hb) as Hbit_b.
  assert (Hiso : Rmin (nth (fst ab) values 0) (nth (snd ab) values 0)
                 <= isoLevel params
                 <= Rmax (nth (fst ab) values 0) (nth (snd ab) values 0)).
  { unfold Rmin, Rmax.
    destruct (Z.testbit (cubeIndexOf params values) (Z.of_nat (fst ab))) eqn:Ea;
      destruct (Z.testbit (cubeIndexOf params values) (Z.of_nat (snd ab))) eqn:Eb;
      try discriminate Hcut.
    - assert (nth (fst ab) values 0 < isoLevel params) by (apply Hbit_a; reflexivity).
      assert (~ nth (snd ab) values 0 < isoLevel params)
        by (intros H'; apply Hbit_b in H'; discriminate).
      destruct (Rle_dec (nth (fst ab) values 0) (nth (snd ab) values 0)); lra.
    - assert (nth (snd ab) values 0 < isoLevel params) by (apply Hbit_b; reflexivity).
      assert (~ nth (fst ab) values 0 < isoLevel params)
        by (intros H'; apply Hbit_a in H'; discriminate).
      destruct (Rle_dec (nth (fst ab) values 0) (nth (snd ab) values 0)); lra. }
  unfold edgePoint. cbn [cornerValues s1 set_corners].
  destruct (interpolateVertex_segment params s1
              (corner_ref (fst ab)) (corner_ref (snd ab)) _ _ Hiso)
    as [t [Ht [Hpoint _]]].
  rewrite Hpoint. cbn [deref s1 set_corners cornerPositions].
  apply lerp_in_cube; [exact Ht | |]; apply corner_in_volume; assumption.
Qed.

Lemma push3_in_volume (b : R) (buf : list R) (v : Vec3) :
  Forall (between (- b) b) buf -> in_cube b v ->
  Forall (between (- b) b) (push3 buf v).
Proof.
  intros Hbuf [Hx [Hy Hz]]. unfold push3. apply Forall_app. split; [assumption |].
  constructor; [exact Hx |]. constructor; [exact Hy |].
  constructor; [exact Hz | constructor].
Qed.

Lemma emitTriangles_in_volume (mask : Z) :
  forall (n : nat) (row : list Z) (s : Scratch) (buf : Buffers),
    (length row <= n)%nat ->
    row_wf mask row = true ->
    (forall e, (e < 12)%nat -> edgeActive mask e = true ->
               edgeIntersection s e <> normal_h_ref /\
               in_cube (volumeRadius params) (deref s (edgeIntersection s e))) ->
    Forall (between (- volumeRadius params) (volumeRadius params)) (vertices buf) ->
    exists s' buf',
      emitTriangles params ss row (s, buf) = Some (s', buf') /\
      Forall (between (- volumeRadius params) (volumeRadius params))
             (vertices buf').
Proof.
  induction n as [| n IH]; intros row s buf Hlen Hwf Hedges Hbuf.
  - destruct row; [discriminate Hwf | cbn in Hlen; lia].
  - destruct row as [| a rest]; [discriminate Hwf |].
    cbn [emitTriangles row_wf] in *.
    destruct (Z.eqb a (-1)).
    + exists s, buf. split; [reflexivity | assumption].
    + destruct rest as [| b [| c rest']]; try discriminate Hwf.
      apply andb_true_iff in Hwf. destruct Hwf as [Hwf Hrest].
      apply andb_true_iff in Hwf. destruct Hwf as [Hwf Hc].
      apply andb_true_iff in Hwf. destruct Hwf as [Ha Hb].
      destruct (activeEntry_edgeAt mask s a Ha) as [Ha1 [Hla Haa]].
      destruct (activeEntry_edgeAt mask s b Hb) as [Hb1 [Hlb Hab]].
      destruct (activeEntry_edgeAt mask s c Hc) as [Hc1 [Hlc Hac]].
      destruct (Hedges _ Hla Haa) as [Hna Hva].
      destruct (Hedges _ Hlb Hab) as [_ Hvb].
      destruct (Hedges _ Hlc Hac) as [_ Hvc].
      rewrite (emitTriangle_closed params ss a b c s _ _ _ _ Hc1 Hb1 Ha1 Hna).
      apply IH.
      * cbn in Hlen. lia.
      * assumption.
      * intros e He Hact. destruct (Hedges e He Hact) as [Hne Hve].
        cbn [edgeIntersection set_normal_h]. split; [assumption |].
        rewrite deref_set_normal_h by assumption. assumption.
      * cbn [vertices]. repeat apply push3_in_volume; assumption.
Qed.

Lemma marchCell_in_volume (i j k : Z) (st : Scratch * Buffers) :
  (0 <= i < cellsPerAxis params)%Z ->
  (0 <= j < cellsPerAxis params)%Z ->
  (0 <= k < cellsPerAxis params)%Z ->
  Forall (between (- volumeRadius params) (volumeRadius params))
         (vertices (snd st)) ->
  exists st',
    marchCell edgeTable triTable params ss i j k st = Some st' /\
    Forall (between (- volumeRadius params) (volumeRadius params))
           (vertices (snd st')).
Proof.
  intros Hi Hj Hk Hbuf. destruct st as [s buf]. cbn [snd] in Hbuf.
  unfold marchCell.
  set (corners := cellCorners params i j k).
  set (values := map (fieldValue params ss) corners).
  set (cubeIndex := cubeIndexOf params values).
  destruct (Z.eqb (edgeTable cubeIndex) 0).
  - eexists. split; [reflexivity | exact Hbuf].
  - destruct (emitTriangles_in_volume (edgeTable cubeIndex)
                (length (triTable cubeIndex)) (triTable cubeIndex)
                (interpolateEdges params (edgeTable cubeIndex)
                   (set_corners s corners values)) buf)
      as [s' [buf' [Hrun Hbuf']]].
    + lia.
    + apply tables_ok. apply cubeIndexOf_range.
    + intros e He Hact.
      destruct (interpolateEdges_spec params (edgeTable cubeIndex)
                  (set_corners s corners values)) as [Hp [_ [_ Hedge]]].
      rewrite (Hedge e He), Hact.
      split; [apply edgePoint_not_normal_h |].
      rewrite (deref_agree _ (set_corners s corners values) _ Hp
                 (edgePoint_not_normal_h params _ _)).
      apply active_edge_in_volume; assumption.
    + exact Hbuf.
    + exists (s', buf'). split; [exact Hrun | exact Hbuf'].
Qed.

Lemma updateMesh_in_volume (s : Scratch) :
  exists s' buf,
    updateMesh edgeTable triTable params ss s = Some (s', buf) /\
    Forall (between (- volumeRadius params) (volumeRadius params)) (vertices buf).
Proof.
  unfold updateMesh.
  set (P := fun st : Scratch * Buffers =>
              Forall (between (- volumeRadius params) (volumeRadius params))
                     (vertices (snd st))).
  destruct (forEach_invariant P
              (fun i => forEach (range (cellsPerAxis params))
                 (fun j => forEach (range (cellsPerAxis params))
                    (fun k => marchCell edgeTable triTable params ss i j k)))
              (range (cellsPerAxis params))) with (s := (s, mkBuffers [] []))
    as [[s' buf] [Hrun Hbuf]].
  - intros i st Hi Hst. apply forEach_invariant; [| assumption].
    intros j st1 Hj Hst1. apply forEach_invariant; [| assumption].
    intros k st2 Hk Hst2.
    apply marchCell_in_volume; try apply range_bounds; assumption.
  - constructor.
  - exists s', buf. split; [exact Hrun | exact Hbuf].
Qed.

End VerticesInVolume.

(** X9: under well-formed tables whose masks activate only edges with
    differently classified corners, for a blend radius [smoothK] other than
    0 and a volume radius [R >= 0], the pass runs to the end and every
    coordinate in the position array lies in [[-R, R]]: every vertex is a
    point of a grid edge inside the sampled volume.  (At [smoothK = 0] the
    source divides by zero in [smin], and a field value that is not a
    number reaches the array.) *)
Theorem updateMesh_vertices_in_volume (edgeTable : Z -> Z)
    (triTable : Z -> list Z) (params : Params) (ss : list Sphere) (s : Scratch) :
  tables_wf edgeTable triTable ->
  edges_cut edgeTable ->
  smoothK params <> 0 ->
  0 <= volumeRadius params ->
  exists s' buf,
    updateMesh edgeTable triTable params ss s = Some (s', buf) /\
    Forall (between (- volumeRadius params) (volumeRadius params)) (vertices buf).
Proof.
  intros Hwf Hcut _ HR. apply updateMesh_in_volume; assumption.
Qed.

Lemma canonical_edges_cut : edges_cut canonicalEdgeTable.
Proof.
  intros c e Hc He.
  assert (H : forallb
                (fun c =>
                   forallb
                     (fun e =>
                        implb (edgeActive (canonicalEdgeTable c) e)
                          (xorb (Z.testbit c (Z.of_nat (fst (nth e edgeCorners (0, 0)%nat))))
                                (Z.testbit c (Z.of_nat (snd (nth e edgeCorners (0, 0)%nat))))))
                     (seq 0 12))
                (range 256) = true) by (vm_compute; reflexivity).
  rewrite forallb_forall in H.
  assert (Hin : In c (range 256)).
  { unfold range. replace c with (Z.of_nat (Z.to_nat c)) by lia.
    apply in_map. apply in_seq. lia. }
  specialize (H c Hin). rewrite forallb_forall in H.
  assert (Hine : In e (seq 0 12)) by (apply in_seq; lia).
  specialize (H e Hine). intros Hact. rewrite Hact in H. exact H.
Qed.

Lemma updateMesh_vertices_in_volume_witness :
  exists s' buf,
    updateMesh canonicalEdgeTable singleCornerTriTable defaultParams
               [centreSphere 0.0125] initScratch = Some (s', buf) /\
    Forall (between (- volumeRadius defaultParams) (volumeRadius defaultParams))
           (vertices buf).
Proof.
  apply updateMesh_vertices_in_volume.
  - apply canonical_tables_wf.
  - apply canonical_edges_cut.
  - cbn. lra.
  - cbn. lra.
Defined.


(** * Shape of the arrays *)

Section ArrayShape.

Lemma emitTriangle_lengths (params : Params) (ss : list Sphere) (a b c : Z)
    (st st' : Scratch * Buffers) :
  emitTriangle params ss a b c st = Some st' ->
  length (vertices (snd st')) = (length (vertices (snd st)) + 9)%nat /\
  length (normals (snd st')) = (length (normals (snd st)) + 9)%nat.
Proof.
  destruct st as [s buf]. unfold emitTriangle.
  destruct (edgeAt s c) as [v1 |]; [| discriminate].
  destruct (edgeAt s b) as [v2 |]; [| discriminate].
  destruct (edgeAt s a) as [v3 |]; [| discriminate].
  cbn [estimateNormal]. intros H. inversion H; subst; clear H.
  cbn [snd vertices normals]. unfold push3. rewrite !length_app. cbn [length].
  split; lia.
Qed.

Lemma emitTriangles_lengths (params : Params) (ss : list Sphere) :
  forall (n : nat) (row : list Z) (st st' : Scratch * Buffers),
    (length row <= n)%nat ->
    emitTriangles params ss row st = Some st' ->
    exists m,
      triangleCount row = Some m /\
      length (vertices (snd st')) = (length (vertices (snd st)) + 9 * m)%nat /\
      length (normals (snd st')) = (length (normals (snd st)) + 9 * m)%nat.
Proof.
  induction n as [| n IH]; intros row st st' Hlen Hrun.
  - destruct row; [discriminate Hrun | cbn in Hlen; lia].
  - destruct row as [| a rest]; [discriminate Hrun |].
    cbn [emitTriangles triangleCount] in *.
    destruct (Z.eqb a (-1)).
    + inversion Hrun; subst. exists 0%nat. repeat split; lia.
    + destruct rest as [| b [| c rest']]; try discriminate Hrun.
      destruct (emitTriangle params ss a b c st) as [st1 |] eqn:Hone;
        [| discriminate Hrun].
      destruct (emitTriangle_lengths params ss a b c st st1 Hone) as [Hv Hn].
      destruct (IH rest' st1 st') as [m [Hm [Hv' Hn']]];
        [cbn in Hlen; lia | exact Hrun |].
      exists (S m). rewrite Hm. cbn [option_map].
      split; [reflexivity |]. split; lia.
Qed.

(** X10: when the triangle loop of a cell completes, the row holds a [-1]
    at a triple boundary, and the loop has appended nine numbers to each
    array for every triple before it. *)
Theorem emitTriangles_appends (params : Params) (ss : list Sphere)
    (row : list Z) (st st' : Scratch * Buffers) :
  emitTriangles params ss row st = Some st' ->
  exists m,
    triangleCount row = Some m /\
    length (vertices (snd st')) = (length (vertices (snd st)) + 9 * m)%nat /\
    length (normals (snd st')) = (length (normals (snd st)) + 9 * m)%nat.
Proof.
  intros Hrun.
  apply (emitTriangles_lengths params ss (length row) row st st');
    [lia | exact Hrun].
Qed.

(** The triangle loop of the centre cell of the coarse grid, on the row
    of its case: one triple, then the sentinel. *)
Lemma coarse_centre_row (s : Scratch) (buf : Buffers) :
  exists s',
    emitTriangles coarseParams [centreSphere 0.5] (oneTriangleRow 0 8 3)
      (interpolateEdges coarseParams 265
         (set_corners s centreCorners centreValues), buf)
    = Some (s',
            mkBuffers (vertices buf ++ [0; 0.5; 0; 0; 0; 0.5; 0.5; 0; 0])
                      (normals buf ++ tripled (vec3 1 0 0))).
Proof.
  destruct (coarse_edges s) as [E0 [E3 E8]].
  set (s2 := interpolateEdges coarseParams 265
               (set_corners s centreCorners centreValues)) in *.
  assert (A0 : edgeAt s2 0 = Some (fresh_ref (vec3 0.5 0 0)))
    by (change (edgeAt s2 0) with (Some (edgeIntersection s2 0%nat));
        rewrite E0; reflexivity).
  assert (A3 : edgeAt s2 3 = Some (fresh_ref (vec3 0 0.5 0)))
    by (change (edgeAt s2 3) with (Some (edgeIntersection s2 3%nat));
        rewrite E3; reflexivity).
  assert (A8 : edgeAt s2 8 = Some (fresh_ref (vec3 0 0 0.5)))
    by (change (edgeAt s2 8) with (Some (edgeIntersection s2 8%nat));
        rewrite E8; reflexivity).
  unfold oneTriangleRow. cbn [app repeat emitTriangles].
  change (Z.eqb 0 (-1)) with false. cbv iota.
  rewrite (emitTriangle_closed coarseParams [centreSphere 0.5] 0 8 3 s2 buf
             _ _ _ A3 A8 A0) by discriminate.
  change (Z.eqb (-1) (-1)) with true. cbv iota.
  cbn [deref].
  fold (normalAt coarseParams [centreSphere 0.5] (vec3 0.5 0 0)).
  rewrite centre_normal_x.
  eexists. f_equal. f_equal. f_equal.
  - unfold push3. cbn [vx vy vz]. rewrite <- !app_assoc. reflexivity.
  - unfold push3, tripled. cbn [vx vy vz]. rewrite <- !app_assoc. reflexivity.
Qed.

Lemma emitTriangles_appends_witness :
  exists st',
    emitTriangles coarseParams [centreSphere 0.5] (oneTriangleRow 0 8 3)
      (interpolateEdges coarseParams 265
         (set_corners initScratch centreCorners centreValues),
       mkBuffers [] [])
    = Some st' /\
    exists m,
      triangleCount (oneTriangleRow 0 8 3) = Some m /\
      m = 1%nat /\
      length (vertices (snd st')) = (0 + 9 * m)%nat /\
      length (normals (snd st')) = (0 + 9 * m)%nat.
Proof.
  destruct (coarse_centre_row initScratch (mkBuffers [] [])) as [s' Hrun].
  eexists. split; [exact Hrun |].
  destruct (emitTriangles_appends _ _ _ _ _ Hrun) as [m [Hm [Hv Hn]]].
  exists m. split; [exact Hm |].
  split; [| split; [exact Hv | exact Hn]].
  cbv in Hm. injection Hm as Hm. symmetry. exact Hm.
Defined.

(** X11: a row without a [-1] at a triple boundary makes the triangle loop
    throw: it reads past the end of the row and then a component of
    [undefined]. *)
Theorem emitTriangles_needs_sentinel (params : Params) (ss : list Sphere)
    (row : list Z) (st : Scratch * Buffers) :
  triangleCount row = None ->
  emitTriangles params ss row st = None.
Proof.
  intros Hnone.
  destruct (emitTriangles params ss row st) as [st' |] eqn:Hrun; [| reflexivity].
  destruct (emitTriangles_lengths params ss (length row) row st st'
              (Nat.le_refl _) Hrun) as [m [Hm _]].
  rewrite Hm in Hnone. discriminate.
Qed.

Lemma emitTriangles_needs_sentinel_witness :
  emitTriangles defaultParams [] [0; 8; 3]%Z (initScratch, mkBuffers [] []) = None.
Proof. apply emitTriangles_needs_sentinel. reflexivity. Defined.

Lemma flat_map_length_9 {A : Type} (f : A -> list R) (l : list A) :
  (forall x, length (f x) = 9%nat) ->
  length (flat_map f l) = (9 * length l)%nat.
Proof.
  intros Hf. induction l as [| x l IH]; cbn [flat_map length]; [lia |].
  rewrite length_app, Hf, IH. lia.
Qed.

(** X12: under well-formed tables the pass runs to the end for every
    input, and the position and normal arrays have the same length, nine
    numbers for each triangle. *)
Theorem updateMesh_arrays_shape (edgeTable : Z -> Z) (triTable : Z -> list Z)
    (params : Params) (ss : list Sphere) (s : Scratch) :
  tables_wf edgeTable triTable ->
  exists s' buf n,
    updateMesh edgeTable triTable params ss s = Some (s', buf) /\
    length (vertices buf) = (9 * n)%nat /\
    length (normals buf) = (9 * n)%nat.
Proof.
  intros Hwf.
  destruct (updateMesh_third_vertex_normals edgeTable triTable params ss s Hwf)
    as [s' [tris Hrun]].
  exists s', (meshOf params ss tris), (length tris).
  split; [exact Hrun |]. unfold meshOf. cbn [vertices normals].
  split; apply flat_map_length_9; intros t; reflexivity.
Qed.

Lemma updateMesh_arrays_shape_witness :
  exists s' buf n,
    updateMesh canonicalEdgeTable singleCornerTriTable defaultParams
               [centreSphere 0.0125] initScratch = Some (s', buf) /\
    length (vertices buf) = (9 * n)%nat /\
    length (normals buf) = (9 * n)%nat.
Proof. apply updateMesh_arrays_shape. apply canonical_tables_wf. Defined.

(** X13: under well-formed tables the arrays of a pass are determined by
    the parameters and by the positions and radii of the emitters: two passes
    over emitters with the same spheres give the same arrays, whatever the
    targets and speeds of the emitters and whatever the scratch vectors hold
    when the pass starts. *)
Theorem updateMesh_depends_on_spheres_only (edgeTable : Z -> Z)
    (triTable : Z -> list Z) (params : Params) (ss1 ss2 : list Sphere)
    (s1 s2 : Scratch) :
  tables_wf edgeTable triTable ->
  Forall2 same_body ss1 ss2 ->
  exists s1' s2' buf,
    updateMesh edgeTable triTable params ss1 s1 = Some (s1', buf) /\
    updateMesh edgeTable triTable params ss2 s2 = Some (s2', buf).
Proof.
  intros Hwf Hbody.
  apply updateMesh_agree; [exact Hwf |].
  intros pos. apply fieldValue_same_body. exact Hbody.
Qed.

Lemma updateMesh_depends_on_spheres_only_witness :
  exists s1' s2' buf,
    updateMesh canonicalEdgeTable singleCornerTriTable defaultParams
               [centreSphere 0.0125] initScratch = Some (s1', buf) /\
    updateMesh canonicalEdgeTable singleCornerTriTable defaultParams
               [mkSphere zero3 (vec3 1 1 1) 0.0125 0.2]
               (set_normal_h initScratch (vec3 1 0 0)) = Some (s2', buf).
Proof.
  apply updateMesh_depends_on_spheres_only.
  - apply canonical_tables_wf.
  - constructor; [split; reflexivity | constructor].
Defined.

End ArrayShape.


(** * Further properties of the kinematics *)

Section KinematicsMore.

Lemma step_as_lerp_gen (pos tgt : Vec3) (c step : R) :
  Vector3.add pos
    (Vector3.multiplyScalar
       (Vector3.multiplyScalar (Vector3.subVectors tgt pos) c) step)
  = Vector3.lerpVectors pos tgt (c * step).
Proof.
  unfold Vector3.add, Vector3.multiplyScalar, Vector3.lerpVectors,
    Vector3.subVectors.
  cbn [vx vy vz]. apply f_equal3; ring.
Qed.

Lemma sub_after_step (pos tgt : Vec3) (c step : R) :
  Vector3.subVectors tgt
    (Vector3.add pos
       (Vector3.multiplyScalar
          (Vector3.multiplyScalar (Vector3.subVectors tgt pos) c) step))
  = Vector3.multiplyScalar (Vector3.subVectors tgt pos) (1 - c * step).
Proof.
  unfold Vector3.add, Vector3.multiplyScalar, Vector3.subVectors.
  cbn [vx vy vz]. apply f_equal3; ring.
Qed.

Lemma step_as_lerp (pos tgt : Vec3) (step : R) :
  Vector3.add pos
    (Vector3.multiplyScalar
       (unit_vector (Vector3.subVectors tgt pos)) step)
  = Vector3.lerpVectors pos tgt
      (1 / Vector3.length (Vector3.subVectors tgt pos) * step).
Proof. unfold unit_vector. apply step_as_lerp_gen. Qed.

Lemma step_fraction (dist step : R) :
  0 < dist -> 0 <= step -> step < dist ->
  0 <= 1 / dist * step <= 1 /\ (1 / dist * step) * dist = step.
Proof.
  intros Hd Hs Hlt.
  assert (Heq : (1 / dist * step) * dist = step) by (field; lra).
  split; [| exact Heq].
  set (q := 1 / dist * step) in *. split; nra.
Qed.

Lemma updateSphere_wandering (params : Params) (dt : R) (e : Sphere) (g : Rng) :
  0 <= bounds params -> 0 <= dt -> rng_ok g ->
  wandering (bounds params) e ->
  wandering (bounds params) (fst (updateSphere params dt e g))
  /\ rng_ok (snd (updateSphere params dt e g)).
Proof.
  intros Hb Hdt Hg [Hsp [Hpos Htgt]].
  destruct (updateSphere_advanced params dt e g Hg)
    as [[Hr [Hs [Hcases _]]] Hg'].
  split; [| exact Hg'].
  unfold wandering. rewrite Hs. split; [exact Hsp |].
  cbv zeta in Hcases.
  destruct Hcases
    as [[_ [Hp [Ht _]]] | [[_ [_ [Hp [Ht _]]]] | [Hfar [Hshort [Hp [Ht _]]]]]].
  - rewrite Hp. split; [exact Hpos |].
    destruct Ht as [_ [_ [_ [_ [_ [_ [_ Hcube]]]]]]].
    apply Hcube. exact Hb.
  - rewrite Hp. split; [exact Htgt |].
    destruct Ht as [_ [_ [_ [_ [_ [_ [_ Hcube]]]]]]].
    apply Hcube. exact Hb.
  - rewrite Hp, Ht. split; [| exact Htgt].
    rewrite step_as_lerp.
    pose proof (length_nonneg (Vector3.subVectors (target e) (position e))).
    assert (Hstep : 0 <= sphere_speed e * dt) by nra.
    destruct (step_fraction
                (Vector3.length (Vector3.subVectors (target e) (position e)))
                (sphere_speed e * dt)) as [Hfrac _]; [lra | lra | lra |].
    apply lerp_in_cube; assumption.
Qed.

Lemma updateLoop_wandering (params : Params) (dt : R) (ss : list Sphere) :
  0 <= bounds params -> 0 <= dt ->
  forall g,
    rng_ok g ->
    Forall (wandering (bounds params)) ss ->
    Forall (wandering (bounds params)) (fst (updateLoop params dt ss g))
    /\ rng_ok (snd (updateLoop params dt ss g)).
Proof.
  intros Hb Hdt. induction ss as [| e ss IH]; intros g Hg Hall; cbn [updateLoop].
  - split; [constructor | assumption].
  - inversion Hall as [| x xs He Hrest]; subst.
    destruct (updateSphere_wandering params dt e g Hb Hdt Hg He) as [He' Hg1].
    destruct (updateSphere params dt e g) as [e' g1]. cbn [fst snd] in *.
    destruct (IH g1 Hg1 Hrest) as [Hall' Hg2].
    destruct (updateLoop params dt ss g1) as [ss' g2]. cbn [fst snd] in *.
    split; [constructor; assumption | assumption].
Qed.

(** X14: emitters never leave the padded cube.  For [bounds >= 0] and
    [deltaTime >= 0], if every emitter has a speed of 0 or more and its
    position and its target in [[-bounds, bounds]^3], the same holds after
    [updateSpheres]. *)
Theorem updateSpheres_stay_in_cube (params : Params) (dt : R) (w : World) :
  0 <= bounds params ->
  0 <= dt ->
  rng_ok (rng w) ->
  Forall (wandering (bounds params)) (spheres w) ->
  Forall (wandering (bounds params)) (spheres (updateSpheres params dt w))
  /\ rng_ok (rng (updateSpheres params dt w)).
Proof.
  intros Hb Hdt Hg Hall. unfold updateSpheres.
  destruct (updateLoop_wandering params dt (spheres w) Hb Hdt (rng w) Hg Hall)
    as [H1 H2].
  destruct (updateLoop params dt (spheres w) (rng w)) as [ss g].
  cbn [fst snd spheres rng] in *. split; assumption.
Qed.

Lemma centre_wandering (b r : R) : 0 <= b -> wandering b (centreSphere r).
Proof.
  intros Hb. unfold wandering, centreSphere, in_cube, between, zero3.
  cbn [sphere_speed position target vx vy vz]. repeat split; lra.
Qed.

Lemma updateSpheres_stay_in_cube_witness :
  Forall (wandering (bounds defaultParams))
         (spheres (updateSpheres defaultParams 0.016 exampleWorld))
  /\ rng_ok (rng (updateSpheres defaultParams 0.016 exampleWorld)).
Proof.
  apply updateSpheres_stay_in_cube.
  - rewrite bounds_default. lra.
  - lra.
  - apply constRng_ok. unfold unit_draw. lra.
  - constructor; [| constructor]. apply centre_wandering.
    rewrite bounds_default. lra.
Defined.

(** X15: an emitter that is farther from its target than the step of the
    tick, [0 <= speed * dt < distance] and [distance >= 1e-3], keeps its
    target and ends the tick exactly [speed * dt] closer to it. *)
Theorem updateSphere_approaches (params : Params) (dt : R) (e : Sphere) (g : Rng) :
  let dist := Vector3.length (Vector3.subVectors (target e) (position e)) in
  let e' := fst (updateSphere params dt e g) in
  ~ dist < 0.001 ->
  0 <= sphere_speed e * dt < dist ->
  target e' = target e
  /\ Vector3.length (Vector3.subVectors (target e') (position e'))
     = dist - sphere_speed e * dt.
Proof.
  cbv zeta. intros Hfar [Hstep0 Hstep1]. unfold updateSphere. cbv zeta.
  set (dir := Vector3.subVectors (target e) (position e)) in *.
  destruct (Rlt_dec (Vector3.length dir) 0.001) as [Hnear | _];
    [contradiction |].
  destruct (Rge_dec (sphere_speed e * dt) (Vector3.length dir)) as [Hge | _];
    [lra |].
  cbn [fst target position]. split; [reflexivity |].
  assert (Hlen : Vector3.length dir <> 0) by lra.
  rewrite normalize_unit by assumption. unfold unit_vector.
  set (q := 1 / Vector3.length dir * (sphere_speed e * dt)).
  assert (Hq : 0 <= q <= 1 /\ q * Vector3.length dir = sphere_speed e * dt)
    by (apply step_fraction; lra).
  unfold dir at 1. rewrite sub_after_step. fold dir. fold q.
  rewrite length_scale. rewrite Rabs_right by lra. nra.
Qed.

Lemma updateSphere_approaches_witness :
  let e := mkSphere zero3 (vec3 1 0 0) 0.0125 0.15 in
  let dist := Vector3.length (Vector3.subVectors (target e) (position e)) in
  let e' := fst (updateSphere defaultParams 1 e (constRng 0.5)) in
  target e' = target e
  /\ Vector3.length (Vector3.subVectors (target e') (position e'))
     = dist - sphere_speed e * 1.
Proof.
  assert (Hd : Vector3.length
                 (Vector3.subVectors (vec3 1 0 0) zero3) = 1).
  { unfold Vector3.length, Vector3.subVectors, zero3. cbn [vx vy vz].
    replace ((1 - 0) * (1 - 0) + (0 - 0) * (0 - 0) + (0 - 0) * (0 - 0)) with 1
      by ring.
    apply sqrt_1. }
  apply (updateSphere_approaches defaultParams 1
           (mkSphere zero3 (vec3 1 0 0) 0.0125 0.15) (constRng 0.5));
    cbn [target position sphere_speed]; rewrite Hd; lra.
Defined.

End KinematicsMore.


(** * The slider panel and the frame loop *)

Section AppInvariant.

Variable edgeTable : Z -> Z.
Variable triTable : Z -> list Z.
Hypothesis tables_ok : tables_wf edgeTable triTable.

Lemma newSphere_ranges (p : Params) (g : Rng) :
  0 <= speed p ->
  0 <= targetRadius p * radiusVariance p ->
  rng_ok g ->
  speed_in_range p (fst (newSphere p g))
  /\ radius_in_range p (fst (newSphere p g))
  /\ rng_ok (snd (newSphere p g)).
Proof.
  intros Hsp Hrv Hg. unfold newSphere, random. cbv beta iota zeta.
  rewrite !randomPoint_eq. cbv beta iota. cbn [fst snd].
  unfold speed_in_range, radius_in_range, between.
  cbn [sphere_speed radius].
  pose proof (Hg 0%nat) as [Hu0 Hu1]. pose proof (Hg 7%nat) as [Hv0 Hv1].
  split; [nra |]. split; [nra |]. intros n. apply Hg.
Qed.

Lemma reseedLoop_ranges (p : Params) (n : nat) :
  0 <= speed p ->
  0 <= targetRadius p * radiusVariance p ->
  forall acc g,
    rng_ok g ->
    exists fresh,
      fst (reseedLoop p n acc g) = acc ++ fresh /\
      length fresh = n /\
      Forall (speed_in_range p) fresh /\
      Forall (radius_in_range p) fresh /\
      rng_ok (snd (reseedLoop p n acc g)).
Proof.
  intros Hsp Hrv. induction n as [| n IH]; intros acc g Hg; cbn [reseedLoop].
  - exists []. rewrite app_nil_r.
    split; [reflexivity |]. split; [reflexivity |].
    split; [constructor |]. split; [constructor | assumption].
  - destruct (newSphere_ranges p g Hsp Hrv Hg) as [Hs [Hr Hg1]].
    destruct (newSphere p g) as [e g1]. cbn [fst snd] in *.
    destruct (IH (acc ++ [e]) g1 Hg1) as [fresh [Heq [Hlen [Hss [Hrs Hg2]]]]].
    exists (e :: fresh). rewrite Heq, <- app_assoc.
    split; [reflexivity |]. split; [cbn; congruence |].
    split; [constructor; assumption |].
    split; [constructor; assumption | assumption].
Qed.

Lemma reseed_app_inv (p : Params) (w : World) (a : App) :
  (0 <= sphereCount p)%Z ->
  0 <= speed p ->
  0 <= targetRadius p * radiusVariance p ->
  rng_ok (rng w) ->
  app_inv (mkApp p (reseedSpheres p (sphereCount p) w)
                 (app_material a) (app_fov a)).
Proof.
  intros Hn Hsp Hrv Hg. unfold app_inv. cbn [app_params app_world].
  unfold reseedSpheres.
  destruct (reseedLoop_ranges p (Z.to_nat (sphereCount p)) Hsp Hrv [] (rng w) Hg)
    as [fresh [Heq [Hlen [Hss [Hrs Hg']]]]].
  destruct (reseedLoop p (Z.to_nat (sphereCount p)) [] (rng w)) as [ss g].
  cbn [fst snd spheres rng app] in *. subst ss.
  split; [rewrite Hlen; lia |].
  split; [exact Hss |]. split; [exact Hrs |]. split; [exact Hg' |].
  split; assumption.
Qed.

Lemma advanced_keeps_ranges (p : Params) (dt : R) (ss ss' : list Sphere)
    (g g' : Rng) :
  advancedAll p dt ss g ss' g' ->
  length ss' = length ss /\
  (Forall (speed_in_range p) ss -> Forall (speed_in_range p) ss') /\
  (Forall (radius_in_range p) ss -> Forall (radius_in_range p) ss').
Proof.
  intros Hadv. apply advancedAll_keeps in Hadv.
  induction Hadv as [| e e' ss ss' [Hr Hs] _ [IHl [IHs IHr]]].
  - repeat split; trivial.
  - split; [cbn; congruence |]. split; intros Hall;
      inversion Hall as [| x xs Hx Hxs]; subst; constructor.
    + unfold speed_in_range in *. rewrite Hs. assumption.
    + apply IHs. assumption.
    + unfold radius_in_range in *. rewrite Hr. assumption.
    + apply IHr. assumption.
Qed.

Lemma appStep_inv (ev : AppEvent) (a : App) :
  valid_event ev -> app_inv a ->
  exists a', appStep edgeTable triTable ev a = Some a' /\ app_inv a'.
Proof.
  intros Hev Hinv.
  destruct Hinv as [Hlen [Hss [Hrs [Hg [Hsp Hrv]]]]]. cbv zeta in *.
  destruct ev as [c | dt]; cbn [appStep].
  - eexists. split; [reflexivity |].
    destruct c as [val | val | val | val | val | val | val];
      cbn [onchange valid_event] in *.
    + apply (reseed_app_inv (set_sphereCount (app_params a) val)
               (app_world a) a);
        cbn [sphereCount speed targetRadius radiusVariance set_sphereCount];
        assumption.
    + unfold app_inv. cbn [app_params app_world].
      split; [exact Hlen |]. split; [exact Hss |]. split; [exact Hrs |].
      split; [exact Hg |]. split; assumption.
    + apply (reseed_app_inv (set_speed (app_params a) val)
               (app_world a) a);
        cbn [sphereCount speed targetRadius radiusVariance set_speed];
        try assumption.
      rewrite <- Hlen. lia.
    + unfold app_inv. cbn [app_params app_world].
      split; [exact Hlen |]. split; [exact Hss |]. split; [exact Hrs |].
      split; [exact Hg |]. split; assumption.
    + unfold app_inv. cbn [app_params app_world].
      split; [exact Hlen |]. split; [exact Hss |]. split; [exact Hrs |].
      split; [exact Hg |]. split; assumption.
    + unfold app_inv. cbn [app_params app_world].
      split; [exact Hlen |]. split; [exact Hss |]. split; [exact Hrs |].
      split; [exact Hg |]. split; assumption.
    + unfold app_inv. cbn [app_params app_world].
      split; [exact Hlen |]. split; [exact Hss |]. split; [exact Hrs |].
      split; [exact Hg |]. split; assumption.
  - unfold tick, updateMeshW.
    set (w1 := updateSpheres (app_params a) dt (app_world a)).
    destruct (updateMesh_agree edgeTable triTable (app_params a)
                (spheres w1) (spheres w1) (scratch w1) (scratch w1) tables_ok
                (fun pos => eq_refl)) as [s' [_ [buf [Hrun _]]]].
    rewrite Hrun. eexists. split; [reflexivity |].
    unfold app_inv. cbn [app_params app_world spheres rng].
    assert (Hadv : advancedAll (app_params a) dt (spheres (app_world a))
                     (rng (app_world a)) (spheres w1) (rng w1)
                   /\ rng_ok (rng w1)).
    { unfold w1, updateSpheres.
      destruct (updateLoop_advanced (app_params a) dt (spheres (app_world a))
                  (rng (app_world a)) Hg) as [H1 H2].
      destruct (updateLoop (app_params a) dt (spheres (app_world a))
                  (rng (app_world a))) as [ss g].
      cbn [fst snd spheres rng] in *. split; assumption. }
    destruct Hadv as [Hadv Hg1].
    destruct (advanced_keeps_ranges _ _ _ _ _ _ Hadv) as [Hl [Hs' Hr']].
    split; [rewrite Hl; exact Hlen |].
    split; [apply Hs'; exact Hss |].
    split; [apply Hr'; exact Hrs |].
    split; [exact Hg1 |]. split; assumption.
Qed.

Lemma appRun_inv (evs : list AppEvent) :
  Forall valid_event evs ->
  forall a, app_inv a ->
    exists a', appRun edgeTable triTable evs a = Some a' /\ app_inv a'.
Proof.
  induction 1 as [| ev evs Hev _ IH]; intros a Hinv; cbn [appRun].
  - exists a. split; [reflexivity | assumption].
  - destruct (appStep_inv ev a Hev Hinv) as [a1 [Hstep Hinv1]].
    rewrite Hstep. apply IH. assumption.
Qed.

Lemma initApp_inv (g : Rng) : rng_ok g -> app_inv (initApp g).
Proof.
  intros Hg. unfold initApp.
  apply (reseed_app_inv defaultParams (initWorld g)
           (mkApp defaultParams (initWorld g) (mkMaterial 0.400 1.700 0.530) 75));
    cbn [sphereCount speed targetRadius radiusVariance defaultParams initWorld rng];
    solve [lia | lra | assumption].
Qed.

End AppInvariant.

(** X16: whatever sliders are moved (with a sphere count and a speed of 0
    or more) and whatever frames pass after [init], the program never throws
    (under well-formed tables), the number of emitters is
    [params.sphereCount], every emitter's speed lies in
    [[0.5 params.speed, 1.5 params.speed]] and every radius in
    [[targetRadius (1 - variance), targetRadius (1 + variance)]]. *)
Theorem app_keeps_emitters_in_step (edgeTable : Z -> Z) (triTable : Z -> list Z)
    (g : Rng) (evs : list AppEvent) :
  tables_wf edgeTable triTable ->
  rng_ok g ->
  Forall valid_event evs ->
  exists a,
    appRun edgeTable triTable evs (initApp g) = Some a /\ app_inv a.
Proof.
  intros Hwf Hg Hevs.
  apply appRun_inv; [exact Hwf | exact Hevs |].
  apply initApp_inv. exact Hg.
Qed.

Lemma app_keeps_emitters_in_step_witness :
  exists a,
    appRun canonicalEdgeTable singleCornerTriTable
      [frame 0.016; slide (Speed 0.5); slide (SmoothK 0.1); frame 0.016;
       slide (Spheres 3); frame 0]
      (initApp (constRng 0.5)) = Some a
    /\ app_inv a.
Proof.
  apply app_keeps_emitters_in_step.
  - apply canonical_tables_wf.
  - apply constRng_ok. unfold unit_draw. lra.
  - repeat constructor; cbn; solve [lra | lia].
Defined.


(** * The virtual joysticks *)

Section JoystickProps.

Lemma offset_norm (dx dy : R) :
  sqrt (dx * dx + dy * dy) * sqrt (dx * dx + dy * dy) = dx * dx + dy * dy.
Proof. apply sqrt_sqrt. nra. Qed.

Lemma updateJoystick_output (j : Joystick) (event : PointerEvent) :
  0 < joy_radius j ->
  let dx := clientX event - (rectLeft event + joy_radius j) in
  let dy := clientY event - (rectTop event + joy_radius j) in
  let distance := sqrt (dx * dx + dy * dy) in
  let out := outputVector (updateJoystick j event) in
  lengthSq2 out <= 1
  /\ (distance <= joy_radius j ->
      out = vec2 (dx / joy_radius j) (dy / joy_radius j))
  /\ (distance > joy_radius j ->
      lengthSq2 out = 1 /\ out = vec2 (dx / distance) (dy / distance)).
Proof.
  intros Hr. cbv zeta. unfold updateJoystick. cbv zeta.
  set (dx := clientX event - (rectLeft event + joy_radius j)).
  set (dy := clientY event - (rectTop event + joy_radius j)).
  pose proof (offset_norm dx dy) as Hsq.
  pose proof (sqrt_pos (dx * dx + dy * dy)) as Hpos.
  set (distance := sqrt (dx * dx + dy * dy)) in *.
  set (r := joy_radius j) in *.
  destruct (Rgt_dec distance r) as [Hout | Hin]; cbn [outputVector].
  - assert (Hd : 0 < distance) by lra.
    assert (Hx : dx / distance * r / r = dx / distance) by (field; lra).
    assert (Hy : dy / distance * r / r = dy / distance) by (field; lra).
    rewrite Hx, Hy.
    assert (Hone : lengthSq2 (vec2 (dx / distance) (dy / distance)) = 1).
    { unfold lengthSq2. cbn [v2x v2y].
      replace (dx / distance * (dx / distance) + dy / distance * (dy / distance))
        with ((dx * dx + dy * dy) / (distance * distance)) by (field; lra).
      rewrite Hsq. field. nra. }
    split; [rewrite Hone; lra |]. split; [intros; lra |].
    intros _. split; [exact Hone | reflexivity].
  - split; [| split; [intros _; reflexivity | intros; lra]].
    unfold lengthSq2. cbn [v2x v2y].
    replace (dx / r * (dx / r) + dy / r * (dy / r))
      with ((dx * dx + dy * dy) / (r * r)) by (field; lra).
    rewrite <- Hsq.
    apply Rmult_le_reg_r with (r * r); [nra |].
    replace (distance * distance / (r * r) * (r * r)) with (distance * distance)
      by (field; lra).
    nra.
Qed.

(** X17: for a container of positive width the vector a joystick writes
    never leaves the unit disc: inside the container circle it is the offset
    of the pointer from the centre divided by the radius, and outside it is
    the unit vector towards the pointer. *)
Theorem updateJoystick_unit_disc (j : Joystick) (event : PointerEvent) :
  0 < joy_radius j ->
  let dx := clientX event - (rectLeft event + joy_radius j) in
  let dy := clientY event - (rectTop event + joy_radius j) in
  let distance := sqrt (dx * dx + dy * dy) in
  let out := outputVector (updateJoystick j event) in
  lengthSq2 out <= 1
  /\ (distance <= joy_radius j ->
      out = vec2 (dx / joy_radius j) (dy / joy_radius j))
  /\ (distance > joy_radius j ->
      lengthSq2 out = 1 /\ out = vec2 (dx / distance) (dy / distance)).
Proof. intros Hr. apply updateJoystick_output. exact Hr. Qed.

Lemma updateJoystick_unit_disc_witness :
  let j := initJoystick 50 in
  let event := mkPointerEvent 1 200 50 0 0 in
  let dx := clientX event - (rectLeft event + joy_radius j) in
  let dy := clientY event - (rectTop event + joy_radius j) in
  let distance := sqrt (dx * dx + dy * dy) in
  let out := outputVector (updateJoystick j event) in
  lengthSq2 out <= 1
  /\ (distance <= joy_radius j ->
      out = vec2 (dx / joy_radius j) (dy / joy_radius j))
  /\ (distance > joy_radius j ->
      lengthSq2 out = 1 /\ out = vec2 (dx / distance) (dy / distance)).
Proof.
  apply (updateJoystick_unit_disc (initJoystick 50) (mkPointerEvent 1 200 50 0 0)).
  cbn. lra.
Defined.

Lemma updateJoystick_keeps (j : Joystick) (event : PointerEvent) :
  joy_radius (updateJoystick j event) = joy_radius j /\
  isDragging (updateJoystick j event) = isDragging j /\
  joy_pointerId (updateJoystick j event) = joy_pointerId j.
Proof.
  unfold updateJoystick. cbv zeta.
  destruct (Rgt_dec _ _); cbn; repeat split.
Qed.

Lemma joystickStep_inv (radius : R) (j : Joystick) (ev : JoystickEvent) :
  0 < radius -> joystick_inv radius j -> joystick_inv radius (joystickStep j ev).
Proof.
  intros Hr [Hrad [Hflag [Hrest Hdisc]]].
  assert (Hup : joystick_inv radius
                  (mkJoystick (joy_radius j) false None (0, 0) (vec2 0 0))).
  { unfold joystick_inv. cbn. split; [exact Hrad |].
    split; [tauto |]. split; [tauto |]. unfold lengthSq2. cbn. lra. }
  assert (Hmove : forall j0 e,
             joy_radius j0 = radius -> isDragging j0 = true ->
             joy_pointerId j0 <> None ->
             joystick_inv radius (updateJoystick j0 e)).
  { intros j0 e Hr0 Hd0 Hp0.
    destruct (updateJoystick_keeps j0 e) as [K1 [K2 K3]].
    unfold joystick_inv. rewrite K1, K2, K3.
    split; [exact Hr0 |]. split; [rewrite Hd0; split; [discriminate | contradiction] |].
    split; [rewrite Hd0; discriminate |].
    apply (updateJoystick_output j0 e). rewrite Hr0. exact Hr. }
  assert (Hsame : joystick_inv radius j)
    by (unfold joystick_inv; repeat split; tauto).
  destruct ev as [e | e | e | e]; cbn [joystickStep].
  - unfold onPointerDown. destruct (isDragging j) eqn:Hd; [exact Hsame |].
    apply Hmove; cbn; [exact Hrad | reflexivity | discriminate].
  - unfold onPointerMove.
    destruct (isDragging j) eqn:Hd; cbn [andb]; [| exact Hsame].
    destruct (samePointer (joy_pointerId j) (pointerId e)) eqn:Hp;
      [| exact Hsame].
    apply Hmove; [exact Hrad | exact Hd |].
    intros Hnone. rewrite Hnone in Hp. discriminate.
  - unfold onPointerUp.
    destruct (isDragging j && samePointer (joy_pointerId j) (pointerId e));
      [exact Hup | exact Hsame].
  - unfold onPointerUp.
    destruct (isDragging j && samePointer (joy_pointerId j) (pointerId e));
      [exact Hup | exact Hsame].
Qed.

(** X18: after any sequence of pointer events on a joystick of positive
    radius, the joystick is dragging exactly when it holds a pointer id, a
    joystick at rest has its vector at (0, 0) and its handle centred, and the
    vector lies in the unit disc. *)
Theorem joystickRun_inv (radius : R) (evs : list JoystickEvent) :
  0 < radius -> joystick_inv radius (joystickRun evs (initJoystick radius)).
Proof.
  intros Hr. unfold joystickRun.
  assert (H0 : joystick_inv radius (initJoystick radius)).
  { unfold joystick_inv, initJoystick. cbn. split; [reflexivity |].
    split; [tauto |]. split; [tauto |]. unfold lengthSq2. cbn. lra. }
  revert H0. generalize (initJoystick radius).
  induction evs as [| ev evs IH]; intros j Hj; cbn [fold_left].
  - exact Hj.
  - apply IH. apply joystickStep_inv; assumption.
Qed.

Lemma joystickRun_inv_witness :
  joystick_inv 50
    (joystickRun [pointerdown (mkPointerEvent 1 200 50 0 0);
                  pointermove (mkPointerEvent 1 60 70 0 0);
                  pointerup (mkPointerEvent 1 60 70 0 0)]
                 (initJoystick 50)).
Proof. apply joystickRun_inv. lra. Defined.

(** X19: while a pointer drags the joystick, events of every other pointer
    are ignored: they leave the state, the handle and the vector alone. *)
Theorem joystick_ignores_other_pointers (j : Joystick) (p : Z)
    (evs : list JoystickEvent) :
  isDragging j = true ->
  joy_pointerId j = Some p ->
  Forall (fun ev => pointerId (eventOf ev) <> p) evs ->
  joystickRun evs j = j.
Proof.
  intros Hd Hp Hall. unfold joystickRun.
  induction Hall as [| ev evs Hev _ IH]; cbn [fold_left]; [reflexivity |].
  assert (Hstep : joystickStep j ev = j).
  { assert (Hother : samePointer (joy_pointerId j) (pointerId (eventOf ev)) = false).
    { rewrite Hp. cbn [samePointer]. apply Z.eqb_neq. exact Hev. }
    destruct ev as [e | e | e | e]; cbn [joystickStep eventOf] in *.
    - unfold onPointerDown. rewrite Hd. reflexivity.
    - unfold onPointerMove. rewrite Hd, Hother. reflexivity.
    - unfold onPointerUp. rewrite Hd, Hother. reflexivity.
    - unfold onPointerUp. rewrite Hd, Hother. reflexivity. }
  rewrite Hstep. exact IH.
Qed.

Lemma joystick_ignores_other_pointers_witness :
  joystickRun [pointerdown (mkPointerEvent 2 10 10 0 0);
               pointermove (mkPointerEvent 2 90 90 0 0);
               pointercancel (mkPointerEvent 2 90 90 0 0)]
              (mkJoystick 50 true (Some 1%Z) (10, 0) (vec2 0.2 0))
  = mkJoystick 50 true (Some 1%Z) (10, 0) (vec2 0.2 0).
Proof.
  apply (joystick_ignores_other_pointers _ 1%Z).
  - reflexivity.
  - reflexivity.
  - repeat constructor; cbn; lia.
Defined.

End JoystickProps.


(** * Camera translation *)

Section CameraMove.

Lemma sub_add_same (p t d : Vec3) :
  Vector3.subVectors (Vector3.add p d) (Vector3.add t d) = Vector3.subVectors p t.
Proof.
  unfold Vector3.subVectors, Vector3.add. cbn [vx vy vz]. apply f_equal3; ring.
Qed.

Lemma sub_add_left (p d : Vec3) : Vector3.subVectors (Vector3.add p d) p = d.
Proof.
  destruct d as [x y z]. unfold Vector3.subVectors, Vector3.add.
  cbn [vx vy vz]. apply f_equal3; ring.
Qed.

Lemma length_zero3 : Vector3.length zero3 = 0.
Proof.
  unfold Vector3.length, zero3. cbn [vx vy vz].
  replace (0 * 0 + 0 * 0 + 0 * 0) with 0 by ring. apply sqrt_0.
Qed.

Lemma normalize_length_le_1 (v : Vec3) : Vector3.length (Vector3.normalize v) <= 1.
Proof.
  destruct (Req_dec_T (Vector3.length v) 0) as [Hz | Hnz].
  - rewrite normalize_zero by assumption. rewrite length_zero3. lra.
  - rewrite normalize_length by assumption. lra.
Qed.

Lemma normalize_vy (v : Vec3) : vy v = 0 -> vy (Vector3.normalize v) = 0.
Proof.
  intros Hy. unfold Vector3.normalize, Vector3.divideScalar, Vector3.multiplyScalar.
  cbn [vy]. rewrite Hy. apply Rmult_0_l.
Qed.

(** X20: the left joystick translates camera and orbit target by the same
    vector, so their offset is unchanged; for [deltaTime >= 0] the camera
    moves by at most [0.3 * deltaTime], however far the joystick is
    deflected; inside the dead zone ([lengthSq <= 0.0001]) nothing moves; and
    with the up vector (0, 1, 0) the camera keeps its height. *)
Theorem moveCamera_translates (moveVector : Vec2) (deltaTime : R) (r : Rig) :
  0 <= deltaTime ->
  let r' := moveCamera moveVector deltaTime r in
  Vector3.subVectors (cameraPosition r') (controlsTarget r')
  = Vector3.subVectors (cameraPosition r) (controlsTarget r)
  /\ Vector3.length (Vector3.subVectors (cameraPosition r') (cameraPosition r))
     <= 0.3 * deltaTime
  /\ (lengthSq2 moveVector <= 0.0001 -> r' = r)
  /\ (cameraUp r = vec3 0 1 0 ->
      vy (cameraPosition r') = vy (cameraPosition r)).
Proof.
  intros Hdt. cbv zeta. unfold moveCamera.
  destruct (Rgt_dec (lengthSq2 moveVector) 0.0001) as [Hmove | Hstill].
  - cbv zeta. cbn [cameraPosition controlsTarget].
    set (forwardOnPlane :=
           Vector3.normalize
             (vec3 (vx (cameraDirection r)) 0 (vz (cameraDirection r)))).
    set (cameraRight :=
           Vector3.normalize (crossVectors (cameraUp r) (cameraDirection r))).
    set (moveDirection :=
           Vector3.normalize
             (Vector3.add
                (Vector3.multiplyScalar cameraRight (v2x moveVector))
                (Vector3.multiplyScalar forwardOnPlane (- v2y moveVector)))).
    split; [apply sub_add_same |]. split; [| split; [intros; lra |]].
    + rewrite sub_add_left, length_scale.
      rewrite Rabs_right by lra.
      pose proof (normalize_length_le_1
                    (Vector3.add
                       (Vector3.multiplyScalar cameraRight (v2x moveVector))
                       (Vector3.multiplyScalar forwardOnPlane (- v2y moveVector))))
        as Hle.
      fold moveDirection in Hle.
      pose proof (length_nonneg moveDirection). nra.
    + intros Hup.
      assert (Hf : vy forwardOnPlane = 0)
        by (unfold forwardOnPlane; apply normalize_vy; reflexivity).
      assert (Hc : vy cameraRight = 0).
      { unfold cameraRight. apply normalize_vy. rewrite Hup.
        unfold crossVectors. cbn [vx vy vz]. ring. }
      assert (Hm : vy moveDirection = 0).
      { unfold moveDirection. apply normalize_vy.
        unfold Vector3.add, Vector3.multiplyScalar. cbn [vy].
        rewrite Hf, Hc. ring. }
      unfold Vector3.add, Vector3.multiplyScalar. cbn [vy]. rewrite Hm. ring.
  - split; [reflexivity |]. split; [| split; [reflexivity | reflexivity]].
    replace (Vector3.subVectors (cameraPosition r) (cameraPosition r)) with zero3
      by (unfold Vector3.subVectors, zero3; apply f_equal3; ring).
    rewrite length_zero3. nra.
Qed.

Lemma moveCamera_translates_witness :
  let r := mkRig (vec3 0 0 0.45) (vec3 0 1 0) (vec3 0 0 (-1)) zero3 in
  let r' := moveCamera (vec2 1 0) 0.016 r in
  Vector3.subVectors (cameraPosition r') (controlsTarget r')
  = Vector3.subVectors (cameraPosition r) (controlsTarget r)
  /\ Vector3.length (Vector3.subVectors (cameraPosition r') (cameraPosition r))
     <= 0.3 * 0.016
  /\ (lengthSq2 (vec2 1 0) <= 0.0001 -> r' = r)
  /\ (cameraUp r = vec3 0 1 0 ->
      vy (cameraPosition r') = vy (cameraPosition r)).
Proof.
  apply (moveCamera_translates (vec2 1 0) 0.016
           (mkRig (vec3 0 0 0.45) (vec3 0 1 0) (vec3 0 0 (-1)) zero3)).
  lra.
Defined.

End CameraMove.


(** * Range of the normal array *)

Section NormalRange.

Lemma component_le_length (v : Vec3) :
  Rabs (vx v) <= Vector3.length v /\
  Rabs (vy v) <= Vector3.length v /\
  Rabs (vz v) <= Vector3.length v.
Proof.
  unfold Vector3.length.
  repeat split; rewrite <- sqrt_Rsqr_abs; apply sqrt_le_1_alt; unfold Rsqr; nra.
Qed.

Lemma normalize_in_unit_cube (v : Vec3) : in_cube 1 (Vector3.normalize v).
Proof.
  pose proof (normalize_length_le_1 v) as Hlen.
  destruct (component_le_length (Vector3.normalize v)) as [Hx [Hy Hz]].
  assert (Hx1 : Rabs (vx (Vector3.normalize v)) <= 1) by lra.
  assert (Hy1 : Rabs (vy (Vector3.normalize v)) <= 1) by lra.
  assert (Hz1 : Rabs (vz (Vector3.normalize v)) <= 1) by lra.
  unfold Rabs in Hx1, Hy1, Hz1.
  destruct (Rcase_abs (vx (Vector3.normalize v)));
    destruct (Rcase_abs (vy (Vector3.normalize v)));
    destruct (Rcase_abs (vz (Vector3.normalize v)));
    unfold in_cube, between; repeat split; lra.
Qed.

Lemma tripled_in_unit_cube (n : Vec3) :
  in_cube 1 n -> Forall (between (- 1) 1) (tripled n).
Proof.
  intros [Hx [Hy Hz]]. unfold tripled.
  repeat (constructor; [assumption |]). constructor.
Qed.

(** X21: under well-formed tables and for a blend radius [smoothK] other
    than 0, every number of the normal array lies in [[-1, 1]]: each
    stored normal is a normalized vector or the zero vector.  (At
    [smoothK = 0] the source divides by zero in [smin], and a normal that
    is not a number reaches the array.) *)
Theorem updateMesh_normals_bounded (edgeTable : Z -> Z) (triTable : Z -> list Z)
    (params : Params) (ss : list Sphere) (s : Scratch) :
  tables_wf edgeTable triTable ->
  smoothK params <> 0 ->
  exists s' buf,
    updateMesh edgeTable triTable params ss s = Some (s', buf) /\
    Forall (between (- 1) 1) (normals buf).
Proof.
  intros Hwf _.
  destruct (updateMesh_third_vertex_normals edgeTable triTable params ss s Hwf)
    as [s' [tris Hrun]].
  exists s', (meshOf params ss tris). split; [exact Hrun |].
  unfold meshOf. cbn [normals]. clear Hrun.
  induction tris as [| t tris IH]; cbn [flat_map]; [constructor |].
  apply Forall_app. split; [| exact IH].
  unfold thirdVertexNormals, normalAt.
  apply tripled_in_unit_cube. apply normalize_in_unit_cube.
Qed.

Lemma updateMesh_normals_bounded_witness :
  exists s' buf,
    updateMesh canonicalEdgeTable singleCornerTriTable coarseParams
               [centreSphere 0.5] initScratch = Some (s', buf) /\
    Forall (between (- 1) 1) (normals buf).
Proof.
  apply updateMesh_normals_bounded.
  - apply canonical_tables_wf.
  - cbn. lra.
Defined.

End NormalRange.
